(** * sb_buffer: a growable byte string with small-string optimisation

    A shallow embedding of [src/include/sb_buffer.h] and
    [src/src/sb_buffer.c], and the properties of the buffer's storage,
    growth and validity logic.

    The C functions work on [SB_Buffer] objects through pointers, call the
    allocator and copy bytes between objects.  The embedding keeps all of
    that: a machine state holds the [SB_Buffer] objects (by address), the
    allocated heap blocks and the allocator's future decisions; every C
    function is a computation on that state which either returns, or has
    undefined behaviour, or does not terminate within the given number of
    loop iterations. *)

From Stdlib Require Import ZArith Lia List.
From Stdlib.Strings Require Import Byte.
From stdpp Require Import base decidable option list gmap fin_maps fin_sets strings.

Local Open Scope Z_scope.

(** ** Machine integers *)

(** [size_t] is taken to be 64 bits wide; arithmetic on it wraps. *)
Definition SIZE_BITS : Z := 64.
Definition SIZE_MOD : Z := 2 ^ SIZE_BITS.
Definition wrap (z : Z) : Z := z mod SIZE_MOD.

(** [#define SB_BUFFER_INITIAL_CAP 256] and [#define SB_BUFFER_MAGIC 0xBABECAFE]. *)
Definition SB_BUFFER_INITIAL_CAP : Z := 256.
Definition SB_BUFFER_MAGIC : Z := 0xBABECAFE.

(** ** Memory *)

(** Addresses of [SB_Buffer] objects and of heap blocks. *)
Definition addr := positive.
Definition block := positive.

(** A [char *]: null, the start of the [init] array of the [SB_Buffer] at an
    address, or the start of a heap block.  The code only ever stores and
    compares pointers to the start of an object; offsets are given
    separately to the memory primitives below. *)
Inductive ptr : Type :=
| NULL
| InitOf (a : addr)
| Heap (h : block).

Global Instance ptr_eq_dec : EqDecision ptr.
Proof. solve_decision. Defined.

(** One [char] of storage: [None] is an indeterminate (never written) byte. *)
Definition cell := option byte.

(** The terminator ['\0']. *)
Definition NUL : byte := x00.

Global Instance byte_eq_decision : EqDecision byte := byte_eq_dec.

(** [typedef struct { uint32_t magic; char init[SB_BUFFER_INITIAL_CAP];
    char *str; size_t len; size_t cap; } SB_Buffer;] *)
Record SB_Buffer : Type := mkBuffer {
  magic : Z;
  init : list cell;
  str : ptr;
  len : Z;
  cap : Z
}.

(** The machine state: the [SB_Buffer] objects that exist, the heap blocks
    that are allocated, and the allocator's answers to the coming requests
    ([true]: the request is granted; once the list is used up every request
    is granted). *)
Record state : Type := mkState {
  bufs : gmap addr SB_Buffer;
  heap : gmap block (list cell);
  oracle : list bool
}.

(** ** Outcomes and the computation monad *)

Inductive outcome (A : Type) : Type :=
| Ret (a : A)     (* the call returns *)
| Undefined       (* undefined behaviour: an invalid access, copy or free *)
| OutOfFuel.      (* the doubling loop is still running when the fuel ends *)
Arguments Ret {A} a.
Arguments Undefined {A}.
Arguments OutOfFuel {A}.

Definition M (A : Type) : Type := state -> outcome (A * state).

Definition ret {A} (a : A) : M A := fun st => Ret (a, st).
Definition undefined {A} : M A := fun _ => Undefined.
Definition bind {A B} (m : M A) (k : A -> M B) : M B :=
  fun st =>
    match m st with
    | Ret (a, st') => k a st'
    | Undefined => Undefined
    | OutOfFuel => OutOfFuel
    end.

Declare Scope comp_scope.
Delimit Scope comp_scope with comp.
Notation "x <- m ;; k" := (bind m (fun x => k))
  (at level 20, m at level 99, k at level 200, only parsing) : comp_scope.
Notation "m ;; k" := (bind m (fun _ => k))
  (at level 100, k at level 200, right associativity, only parsing) : comp_scope.
Local Open Scope comp_scope.

(** *** Access to the fields of the [SB_Buffer] at an address *)

Definition load_buf (a : addr) : M SB_Buffer :=
  fun st =>
    match bufs st !! a with
    | Some B => Ret (B, st)
    | None => Undefined
    end.

Definition store_buf (a : addr) (B : SB_Buffer) : M unit :=
  fun st => Ret (tt, mkState (<[a := B]> (bufs st)) (heap st) (oracle st)).

Definition get_magic (a : addr) : M Z := B <- load_buf a ;; ret (magic B).
Definition get_str (a : addr) : M ptr := B <- load_buf a ;; ret (str B).
Definition get_len (a : addr) : M Z := B <- load_buf a ;; ret (len B).
Definition get_cap (a : addr) : M Z := B <- load_buf a ;; ret (cap B).

Definition set_magic (a : addr) (v : Z) : M unit :=
  B <- load_buf a ;; store_buf a (mkBuffer v (init B) (str B) (len B) (cap B)).
Definition set_init (a : addr) (v : list cell) : M unit :=
  B <- load_buf a ;; store_buf a (mkBuffer (magic B) v (str B) (len B) (cap B)).
Definition set_str (a : addr) (v : ptr) : M unit :=
  B <- load_buf a ;; store_buf a (mkBuffer (magic B) (init B) v (len B) (cap B)).
Definition set_len (a : addr) (v : Z) : M unit :=
  B <- load_buf a ;; store_buf a (mkBuffer (magic B) (init B) (str B) v (cap B)).
Definition set_cap (a : addr) (v : Z) : M unit :=
  B <- load_buf a ;; store_buf a (mkBuffer (magic B) (init B) (str B) (len B) v).

(** *** Objects behind a [char *] *)

(** The array a pointer points to, if it points to a live one. *)
Definition object (p : ptr) (st : state) : option (list cell) :=
  match p with
  | NULL => None
  | InitOf a => init <$> (bufs st !! a)
  | Heap h => heap st !! h
  end.

Definition put_heap (h : block) (cs : list cell) : M unit :=
  fun st => Ret (tt, mkState (bufs st) (<[h := cs]> (heap st)) (oracle st)).

(** Replace the whole array behind a pointer. *)
Definition put_object (p : ptr) (cs : list cell) : M unit :=
  match p with
  | NULL => undefined
  | InitOf a => set_init a cs
  | Heap h => put_heap h cs
  end.

Definition size_of (cs : list cell) : Z := Z.of_nat (length cs).

(** [n] cells of [cs] from offset [off]. *)
Definition slice (off n : Z) (cs : list cell) : list cell :=
  take (Z.to_nat n) (drop (Z.to_nat off) cs).

(** [cs] with the cells from offset [off] on overwritten by [new]. *)
Definition splice (off : Z) (new cs : list cell) : list cell :=
  take (Z.to_nat off) cs ++ new ++ drop (Z.to_nat off + length new) cs.

(** [p[off] = v]: defined only inside a live object. *)
Definition store_byte (p : ptr) (off : Z) (v : byte) : M unit :=
  fun st =>
    match object p st with
    | Some cs =>
        if (0 <=? off) && (off <? size_of cs)
        then put_object p (splice off [Some v] cs) st
        else Undefined
    | None => Undefined
    end.

(** [memcpy(dst + off, src, n)]: both pointers must point into live objects
    with [n] bytes available, and the two regions must not overlap. *)
Definition memcpy (dst : ptr) (off : Z) (src : ptr) (n : Z) : M unit :=
  fun st =>
    match object dst st, object src st with
    | Some dcs, Some scs =>
        if (0 <=? off) && (0 <=? n) && (off + n <=? size_of dcs)
           && (n <=? size_of scs)
           && negb (bool_decide (dst = src) && (0 <? n) && (off <? n))
        then put_object dst (splice off (slice 0 n scs) dcs) st
        else Undefined
    | _, _ => Undefined
    end.

(** *** The allocator *)

(** The allocator's answer to the next request. *)
Definition alloc_ok : M bool :=
  fun st =>
    match oracle st with
    | nil => Ret (true, st)
    | d :: ds => Ret (d, mkState (bufs st) (heap st) ds)
    end.

(** An address that no live heap block has. *)
Definition fresh_block : M block :=
  fun st => Ret (fresh (dom (heap st)), st).

(** [malloc(n)]: a new block of [n] indeterminate bytes, or [NULL]. *)
Definition malloc (n : Z) : M ptr :=
  ok <- alloc_ok ;;
  if ok : bool then
    h <- fresh_block ;;
    put_heap h (replicate (Z.to_nat n) None) ;;
    ret (Heap h)
  else ret NULL.

Definition drop_heap (h : block) : M unit :=
  fun st => Ret (tt, mkState (bufs st) (delete h (heap st)) (oracle st)).

(** [free(p)]: [p] must be null or a live heap block. *)
Definition free (p : ptr) : M unit :=
  match p with
  | NULL => ret tt
  | InitOf _ => undefined
  | Heap h =>
      fun st =>
        match heap st !! h with
        | Some _ => drop_heap h st
        | None => Undefined
        end
  end.

(** [cs] cut or extended with indeterminate bytes to [n] cells. *)
Definition resize (n : Z) (cs : list cell) : list cell :=
  take (Z.to_nat n) cs ++ replicate (Z.to_nat n - length cs) None.

(** [realloc(p, n)]: on success the old block is gone and a new block holds
    its contents (up to the smaller of the two sizes); on failure [NULL] is
    returned and the old block is untouched. *)
Definition realloc (p : ptr) (n : Z) : M ptr :=
  match p with
  | NULL => malloc n
  | InitOf _ => undefined
  | Heap h =>
      fun st =>
        match heap st !! h with
        | None => Undefined
        | Some cs =>
            (ok <- alloc_ok ;;
             if ok : bool then
               h' <- fresh_block ;;
               drop_heap h ;;
               put_heap h' (resize n cs) ;;
               ret (Heap h')
             else ret NULL) st
        end
  end.

(** ** The functions of [sb_buffer.c] *)

(** A [SB_Buffer *] is [None] for the null pointer and [Some a] for the
    address [a]; dereferencing an address where no [SB_Buffer] object lives
    is undefined. *)
Definition buf_ptr := option addr.

(** The macro [CHECK_SB_BUFFER_POINTER_RET(b, ret)], followed by the rest
    [k] of the function body.  The message it prints on [stderr] is not part
    of the state. *)
Definition CHECK_SB_BUFFER_POINTER_RET {A} (b : buf_ptr) (r : A)
    (k : addr -> M A) : M A :=
  match b with
  | None => ret r
  | Some a =>
      m <- get_magic a ;;
      if bool_decide (m ≠ SB_BUFFER_MAGIC) then ret r else k a
  end.

(** [int sb_buffer_init(SB_Buffer *b)] *)
Definition sb_buffer_init (b : buf_ptr) : M Z :=
  match b with
  | None => ret 0
  | Some a =>
      set_magic a SB_BUFFER_MAGIC ;;
      set_len a 0 ;;
      set_cap a SB_BUFFER_INITIAL_CAP ;;
      set_str a (InitOf a) ;;
      bstr <- get_str a ;;
      store_byte bstr 0 NUL ;;
      ret 1
  end.

(** The computation that is cut off because the fuel ran out. *)
Definition out_of_fuel {A} : M A := fun _ => OutOfFuel.

(** The loop [while (nova_cap <= b->len + len + 1) nova_cap *= 2;] run for
    at most [fuel] iterations; it yields the final [nova_cap]. *)
Fixpoint double_until (fuel : nat) (a : addr) (nova_cap len : Z) : M Z :=
  blen <- get_len a ;;
  if nova_cap <=? wrap (wrap (blen + len) + 1) then
    match fuel with
    | O => out_of_fuel
    | S fuel' => double_until fuel' a (wrap (nova_cap * 2)) len
    end
  else ret nova_cap.

(** [int sb_buffer_add_lstring(SB_Buffer *b, const char *s, size_t len)];
    [len] is a [size_t], a number from 0 to [SIZE_MOD - 1].
    The two [return 0] inside the growth branch leave the function; here the
    growth branch yields [false] for them and the tail of the function is
    run only on [true]. *)
Definition sb_buffer_add_lstring (fuel : nat) (b : buf_ptr) (s : ptr)
    (len : Z) : M Z :=
  CHECK_SB_BUFFER_POINTER_RET b 0 (fun a =>
    bcap <- get_cap a ;;
    blen <- get_len a ;;
    let sobrando := wrap (bcap - blen) in
    go_on <-
      (if len >=? sobrando then
         nova_cap <- get_cap a ;;
         nova_cap <- double_until fuel a nova_cap len ;;
         bstr <- get_str a ;;
         moved <-
           (if bool_decide (bstr ≠ InitOf a) then
              bstr <- get_str a ;;
              novo_ptr <- realloc bstr nova_cap ;;
              if bool_decide (novo_ptr = NULL) then ret false
              else (set_str a novo_ptr ;; ret true)
            else
              novo_ptr <- malloc nova_cap ;;
              if bool_decide (novo_ptr = NULL) then ret false
              else (blen <- get_len a ;;
                    memcpy novo_ptr 0 (InitOf a) blen ;;
                    set_str a novo_ptr ;;
                    ret true)) ;;
         if moved : bool then (set_cap a nova_cap ;; ret true) else ret false
       else ret true) ;;
    if go_on : bool then
      bstr <- get_str a ;;
      blen <- get_len a ;;
      memcpy bstr blen s len ;;
      set_len a (wrap (blen + len)) ;;
      bstr <- get_str a ;;
      blen <- get_len a ;;
      store_byte bstr blen NUL ;;
      ret 1
    else ret 0).

(** [const char *sb_buffer_get_str(SB_Buffer *b)] *)
Definition sb_buffer_get_str (b : buf_ptr) : M ptr :=
  CHECK_SB_BUFFER_POINTER_RET b NULL (fun a => get_str a).

(** [size_t sb_buffer_get_len(SB_Buffer *b)] *)
Definition sb_buffer_get_len (b : buf_ptr) : M Z :=
  CHECK_SB_BUFFER_POINTER_RET b 0 (fun a => get_len a).

(** [int sb_buffer_finalize(SB_Buffer *b)] *)
Definition sb_buffer_finalize (b : buf_ptr) : M Z :=
  CHECK_SB_BUFFER_POINTER_RET b 0 (fun a =>
    bstr <- get_str a ;;
    (if bool_decide (bstr ≠ InitOf a) then free bstr else ret tt) ;;
    set_str a (InitOf a) ;;
    bstr <- get_str a ;;
    store_byte bstr 0 NUL ;;
    set_len a 0 ;;
    set_cap a SB_BUFFER_INITIAL_CAP ;;
    ret 1).

(** [int sb_buffer_reset(SB_Buffer *b)] *)
Definition sb_buffer_reset (b : buf_ptr) : M Z :=
  CHECK_SB_BUFFER_POINTER_RET b 0 (fun a =>
    bstr <- get_str a ;;
    (if bool_decide (bstr ≠ InitOf a) then free bstr else ret tt) ;;
    set_len a 0 ;;
    set_cap a SB_BUFFER_INITIAL_CAP ;;
    set_str a (InitOf a) ;;
    bstr <- get_str a ;;
    store_byte bstr 0 NUL ;;
    ret 1).

(** [int sb_buffer_clear(SB_Buffer *b)] *)
Definition sb_buffer_clear (b : buf_ptr) : M Z :=
  CHECK_SB_BUFFER_POINTER_RET b 0 (fun a =>
    set_len a 0 ;;
    bstr <- get_str a ;;
    store_byte bstr 0 NUL ;;
    ret 1).

(** [int sb_buffer_isbuffer(SB_Buffer *b)] *)
Definition sb_buffer_isbuffer (b : buf_ptr) : M Z :=
  match b with
  | None => ret 0
  | Some a =>
      m <- get_magic a ;;
      if bool_decide (m ≠ SB_BUFFER_MAGIC) then ret 0 else ret 1
  end.

(** [int sb_buffer_copy(SB_Buffer *src, SB_Buffer *dest)] *)
Definition sb_buffer_copy (fuel : nat) (src dest : buf_ptr) : M Z :=
  CHECK_SB_BUFFER_POINTER_RET src 0 (fun s =>
    ok <- sb_buffer_isbuffer dest ;;
    if ok =? 0 then ret 0
    else
      sb_buffer_reset dest ;;
      sstr <- get_str s ;;
      slen <- get_len s ;;
      sb_buffer_add_lstring fuel dest sstr slen).

(** ** What the accessors show of a buffer *)

(** The [n] cells a pointer points to, when it points to a live object that
    has that many. *)
Definition read_bytes (p : ptr) (n : Z) (st : state) : option (list cell) :=
  match object p st with
  | Some cs => if (0 <=? n) && (n <=? size_of cs) then Some (slice 0 n cs) else None
  | None => None
  end.

(** The content of a buffer: the [sb_buffer_get_len] cells that
    [sb_buffer_get_str] points to. *)
Definition content (b : buf_ptr) (st : state) : option (list cell) :=
  match sb_buffer_get_str b st, sb_buffer_get_len b st with
  | Ret (p, _), Ret (n, _) => read_bytes p n st
  | _, _ => None
  end.

(** A byte string as it lies in memory. *)
Definition cells_of (bs : list byte) : list cell := map Some bs.

(** ** Valid buffers *)

(** The [SB_Buffer] [B] at address [a] is valid, with [cs] its active
    storage: the magic number is set, the [init] array has its declared
    size, [str] points to [init] or to a live heap block, [cap] is the size
    of that storage, the content fits with its terminator, and the
    terminator is there. *)
Record buffer_ok (st : state) (a : addr) (B : SB_Buffer) (cs : list cell) : Prop := {
  ok_lookup : bufs st !! a = Some B;
  ok_magic : magic B = SB_BUFFER_MAGIC;
  ok_init : size_of (init B) = SB_BUFFER_INITIAL_CAP;
  ok_str : str B = InitOf a \/ exists h, str B = Heap h;
  ok_object : object (str B) st = Some cs;
  ok_size : size_of cs = cap B;
  ok_len : 0 <= len B < cap B;
  ok_cap : cap B < SIZE_MOD;
  ok_nul : cs !! Z.to_nat (len B) = Some (Some NUL)
}.

(** The buffer at [a] is valid. *)
Definition valid (st : state) (a : addr) : Prop :=
  exists B cs, buffer_ok st a B cs.

(** An [SB_Buffer] object lives at [a] (initialised or not). *)
Definition is_object (st : state) (a : addr) : Prop :=
  exists B, bufs st !! a = Some B /\ size_of (init B) = SB_BUFFER_INITIAL_CAP.

(** Two buffers do not use the same storage (each heap block has one owner). *)
Definition separate (st : state) (a1 a2 : addr) : Prop :=
  forall B1 B2, bufs st !! a1 = Some B1 -> bufs st !! a2 = Some B2 -> str B1 <> str B2.

(** The buffer at [a] is inline-backed / heap-backed. *)
Definition inline_backed (st : state) (a : addr) : Prop :=
  exists B, bufs st !! a = Some B /\ str B = InitOf a.
Definition heap_backed (st : state) (a : addr) : Prop :=
  exists B h, bufs st !! a = Some B /\ str B = Heap h /\ is_Some (heap st !! h).

(** The buffer at [a] has moved to a block that was not allocated in [st]. *)
Definition moved_to_heap (st st' : state) (a : addr) : Prop :=
  exists B h,
    bufs st' !! a = Some B /\ str B = Heap h
    /\ heap st !! h = None /\ is_Some (heap st' !! h).

(** Invariants 1 and 2 of the buffer at [a]: [length < capacity], and the
    byte of the active storage at offset [length] is the terminator. *)
Definition terminated (st : state) (a : addr) : Prop :=
  exists B cs,
    bufs st !! a = Some B /\ object (str B) st = Some cs
    /\ 0 <= len B < cap B /\ cs !! Z.to_nat (len B) = Some (Some NUL).

(** ** Checking validity by computation *)

(** What stands for the [SB_Buffer] at an address where there is none. *)
Definition no_buffer : SB_Buffer := mkBuffer 0 [] NULL 0 0.

(** The [SB_Buffer] at an address and its active storage, read off a state. *)
Definition the_buffer (st : state) (a : addr) : SB_Buffer :=
  default no_buffer (bufs st !! a).
Definition the_storage (st : state) (a : addr) : list cell :=
  default [] (object (str (the_buffer st a)) st).

(** The pointer is to a heap block. *)
Definition is_heap (p : ptr) : bool :=
  match p with Heap _ => true | _ => false end.

(** [buffer_ok] as a test. *)
Definition buffer_okb (st : state) (a : addr) : bool :=
  match bufs st !! a with
  | None => false
  | Some B =>
      match object (str B) st with
      | None => false
      | Some cs =>
          (magic B =? SB_BUFFER_MAGIC)
          && (size_of (init B) =? SB_BUFFER_INITIAL_CAP)
          && (bool_decide (str B = InitOf a) || is_heap (str B))
          && (size_of cs =? cap B)
          && (0 <=? len B) && (len B <? cap B) && (cap B <? SIZE_MOD)
          && bool_decide (cs !! Z.to_nat (len B) = Some (Some NUL))
      end
  end.

(** ** The parts of the functions and what they leave behind *)

(** Named here so that each part can be reasoned about on its own; the
    lemmas [add_lstring_unfold], [reset_unfold] and [finalize_unfold] show
    that the functions above are made of these parts. *)

(** The values [nova_cap] runs through in the doubling loop while the
    length of the buffer is [blen]: [Some] of the last one when the loop is
    left within [fuel] iterations. *)
Fixpoint doubling (fuel : nat) (nova_cap blen len : Z) : option Z :=
  if nova_cap <=? wrap (wrap (blen + len) + 1) then
    match fuel with
    | O => None
    | S fuel' => doubling fuel' (wrap (nova_cap * 2)) blen len
    end
  else Some nova_cap.

(** The growth branch of [sb_buffer_add_lstring] (lines 46 to 71). *)
Definition grow_storage (fuel : nat) (a : addr) (len : Z) : M bool :=
  nova_cap <- get_cap a ;;
  nova_cap <- double_until fuel a nova_cap len ;;
  bstr <- get_str a ;;
  moved <-
    (if bool_decide (bstr ≠ InitOf a) then
       bstr <- get_str a ;;
       novo_ptr <- realloc bstr nova_cap ;;
       if bool_decide (novo_ptr = NULL) then ret false
       else (set_str a novo_ptr ;; ret true)
     else
       novo_ptr <- malloc nova_cap ;;
       if bool_decide (novo_ptr = NULL) then ret false
       else (blen <- get_len a ;;
             memcpy novo_ptr 0 (InitOf a) blen ;;
             set_str a novo_ptr ;;
             ret true)) ;;
  if moved : bool then (set_cap a nova_cap ;; ret true) else ret false.

(** The tail of [sb_buffer_add_lstring] (lines 74 to 80). *)
Definition write_tail (a : addr) (s : ptr) (len : Z) : M Z :=
  bstr <- get_str a ;;
  blen <- get_len a ;;
  memcpy bstr blen s len ;;
  set_len a (wrap (blen + len)) ;;
  bstr <- get_str a ;;
  blen <- get_len a ;;
  store_byte bstr blen NUL ;;
  ret 1.

(** What [sb_buffer_reset] does once the heap block, if any, is freed. *)
Definition reset_tail (a : addr) : M Z :=
  set_len a 0 ;;
  set_cap a SB_BUFFER_INITIAL_CAP ;;
  set_str a (InitOf a) ;;
  bstr <- get_str a ;;
  store_byte bstr 0 NUL ;;
  ret 1.

(** The same for [sb_buffer_finalize]: the same writes in another order. *)
Definition finalize_tail (a : addr) : M Z :=
  set_str a (InitOf a) ;;
  bstr <- get_str a ;;
  store_byte bstr 0 NUL ;;
  set_len a 0 ;;
  set_cap a SB_BUFFER_INITIAL_CAP ;;
  ret 1.

(** The storage after [n] cells of [scs] and the terminator were written
    behind the [blen] cells of content in [cs]. *)
Definition appended (blen n : Z) (scs cs : list cell) : list cell :=
  splice (blen + n) [Some NUL] (splice blen (slice 0 n scs) cs).

(** The checks the tail makes: the new cells and the terminator fit, the
    source has [n] cells, and source and destination regions are apart. *)
Definition tail_ok (blen n : Z) (same : bool) (scs cs : list cell) : bool :=
  (0 <=? n) && (blen + n <? size_of cs) && (n <=? size_of scs)
  && negb (same && (0 <? n) && (blen <? n)).

(** The heap block that an inline buffer migrates to: its content, then
    indeterminate cells. *)
Definition migrated (blen nova : Z) (cs : list cell) : list cell :=
  splice 0 (slice 0 blen cs) (replicate (Z.to_nat nova) None).

(** The heap once the storage behind [p] was given up, and the block the
    content moved to. *)
Definition release (p : ptr) (hm : gmap block (list cell)) : gmap block (list cell) :=
  match p with Heap h => delete h hm | _ => hm end.
Definition moved (p : ptr) (blen nova : Z) (cs : list cell) : list cell :=
  match p with Heap _ => resize nova cs | _ => migrated blen nova cs end.

(** The state after the growth branch gave the buffer [B] at [a] a new
    block of [nova] cells. *)
Definition grown (st : state) (a : addr) (B : SB_Buffer) (cs : list cell)
    (nova : Z) : state :=
  mkState
    (<[a := mkBuffer (magic B) (init B) (Heap (fresh (dom (heap st)))) (len B) nova]>
       (bufs st))
    (<[fresh (dom (heap st)) := moved (str B) (len B) nova cs]>
       (release (str B) (heap st)))
    (tl (oracle st)).

(** The constructed-empty state of the buffer at [a]. *)
Definition emptied (st : state) (a : addr) (B : SB_Buffer) : state :=
  mkState
    (<[a := mkBuffer (magic B) (splice 0 [Some NUL] (init B)) (InitOf a) 0
                     SB_BUFFER_INITIAL_CAP]> (bufs st))
    (heap st) (oracle st).

(** The state after the hard reset of the valid buffer [B] at [a]. *)
Definition reset_state (st : state) (a : addr) (B : SB_Buffer) : state :=
  emptied (mkState (bufs st) (release (str B) (heap st)) (oracle st)) a B.

(** [st'], with the buffer [B'] at [a] and its storage [cs'], is what a
    successful append of [n] bytes from [s] makes of [st], where the valid
    buffer [B] at [a] had the storage [cs]. *)
Record appended_to (st : state) (a : addr) (B : SB_Buffer) (cs : list cell)
    (s : ptr) (n : Z) (st' : state) (B' : SB_Buffer) (cs' : list cell) : Prop := {
  ap_ok : buffer_ok st' a B' cs';
  ap_n : 0 <= n;
  ap_len : len B' = len B + n;
  ap_old : take (Z.to_nat (len B)) cs' = take (Z.to_nat (len B)) cs;
  ap_src : forall scs, object s st = Some scs ->
           n <= size_of scs /\
           take (Z.to_nat (len B + n)) cs' = take (Z.to_nat (len B)) cs ++ slice 0 n scs;
  ap_others : forall a', a' <> a -> bufs st' !! a' = bufs st !! a';
  ap_blocks : forall h, str B <> Heap h -> is_Some (heap st !! h) ->
              heap st' !! h = heap st !! h;
  ap_fit : len B + n < cap B ->
           str B' = str B /\ cap B' = cap B /\ oracle st' = oracle st
           /\ dom (heap st') = dom (heap st);
  ap_grow : cap B <= len B + n ->
            exists h', str B' = Heap h' /\ heap st !! h' = None
                       /\ hd true (oracle st) = true /\ oracle st' = tl (oracle st)
                       /\ len B + n < cap B'
}.

(** ** Sequences of calls *)

(** Append, one after the other, the byte strings [bs] found at the pointers
    [s]: [Some] of the final state when every string is in memory where the
    pointer says at the time of its call and every call returns 1. *)
Fixpoint append_all (fuel : nat) (b : buf_ptr) (items : list (ptr * list byte))
    (st : state) : option state :=
  match items with
  | [] => Some st
  | (s, bs) :: rest =>
      if bool_decide (read_bytes s (Z.of_nat (length bs)) st = Some (cells_of bs)) then
        match sb_buffer_add_lstring fuel b s (Z.of_nat (length bs)) st with
        | Ret (1, st1) => append_all fuel b rest st1
        | _ => None
        end
      else None
  end.

(** The concatenation of the appended strings, and the sum of their lengths. *)
Definition all_bytes (items : list (ptr * list byte)) : list byte :=
  concat (map snd items).
Definition total_length (items : list (ptr * list byte)) : Z :=
  fold_right (fun it acc => Z.of_nat (length (snd it)) + acc) 0 items.

(** The public operations on the buffer at an address. *)
Inductive operation : Type :=
| Construct
| Append (s : ptr) (n : Z)
| Clear
| Reset
| Finalize
| CopyFrom (src : addr).

(** The call of an operation on the buffer at [a]. *)
Definition run_operation (fuel : nat) (o : operation) (a : addr) : M Z :=
  match o with
  | Construct => sb_buffer_init (Some a)
  | Append s n => sb_buffer_add_lstring fuel (Some a) s n
  | Clear => sb_buffer_clear (Some a)
  | Reset => sb_buffer_reset (Some a)
  | Finalize => sb_buffer_finalize (Some a)
  | CopyFrom src => sb_buffer_copy fuel (Some src) (Some a)
  end.

(** What an operation expects: construction an [SB_Buffer] object, the
    others a valid buffer, copy two valid buffers that share no storage. *)
Definition ready (o : operation) (a : addr) (st : state) : Prop :=
  match o with
  | Construct => is_object st a
  | CopyFrom src => valid st src /\ valid st a /\ (src <> a -> separate st src a)
  | _ => valid st a
  end.

(** [st'] is reached from [st] by appends to the buffer at [a], any number
    of them, each with any source, length and result. *)
Inductive appends_on (a : addr) : state -> state -> Prop :=
| appends_done st : appends_on a st st
| appends_step fuel s n r st st1 st2 :
    sb_buffer_add_lstring fuel (Some a) s n st = Ret (r, st1) ->
    appends_on a st1 st2 ->
    appends_on a st st2.

(** The state a computation ends in ([st] itself if it does not return). *)
Definition state_after {A} (m : M A) (st : state) : state :=
  match m st with
  | Ret (_, st') => st'
  | _ => st
  end.

(** ** The switch to the heap at [inline capacity - 1] *)

(** The specification's reading of the switch: a successful append that
    takes the length of an inline-backed buffer from below 255 to 255 or
    more makes it heap-backed. *)
Definition switches_at_capacity_minus_one : Prop :=
  forall fuel st a B cs s n st',
    buffer_ok st a B cs -> str B = InitOf a ->
    len B < SB_BUFFER_INITIAL_CAP - 1 ->
    SB_BUFFER_INITIAL_CAP - 1 <= len B + n ->
    sb_buffer_add_lstring fuel (Some a) s n st = Ret (1, st') ->
    heap_backed st' a.

(** ** Example states *)

Definition hello : list byte := String.list_byte_of_string "Hello".
Definition world : list byte := String.list_byte_of_string " World".
Definition long_text : list byte := replicate 300 "x"%byte.

(** An uninitialised [SB_Buffer] object. *)
Definition demo_raw : SB_Buffer := mkBuffer 0 (replicate 256 None) NULL 0 0.

(** Two uninitialised buffers at addresses 1 and 2, and three strings of the
    caller in the blocks 7, 8 and 9. *)
Definition demo : state :=
  mkState
    (<[1%positive := demo_raw]> (<[2%positive := demo_raw]> ∅))
    (<[7%positive := cells_of hello]>
       (<[8%positive := cells_of world]> (<[9%positive := cells_of long_text]> ∅)))
    [].

(** [demo] with the buffer at 1 initialised. *)
Definition demo_fresh : state := state_after (sb_buffer_init (Some 1%positive)) demo.

(** Four appends: "Hello", " World" and twice the 300 bytes; the third
    moves the buffer to the heap and the fourth makes it grow there. *)
Definition demo_items : list (ptr * list byte) :=
  [(Heap 7%positive, hello); (Heap 8%positive, world);
   (Heap 9%positive, long_text); (Heap 9%positive, long_text)].

(** [demo_fresh] after these appends: 611 bytes in a heap block of 1024. *)
Definition demo_filled : state :=
  default demo_fresh (append_all 64 (Some 1%positive) demo_items demo_fresh).

(** [demo_fresh] with an allocator that refuses the next request. *)
Definition demo_stingy : state :=
  mkState (bufs demo_fresh) (heap demo_fresh) [false].

(** [demo_fresh] after 256 bytes were appended to the buffer at 1. *)
Definition demo_256 : state :=
  state_after (sb_buffer_add_lstring 64 (Some 1%positive) (Heap 9%positive) 256) demo_fresh.

(** [demo_filled] with the buffer at 2 initialised and holding " World". *)
Definition demo_pair : state :=
  state_after (sb_buffer_init (Some 2%positive) ;;
               sb_buffer_add_lstring 64 (Some 2%positive) (Heap 8%positive) 6)
    demo_filled.

(** [demo_pair] after the buffer at 1 was copied to the buffer at 2. *)
Definition demo_copied : state :=
  state_after (sb_buffer_copy 64 (Some 1%positive) (Some 2%positive)) demo_pair.

(** ** More example states *)

(** [demo_pair] with an allocator that refuses the next request. *)
Definition demo_pair_stingy : state :=
  mkState (bufs demo_pair) (heap demo_pair) [false].

(** ** The shape of the capacity *)

(** The capacity is a power of two, at least the inline capacity 2^8 and
    within [size_t]. *)
Definition capacity_shape (B : SB_Buffer) : Prop :=
  exists k : nat, (8 <= k)%nat /\ Z.of_nat k < SIZE_BITS /\ cap B = 2 ^ Z.of_nat k.

(** ** The macros of [sb_buffer.h] *)

(** The offset of the first terminator in an array: [None] when the end of
    the array or a byte that was never written comes first. *)
Fixpoint first_nul (cs : list cell) : option Z :=
  match cs with
  | [] => None
  | None :: _ => None
  | Some c :: rest =>
      if bool_decide (c = NUL) then Some 0 else Z.succ <$> first_nul rest
  end.

(** [strlen(s)] of the C library: [s] must point to a live array that holds
    a terminated string. *)
Definition strlen (s : ptr) : M Z :=
  fun st =>
    match object s st with
    | Some cs =>
        match first_nul cs with
        | Some n => Ret (n, st)
        | None => Undefined
        end
    | None => Undefined
    end.

(** [#define sb_buffer_add_string(b, s) sb_buffer_add_lstring(b, s, strlen(s))];
    the arguments of a call are evaluated before the function is entered. *)
Definition sb_buffer_add_string (fuel : nat) (b : buf_ptr) (s : ptr) : M Z :=
  n <- strlen s ;;
  sb_buffer_add_lstring fuel b s n.

(** The array that a string literal with the characters [literal] names:
    the characters and a terminator. *)
Definition literal_array (literal : list byte) : list cell :=
  cells_of literal ++ [Some NUL].

(** [#define sb_buffer_add_literal(b, literal)
       sb_buffer_add_lstring(b, literal, (sizeof(literal)-1))],
    with [s] the address of the literal's array. *)
Definition sb_buffer_add_literal (fuel : nat) (b : buf_ptr) (s : ptr)
    (literal : list byte) : M Z :=
  sb_buffer_add_lstring fuel b s (wrap (size_of (literal_array literal) - 1)).

(** [#define SB_INIT(b) b; sb_buffer_init((&b))], used as
    [SB_Buffer SB_INIT(b);]: the declaration of the object at [a] followed
    by the call, whose result is dropped. *)
Definition SB_INIT (a : addr) : M unit :=
  sb_buffer_init (Some a) ;; ret tt.

(** The bytes of a string up to its first zero byte: what C takes the
    string to be. *)
Fixpoint until_nul (bs : list byte) : list byte :=
  match bs with
  | [] => []
  | c :: rest => if bool_decide (c = NUL) then [] else c :: until_nul rest
  end.

(** [demo_filled] with two string literals of the caller: one with a zero
    byte in it, and [" World"]. *)
Definition nul_inside : list byte :=
  String.list_byte_of_string "ab" ++ [NUL] ++ String.list_byte_of_string "cd".
Definition demo_strings : state :=
  mkState (bufs demo_filled)
    (<[20%positive := literal_array nul_inside]>
       (<[21%positive := literal_array world]> (heap demo_filled)))
    [].

(** ** The sample program [samples/test.c] *)

(** The string at the start of an array, up to its terminator: what
    [printf] prints for [%s]. *)
Fixpoint string_at (cs : list cell) : option (list byte) :=
  match cs with
  | [] => None
  | None :: _ => None
  | Some c :: rest =>
      if bool_decide (c = NUL) then Some [] else (c ::.) <$> string_at rest
  end.

(** The argument of a [printf] call with [%s]: the pointer must point to a
    terminated string. *)
Definition read_string (p : ptr) : M (list byte) :=
  fun st =>
    match object p st with
    | Some cs =>
        match string_at cs with
        | Some bs => Ret (bs, st)
        | None => Undefined
        end
    | None => Undefined
    end.

(** What the program has printed on [stdout]: the arguments of its
    [printf] calls, a string for [%s] and a number for [%zu]. *)
Inductive printed : Type :=
| PrintedString (bs : list byte)
| PrintedSize (n : Z).

Definition using_sb : list byte := String.list_byte_of_string " using SB_Buffer!".
Definition greeting : list byte := String.list_byte_of_string "Hello World using SB_Buffer!".

(** [int main(int argc, char **argv)] of [samples/test.c]: the locals [b]
    and [dest] are the [SB_Buffer] objects at the addresses [b] and [dest];
    the three string literals lie at [lit1], [lit2] and [lit3].  It yields
    the exit code and what was printed on [stdout]. *)
Definition main (fuel : nat) (b dest : addr) (lit1 lit2 lit3 : ptr)
    : M (Z * list printed) :=
  r <- sb_buffer_init (Some b) ;;
  if r =? 0 then ret (1, []) else
  r <- sb_buffer_add_lstring fuel (Some b) lit1 5 ;;
  if r =? 0 then ret (1, []) else
  r <- sb_buffer_add_literal fuel (Some b) lit2 world ;;
  if r =? 0 then ret (1, []) else
  r <- sb_buffer_add_string fuel (Some b) lit3 ;;
  if r =? 0 then ret (1, []) else
  bstr <- get_str b ;;
  out1 <- read_string bstr ;;
  blen <- get_len b ;;
  SB_INIT dest ;;
  r <- sb_buffer_copy fuel (Some b) (Some dest) ;;
  if r =? 0 then ret (1, [PrintedString out1; PrintedSize blen]) else
  dstr <- get_str dest ;;
  out2 <- read_string dstr ;;
  dlen <- get_len dest ;;
  sb_buffer_finalize (Some b) ;;
  sb_buffer_finalize (Some dest) ;;
  ret (0, [PrintedString out1; PrintedSize blen; PrintedString out2; PrintedSize dlen]).

(** The buffer at [a] is valid and inline-backed, and its content is [bs]. *)
Definition inline_with (st : state) (a : addr) (bs : list byte) : Prop :=
  exists B cs,
    buffer_ok st a B cs /\ str B = InitOf a /\ cap B = SB_BUFFER_INITIAL_CAP
    /\ len B = Z.of_nat (length bs) /\ take (length bs) cs = cells_of bs.

(** [demo] with the three literals of the sample program in the blocks 30,
    31 and 32, and an allocator that refuses the next four requests. *)
Definition demo_sample : state :=
  mkState (bufs demo)
    (<[30%positive := literal_array hello]>
       (<[31%positive := literal_array world]>
          (<[32%positive := literal_array using_sb]> (heap demo))))
    [false; false; false; false].

(** ** Lists as arrays *)

Section Arrays.
Implicit Types (cs new : list cell) (off n : Z).

Lemma size_of_nonneg cs : 0 <= size_of cs.
Proof. unfold size_of. lia. Qed.

Lemma size_of_replicate (k : nat) (c : cell) : size_of (replicate k c) = Z.of_nat k.
Proof. unfold size_of. now rewrite length_replicate. Qed.

Lemma size_of_slice off n cs :
  0 <= off -> 0 <= n -> off + n <= size_of cs -> size_of (slice off n cs) = n.
Proof.
  unfold size_of, slice. intros. rewrite length_take, length_drop. lia.
Qed.

Lemma slice_0 n cs : slice 0 n cs = take (Z.to_nat n) cs.
Proof. unfold slice. now rewrite Z2Nat.inj_0, drop_0. Qed.

Lemma size_of_splice off new cs :
  0 <= off -> off + size_of new <= size_of cs ->
  size_of (splice off new cs) = size_of cs.
Proof.
  unfold size_of, splice. intros.
  rewrite !length_app, length_take, length_drop. lia.
Qed.

(** Cells before the spliced region keep their value. *)
Lemma take_splice_before (k : nat) off new cs :
  0 <= off <= size_of cs -> (k <= Z.to_nat off)%nat ->
  take k (splice off new cs) = take k cs.
Proof.
  unfold size_of, splice. intros.
  rewrite take_app_le by (rewrite length_take; lia).
  rewrite take_take. f_equal. lia.
Qed.

(** The cells up to the end of the spliced region. *)
Lemma take_splice_through off new cs :
  0 <= off <= size_of cs ->
  take (Z.to_nat off + length new) (splice off new cs)
  = take (Z.to_nat off) cs ++ new.
Proof.
  unfold size_of, splice. intros.
  rewrite app_assoc.
  rewrite take_app_le by (rewrite length_app, length_take; lia).
  rewrite take_ge by (rewrite length_app, length_take; lia).
  reflexivity.
Qed.

Lemma lookup_splice_at off (c : cell) cs :
  0 <= off < size_of cs ->
  splice off [c] cs !! Z.to_nat off = Some c.
Proof.
  unfold size_of, splice. intros.
  rewrite lookup_app_r by (rewrite length_take; lia).
  rewrite length_take.
  replace (Z.to_nat off - Z.to_nat off `min` length cs)%nat with 0%nat by lia.
  reflexivity.
Qed.
End Arrays.

(** ** Running the computations *)

Lemma bind_Ret {A B} (m : M A) (k : A -> M B) st x st1 :
  m st = Ret (x, st1) -> bind m k st = k x st1.
Proof. unfold bind. now intros ->. Qed.

Lemma bind_assoc {A B C} (m : M A) (k1 : A -> M B) (k2 : B -> M C) st :
  bind (bind m k1) k2 st = bind m (fun x => bind (k1 x) k2) st.
Proof. unfold bind. now destruct (m st) as [[x st1]| |]. Qed.

Lemma add_lstring_unfold fuel a s len :
  sb_buffer_add_lstring fuel (Some a) s len =
  (m <- get_magic a ;;
   if bool_decide (m ≠ SB_BUFFER_MAGIC) then ret 0
   else
     bcap <- get_cap a ;;
     blen <- get_len a ;;
     go_on <- (if len >=? wrap (bcap - blen)
               then grow_storage fuel a len else ret true) ;;
     if go_on : bool then write_tail a s len else ret 0).
Proof. reflexivity. Qed.

Section Primitives.
Context (st : state) (a : addr) (B : SB_Buffer).
Hypothesis HB : bufs st !! a = Some B.

Lemma load_buf_eq : load_buf a st = Ret (B, st).
Proof. unfold load_buf. now rewrite HB. Qed.

Lemma get_magic_eq : get_magic a st = Ret (magic B, st).
Proof. unfold get_magic. now rewrite (bind_Ret _ _ _ _ _ load_buf_eq). Qed.

Lemma get_str_eq : get_str a st = Ret (str B, st).
Proof. unfold get_str. now rewrite (bind_Ret _ _ _ _ _ load_buf_eq). Qed.

Lemma get_len_eq : get_len a st = Ret (len B, st).
Proof. unfold get_len. now rewrite (bind_Ret _ _ _ _ _ load_buf_eq). Qed.

Lemma get_cap_eq : get_cap a st = Ret (cap B, st).
Proof. unfold get_cap. now rewrite (bind_Ret _ _ _ _ _ load_buf_eq). Qed.

Lemma set_magic_eq v :
  set_magic a v st =
  Ret (tt, mkState (<[a := mkBuffer v (init B) (str B) (len B) (cap B)]> (bufs st))
                   (heap st) (oracle st)).
Proof. unfold set_magic. now rewrite (bind_Ret _ _ _ _ _ load_buf_eq). Qed.

Lemma set_init_eq v :
  set_init a v st =
  Ret (tt, mkState (<[a := mkBuffer (magic B) v (str B) (len B) (cap B)]> (bufs st))
                   (heap st) (oracle st)).
Proof. unfold set_init. now rewrite (bind_Ret _ _ _ _ _ load_buf_eq). Qed.

Lemma set_str_eq v :
  set_str a v st =
  Ret (tt, mkState (<[a := mkBuffer (magic B) (init B) v (len B) (cap B)]> (bufs st))
                   (heap st) (oracle st)).
Proof. unfold set_str. now rewrite (bind_Ret _ _ _ _ _ load_buf_eq). Qed.

Lemma set_len_eq v :
  set_len a v st =
  Ret (tt, mkState (<[a := mkBuffer (magic B) (init B) (str B) v (cap B)]> (bufs st))
                   (heap st) (oracle st)).
Proof. unfold set_len. now rewrite (bind_Ret _ _ _ _ _ load_buf_eq). Qed.

Lemma set_cap_eq v :
  set_cap a v st =
  Ret (tt, mkState (<[a := mkBuffer (magic B) (init B) (str B) (len B) v]> (bufs st))
                   (heap st) (oracle st)).
Proof. unfold set_cap. now rewrite (bind_Ret _ _ _ _ _ load_buf_eq). Qed.
End Primitives.

Lemma load_buf_none st a : bufs st !! a = None -> load_buf a st = Undefined.
Proof. unfold load_buf. now intros ->. Qed.

Lemma store_byte_eq st p off v cs :
  object p st = Some cs ->
  store_byte p off v st =
  if (0 <=? off) && (off <? size_of cs)
  then put_object p (splice off [Some v] cs) st else Undefined.
Proof. unfold store_byte. now intros ->. Qed.

Lemma memcpy_eq st dst off src n dcs scs :
  object dst st = Some dcs -> object src st = Some scs ->
  memcpy dst off src n st =
  if (0 <=? off) && (0 <=? n) && (off + n <=? size_of dcs) && (n <=? size_of scs)
     && negb (bool_decide (dst = src) && (0 <? n) && (off <? n))
  then put_object dst (splice off (slice 0 n scs) dcs) st else Undefined.
Proof. unfold memcpy. now intros -> ->. Qed.

Lemma memcpy_no_source st dst off src n :
  object src st = None -> memcpy dst off src n st = Undefined.
Proof. unfold memcpy. intros ->. now destruct (object dst st). Qed.

(** Solve a lookup in a state that was built by updates. *)
Ltac solve_lookup :=
  simpl;
  first [ eassumption
        | apply lookup_insert_eq
        | rewrite lookup_insert_ne by congruence; solve_lookup
        | rewrite lookup_delete_ne by congruence; solve_lookup ].

(** Run the next field access of a computation. *)
Ltac exec :=
  rewrite ?bind_assoc;
  first
    [ erewrite (bind_Ret (get_magic _)) by (apply get_magic_eq; solve_lookup)
    | erewrite (bind_Ret (get_str _)) by (apply get_str_eq; solve_lookup)
    | erewrite (bind_Ret (get_len _)) by (apply get_len_eq; solve_lookup)
    | erewrite (bind_Ret (get_cap _)) by (apply get_cap_eq; solve_lookup)
    | erewrite (bind_Ret (set_magic _ _)) by (apply set_magic_eq; solve_lookup)
    | erewrite (bind_Ret (set_init _ _)) by (apply set_init_eq; solve_lookup)
    | erewrite (bind_Ret (set_str _ _)) by (apply set_str_eq; solve_lookup)
    | erewrite (bind_Ret (set_len _ _)) by (apply set_len_eq; solve_lookup)
    | erewrite (bind_Ret (set_cap _ _)) by (apply set_cap_eq; solve_lookup)
    | erewrite (bind_Ret (ret _)) by reflexivity
    | erewrite (bind_Ret (put_heap _ _)) by reflexivity
    | erewrite (bind_Ret (drop_heap _)) by reflexivity
    | erewrite (bind_Ret fresh_block) by reflexivity ];
  cbv beta iota; simpl bufs; simpl heap; simpl oracle; simpl magic; simpl init;
  simpl str; simpl len; simpl cap.

Lemma wrap_small z : 0 <= z < SIZE_MOD -> wrap z = z.
Proof. unfold wrap. apply Z.mod_small. Qed.

Lemma wrap_range z : 0 <= wrap z < SIZE_MOD.
Proof. unfold wrap. apply Z.mod_pos_bound. reflexivity. Qed.

(** The tail's two checks (in [memcpy] and in the store of the terminator)
    amount to [tail_ok]. *)
Lemma tail_ok_checks blen n same scs cs :
  0 <= blen -> size_of cs < SIZE_MOD ->
  tail_ok blen n same scs cs = true <->
  ((0 <=? blen) && (0 <=? n) && (blen + n <=? size_of cs) && (n <=? size_of scs)
   && negb (same && (0 <? n) && (blen <? n)) = true
   /\ (0 <=? wrap (blen + n)) && (wrap (blen + n) <? size_of cs) = true).
Proof.
  intros Hb Hsz. unfold tail_ok.
  rewrite !andb_true_iff, !Z.leb_le, !Z.ltb_lt.
  split.
  - intros [[[H1 H2] H3] H4]. rewrite wrap_small by lia. intuition lia.
  - intros [[[[[_ H1] H2] H3] H4] [_ H5]].
    rewrite wrap_small in H5 by lia. intuition lia.
Qed.

Lemma write_tail_heap st a B h cs s n :
  bufs st !! a = Some B -> str B = Heap h -> heap st !! h = Some cs ->
  0 <= len B -> size_of cs < SIZE_MOD ->
  write_tail a s n st =
  match object s st with
  | Some scs =>
      if tail_ok (len B) n (bool_decide (Heap h = s)) scs cs
      then Ret (1, mkState
                     (<[a := mkBuffer (magic B) (init B) (Heap h) (len B + n) (cap B)]> (bufs st))
                     (<[h := appended (len B) n scs cs]> (heap st))
                     (oracle st))
      else Undefined
  | None => Undefined
  end.
Proof.
  intros HB Hstr Hh Hlen Hsz. unfold write_tail.
  do 2 exec. rewrite Hstr.
  destruct (object s st) as [scs|] eqn:Hs.
  2:{ unfold bind. now rewrite memcpy_no_source. }
  pose proof (tail_ok_checks (len B) n (bool_decide (Heap h = s)) scs cs Hlen Hsz) as Hok.
  unfold bind at 1. rewrite (memcpy_eq st (Heap h) (len B) s n cs scs Hh Hs).
  destruct (_ && negb _) eqn:Hc1.
  2:{ destruct (tail_ok _ _ _ _ _); [|reflexivity].
      destruct Hok as [Hok _]. destruct (Hok eq_refl). discriminate. }
  simpl put_object. unfold put_heap. do 3 exec. rewrite Hstr.
  pose proof Hc1 as Hc. rewrite !andb_true_iff, !Z.leb_le in Hc.
  destruct Hc as [[[[_ Hn] Hfit] Hsrc] _].
  assert (Hsp : size_of (splice (len B) (slice 0 n scs) cs) = size_of cs).
  { apply size_of_splice; [lia|]. rewrite size_of_slice; lia. }
  unfold bind.
  erewrite store_byte_eq by (simpl; apply lookup_insert_eq).
  rewrite Hsp.
  destruct (tail_ok _ _ _ _ _).
  - destruct Hok as [Hok _]. destruct (Hok eq_refl) as [_ ->].
    simpl. unfold put_heap, ret. simpl.
    rewrite insert_insert_eq. unfold appended.
    rewrite wrap_small by lia. reflexivity.
  - destruct ((0 <=? wrap _) && _) eqn:Hc2; [|reflexivity].
    destruct Hok as [_ Hok]. now discriminate Hok.
Qed.

Lemma object_init st a B : bufs st !! a = Some B -> object (InitOf a) st = Some (init B).
Proof. simpl. now intros ->. Qed.

Lemma write_tail_inline st a B s n :
  bufs st !! a = Some B -> str B = InitOf a ->
  0 <= len B -> size_of (init B) < SIZE_MOD ->
  write_tail a s n st =
  match object s st with
  | Some scs =>
      if tail_ok (len B) n (bool_decide (InitOf a = s)) scs (init B)
      then Ret (1, mkState
                     (<[a := mkBuffer (magic B) (appended (len B) n scs (init B))
                                      (InitOf a) (len B + n) (cap B)]> (bufs st))
                     (heap st) (oracle st))
      else Undefined
  | None => Undefined
  end.
Proof.
  intros HB Hstr Hlen Hsz. unfold write_tail.
  do 2 exec. rewrite Hstr.
  destruct (object s st) as [scs|] eqn:Hs.
  2:{ unfold bind. now rewrite memcpy_no_source. }
  pose proof (tail_ok_checks (len B) n (bool_decide (InitOf a = s)) scs (init B) Hlen Hsz)
    as Hok.
  unfold bind at 1.
  rewrite (memcpy_eq st (InitOf a) (len B) s n (init B) scs (object_init _ _ _ HB) Hs).
  destruct (_ && negb _) eqn:Hc1.
  2:{ destruct (tail_ok _ _ _ _ _); [|reflexivity].
      destruct Hok as [Hok _]. destruct (Hok eq_refl). discriminate. }
  simpl put_object. rewrite (set_init_eq _ _ _ HB). do 3 exec. rewrite Hstr.
  pose proof Hc1 as Hc. rewrite !andb_true_iff, !Z.leb_le in Hc.
  destruct Hc as [[[[_ Hn] Hfit] Hsrc] _].
  assert (Hsp : size_of (splice (len B) (slice 0 n scs) (init B)) = size_of (init B)).
  { apply size_of_splice; [lia|]. rewrite size_of_slice; lia. }
  unfold bind.
  erewrite store_byte_eq by (apply object_init; solve_lookup).
  simpl init. rewrite Hsp.
  destruct (tail_ok _ _ _ _ _).
  - destruct Hok as [Hok _]. destruct (Hok eq_refl) as [_ ->].
    simpl put_object. erewrite set_init_eq by solve_lookup.
    unfold ret. simpl.
    rewrite !insert_insert_eq. unfold appended.
    rewrite wrap_small by lia. reflexivity.
  - destruct ((0 <=? wrap _) && _) eqn:Hc2; [|reflexivity].
    destruct Hok as [_ Hok]. now discriminate Hok.
Qed.

(** ** The doubling loop *)

Lemma doubling_exit fuel c blen n nova :
  doubling fuel c blen n = Some nova ->
  wrap (wrap (blen + n) + 1) < nova.
Proof.
  revert c. induction fuel as [|fuel IH]; intros c; simpl;
    destruct (Z.leb_spec c (wrap (wrap (blen + n) + 1))); try discriminate;
    try (intros [= <-]; lia).
  apply IH.
Qed.

(** The loop never ends below the capacity it started from. *)
Lemma doubling_ge fuel c blen n nova :
  doubling fuel c blen n = Some nova -> c <= nova.
Proof.
  intros H. pose proof (doubling_exit _ _ _ _ _ H) as Hex.
  destruct fuel; simpl in H;
    destruct (Z.leb_spec c (wrap (wrap (blen + n) + 1))); try discriminate;
    try (injection H as <-; lia); lia.
Qed.

Lemma doubling_range fuel c blen n nova :
  0 <= c < SIZE_MOD ->
  doubling fuel c blen n = Some nova -> 0 <= nova < SIZE_MOD.
Proof.
  revert c. induction fuel as [|fuel IH]; intros c Hc; simpl;
    destruct (Z.leb_spec c (wrap (wrap (blen + n) + 1))); try discriminate;
    try (intros [= <-]; lia).
  apply IH. apply wrap_range.
Qed.

(** More fuel does not change the result of a loop that ended. *)
Lemma doubling_more fuel fuel' c blen n nova :
  (fuel <= fuel')%nat ->
  doubling fuel c blen n = Some nova ->
  doubling fuel' c blen n = Some nova.
Proof.
  revert fuel' c. induction fuel as [|fuel IH]; intros fuel' c Hle; simpl.
  - destruct fuel'; simpl;
      destruct (Z.leb_spec c (wrap (wrap (blen + n) + 1))); try discriminate; auto.
  - destruct fuel' as [|fuel']; [lia|]. simpl.
    destruct (Z.leb_spec c (wrap (wrap (blen + n) + 1))); auto.
    apply IH. lia.
Qed.

(** When the required size is below half the range of [size_t], the loop
    ends: [k] iterations are enough as soon as [c * 2^k] exceeds it. *)
Lemma doubling_ends (k : nat) c blen n :
  0 < c ->
  wrap (wrap (blen + n) + 1) < 2 ^ (SIZE_BITS - 1) ->
  wrap (wrap (blen + n) + 1) < c * 2 ^ Z.of_nat k ->
  exists nova, doubling k c blen n = Some nova.
Proof.
  intros Hc Hhalf. revert c Hc. induction k as [|k IH]; intros c Hc Hk; simpl.
  - destruct (Z.leb_spec c (wrap (wrap (blen + n) + 1))); [|eauto].
    simpl in Hk. lia.
  - destruct (Z.leb_spec c (wrap (wrap (blen + n) + 1))); [|eauto].
    assert (Hw : wrap (c * 2) = c * 2).
    { apply wrap_small. unfold SIZE_MOD, SIZE_BITS in *.
      change (2 ^ (64 - 1)) with 9223372036854775808 in Hhalf.
      change (2 ^ 64) with 18446744073709551616. lia. }
    rewrite Hw. apply IH; [lia|].
    rewrite Nat2Z.inj_succ, Z.pow_succ_r in Hk by lia. lia.
Qed.

Lemma doubling_64 (fuel : nat) c blen n :
  0 < c ->
  wrap (wrap (blen + n) + 1) < 2 ^ (SIZE_BITS - 1) ->
  (64 <= fuel)%nat ->
  exists nova, doubling fuel c blen n = Some nova.
Proof.
  intros Hc Hhalf Hfuel.
  destruct (doubling_ends 64 c blen n Hc Hhalf) as [nova Hn].
  - change (2 ^ Z.of_nat 64) with 18446744073709551616.
    change (2 ^ (SIZE_BITS - 1)) with 9223372036854775808 in Hhalf. lia.
  - exists nova. eapply doubling_more; eauto.
Qed.

(** Once [nova_cap] is a power of two and the required size is at least
    half the range of [size_t], doubling never gets past it: the powers of
    two up to [2^63] are not above it, and the next doubling wraps to 0. *)
Lemma doubling_diverges fuel (j : nat) blen n :
  2 ^ (SIZE_BITS - 1) <= wrap (wrap (blen + n) + 1) ->
  doubling fuel (wrap (2 ^ Z.of_nat j)) blen n = None.
Proof.
  intros Hbig. revert j. induction fuel as [|fuel IH]; intros j; simpl.
  all: assert (Hle : wrap (2 ^ Z.of_nat j) <= wrap (wrap (blen + n) + 1)).
  all: try (destruct (Z.lt_ge_cases (Z.of_nat j) SIZE_BITS) as [Hj|Hj];
    [ rewrite wrap_small
        by (unfold SIZE_MOD; split; [apply Z.pow_nonneg; lia
                                    |apply Z.pow_lt_mono_r; unfold SIZE_BITS in *; lia]);
      etransitivity; [apply (Z.pow_le_mono_r 2 _ (SIZE_BITS - 1)); lia | exact Hbig]
    | unfold wrap, SIZE_MOD;
      replace (Z.of_nat j) with (SIZE_BITS + (Z.of_nat j - SIZE_BITS)) by lia;
      rewrite Z.pow_add_r, Z.mul_comm, Z.mod_mul
        by (unfold SIZE_BITS in *; try apply Z.pow_nonzero; lia);
      etransitivity; [|exact Hbig]; apply Z.pow_nonneg; lia ]).
  - destruct (Z.leb_spec (wrap (2 ^ Z.of_nat j)) (wrap (wrap (blen + n) + 1))); [reflexivity|lia].
  - destruct (Z.leb_spec (wrap (2 ^ Z.of_nat j)) (wrap (wrap (blen + n) + 1))); [|lia].
    replace (wrap (wrap (2 ^ Z.of_nat j) * 2)) with (wrap (2 ^ Z.of_nat (S j))); [apply IH|].
    unfold wrap. rewrite Z.mul_mod_idemp_l by (unfold SIZE_MOD, SIZE_BITS; lia).
    rewrite Nat2Z.inj_succ, Z.pow_succ_r by lia. f_equal. lia.
Qed.

(** The loop of the code reads [b->len] at every test; as nothing writes
    it meanwhile, the loop computes [doubling]. *)
Lemma double_until_eq fuel st a B c n :
  bufs st !! a = Some B ->
  double_until fuel a c n st =
  match doubling fuel c (len B) n with
  | Some nova => Ret (nova, st)
  | None => OutOfFuel
  end.
Proof.
  intros HB. revert c. induction fuel as [|fuel IH]; intros c; simpl.
  - exec. destruct (c <=? wrap (wrap (len B + n) + 1)); reflexivity.
  - exec. destruct (c <=? wrap (wrap (len B + n) + 1)); [apply IH|reflexivity].
Qed.

(** ** The growth branch *)

Lemma alloc_ok_eq st :
  alloc_ok st = Ret (hd true (oracle st), mkState (bufs st) (heap st) (tl (oracle st))).
Proof. destruct st as [bm hm [|d ds]]; reflexivity. Qed.

Lemma malloc_eq st n :
  malloc n st =
  if hd true (oracle st) then
    Ret (Heap (fresh (dom (heap st))),
         mkState (bufs st)
                 (<[fresh (dom (heap st)) := replicate (Z.to_nat n) None]> (heap st))
                 (tl (oracle st)))
  else Ret (NULL, mkState (bufs st) (heap st) (tl (oracle st))).
Proof.
  unfold malloc. unfold bind at 1. rewrite alloc_ok_eq.
  destruct (hd true (oracle st)); reflexivity.
Qed.

Lemma realloc_eq st h cs n :
  heap st !! h = Some cs ->
  realloc (Heap h) n st =
  if hd true (oracle st) then
    Ret (Heap (fresh (dom (heap st))),
         mkState (bufs st)
                 (<[fresh (dom (heap st)) := resize n cs]> (delete h (heap st)))
                 (tl (oracle st)))
  else Ret (NULL, mkState (bufs st) (heap st) (tl (oracle st))).
Proof.
  intros Hh. unfold realloc. rewrite Hh. unfold bind at 1. rewrite alloc_ok_eq.
  destruct (hd true (oracle st)); reflexivity.
Qed.

Lemma grow_storage_inline fuel st a B n :
  bufs st !! a = Some B -> str B = InitOf a ->
  0 <= len B < cap B -> len B <= size_of (init B) ->
  grow_storage fuel a n st =
  match doubling fuel (cap B) (len B) n with
  | None => OutOfFuel
  | Some nova =>
      if hd true (oracle st) then
        Ret (true, mkState
                     (<[a := mkBuffer (magic B) (init B) (Heap (fresh (dom (heap st))))
                                      (len B) nova]> (bufs st))
                     (<[fresh (dom (heap st)) := migrated (len B) nova (init B)]> (heap st))
                     (tl (oracle st)))
      else Ret (false, mkState (bufs st) (heap st) (tl (oracle st)))
  end.
Proof.
  intros HB Hstr Hlen Hinit. unfold grow_storage. exec.
  unfold bind at 1. rewrite (double_until_eq fuel st a B (cap B) n HB).
  destruct (doubling fuel (cap B) (len B) n) as [nova|] eqn:Hloop; [|reflexivity].
  pose proof (doubling_ge _ _ _ _ _ Hloop) as Hge.
  exec. rewrite Hstr.
  rewrite bool_decide_eq_false_2 by (intros Hne; now apply Hne).
  rewrite ?bind_assoc. unfold bind at 1. rewrite malloc_eq.
  destruct (hd true (oracle st)).
  - simpl bool_decide. cbv iota. exec. rewrite ?bind_assoc.
    unfold bind at 1.
    erewrite memcpy_eq; [| simpl; apply lookup_insert_eq | apply object_init; solve_lookup ].
    rewrite size_of_replicate.
    replace ((0 <=? 0) && (0 <=? len B) && (0 + len B <=? Z.of_nat (Z.to_nat nova))
             && (len B <=? size_of (init B))
             && negb (bool_decide (Heap (fresh (dom (heap st))) = InitOf a)
                      && (0 <? len B) && (0 <? len B))) with true.
    2:{ symmetry. rewrite !andb_true_iff, !Z.leb_le. simpl bool_decide. simpl.
        repeat split; lia. }
    simpl put_object. unfold put_heap. do 3 exec.
    unfold ret. simpl. rewrite !insert_insert_eq. reflexivity.
  - simpl bool_decide. cbv iota. exec. reflexivity.
Qed.

Lemma grow_storage_heap fuel st a B h cs n :
  bufs st !! a = Some B -> str B = Heap h -> heap st !! h = Some cs ->
  grow_storage fuel a n st =
  match doubling fuel (cap B) (len B) n with
  | None => OutOfFuel
  | Some nova =>
      if hd true (oracle st) then
        Ret (true, mkState
                     (<[a := mkBuffer (magic B) (init B) (Heap (fresh (dom (heap st))))
                                      (len B) nova]> (bufs st))
                     (<[fresh (dom (heap st)) := resize nova cs]> (delete h (heap st)))
                     (tl (oracle st)))
      else Ret (false, mkState (bufs st) (heap st) (tl (oracle st)))
  end.
Proof.
  intros HB Hstr Hh. unfold grow_storage. exec.
  unfold bind at 1. rewrite (double_until_eq fuel st a B (cap B) n HB).
  destruct (doubling fuel (cap B) (len B) n) as [nova|] eqn:Hloop; [|reflexivity].
  exec. rewrite Hstr.
  rewrite bool_decide_eq_true_2 by discriminate. exec. rewrite Hstr.
  rewrite ?bind_assoc. unfold bind at 1. rewrite (realloc_eq _ _ _ _ Hh).
  destruct (hd true (oracle st)).
  - simpl bool_decide. cbv iota. do 3 exec.
    unfold ret. simpl. rewrite !insert_insert_eq. reflexivity.
  - simpl bool_decide. cbv iota. exec. reflexivity.
Qed.

(** ** The storage after an append *)

Lemma fresh_block_free (hm : gmap block (list cell)) : hm !! fresh (dom hm) = None.
Proof. apply not_elem_of_dom. apply is_fresh. Qed.

Section Blocks.
Implicit Types (cs scs : list cell) (blen nova n : Z).

Lemma size_of_resize nova cs : 0 <= nova -> size_of (resize nova cs) = nova.
Proof.
  intros. unfold size_of, resize.
  rewrite length_app, length_take, length_replicate. lia.
Qed.

Lemma take_resize (k : nat) nova cs :
  Z.of_nat k <= nova -> (k <= length cs)%nat ->
  take k (resize nova cs) = take k cs.
Proof.
  intros. unfold resize.
  rewrite take_app_le by (rewrite length_take; lia).
  rewrite take_take. f_equal. lia.
Qed.

Lemma size_of_migrated blen nova cs :
  0 <= blen <= nova -> blen <= size_of cs ->
  size_of (migrated blen nova cs) = nova.
Proof.
  intros. unfold migrated.
  rewrite size_of_splice; rewrite ?size_of_replicate, ?size_of_slice; lia.
Qed.

Lemma take_migrated blen nova cs :
  0 <= blen <= nova -> blen <= size_of cs ->
  take (Z.to_nat blen) (migrated blen nova cs) = take (Z.to_nat blen) cs.
Proof.
  intros. unfold migrated, splice. rewrite slice_0. simpl.
  rewrite take_app_le by (unfold size_of in *; rewrite length_take; lia).
  rewrite take_take. f_equal. lia.
Qed.

Lemma size_of_appended blen n scs cs :
  0 <= blen -> 0 <= n -> n <= size_of scs -> blen + n < size_of cs ->
  size_of (appended blen n scs cs) = size_of cs.
Proof.
  intros. unfold appended.
  assert (Hs : size_of (splice blen (slice 0 n scs) cs) = size_of cs)
    by (apply size_of_splice; [lia | rewrite size_of_slice; lia]).
  rewrite size_of_splice;
    [exact Hs | lia | rewrite Hs; change (size_of [Some NUL]) with 1; lia].
Qed.

(** The old content is still there. *)
Lemma take_appended_old blen n scs cs :
  0 <= blen -> 0 <= n -> n <= size_of scs -> blen + n < size_of cs ->
  take (Z.to_nat blen) (appended blen n scs cs) = take (Z.to_nat blen) cs.
Proof.
  intros. unfold appended.
  rewrite take_splice_before;
    [| rewrite size_of_splice; rewrite ?size_of_slice; lia | lia ].
  apply take_splice_before; lia.
Qed.

(** The content afterwards: the old content, then the new cells. *)
Lemma take_appended blen n scs cs :
  0 <= blen -> 0 <= n -> n <= size_of scs -> blen + n < size_of cs ->
  take (Z.to_nat (blen + n)) (appended blen n scs cs)
  = take (Z.to_nat blen) cs ++ slice 0 n scs.
Proof.
  intros. unfold appended.
  rewrite take_splice_before;
    [| rewrite size_of_splice; rewrite ?size_of_slice; lia | lia ].
  replace (Z.to_nat (blen + n)) with (Z.to_nat blen + length (slice 0 n scs))%nat.
  - apply take_splice_through. lia.
  - pose proof (size_of_slice 0 n scs). unfold size_of in *. lia.
Qed.

(** The terminator is behind it. *)
Lemma lookup_appended_nul blen n scs cs :
  0 <= blen -> 0 <= n -> n <= size_of scs -> blen + n < size_of cs ->
  appended blen n scs cs !! Z.to_nat (blen + n) = Some (Some NUL).
Proof.
  intros. unfold appended. apply lookup_splice_at.
  rewrite size_of_splice; rewrite ?size_of_slice; lia.
Qed.
End Blocks.

Lemma tail_ok_facts blen n same scs cs :
  tail_ok blen n same scs cs = true ->
  0 <= n /\ blen + n < size_of cs /\ n <= size_of scs
  /\ (same = true -> 0 < n -> n <= blen).
Proof.
  unfold tail_ok. rewrite !andb_true_iff, negb_true_iff, !Z.leb_le, Z.ltb_lt.
  intros [[[H1 H2] H3] H4]. repeat split; try lia.
  intros -> Hn. simpl in H4. rewrite andb_false_iff, !Z.ltb_ge in H4. lia.
Qed.

(** ** What a buffer looks like to its accessors *)

Lemma check_valid {A} st a B (r : A) k :
  bufs st !! a = Some B -> magic B = SB_BUFFER_MAGIC ->
  CHECK_SB_BUFFER_POINTER_RET (Some a) r k st = k a st.
Proof.
  intros HB Hm. unfold CHECK_SB_BUFFER_POINTER_RET. exec.
  rewrite bool_decide_eq_false_2 by (intros Hne; now apply Hne). reflexivity.
Qed.

Lemma content_ok st a B cs :
  buffer_ok st a B cs ->
  content (Some a) st = Some (take (Z.to_nat (len B)) cs).
Proof.
  intros [HB Hm Hi Hs Ho Hsz Hl Hc Hn]. unfold content, sb_buffer_get_str, sb_buffer_get_len.
  rewrite !(check_valid st a B) by assumption.
  rewrite (get_str_eq _ _ _ HB), (get_len_eq _ _ _ HB).
  unfold read_bytes. rewrite Ho.
  replace ((0 <=? len B) && (len B <=? size_of cs)) with true
    by (symmetry; rewrite andb_true_iff, !Z.leb_le; lia).
  now rewrite slice_0.
Qed.

Lemma get_len_ok st a B cs :
  buffer_ok st a B cs -> sb_buffer_get_len (Some a) st = Ret (len B, st).
Proof.
  intros [HB Hm Hi Hs Ho Hsz Hl Hc Hn]. unfold sb_buffer_get_len.
  rewrite (check_valid st a B) by assumption. now apply get_len_eq.
Qed.

(** A valid buffer stays valid when its record and its storage stay. *)
Lemma buffer_ok_frame st st' a B cs :
  buffer_ok st a B cs ->
  bufs st' !! a = bufs st !! a ->
  object (str B) st' = object (str B) st ->
  buffer_ok st' a B cs.
Proof.
  intros [HB Hm Hi Hs Ho Hsz Hl Hc Hn] Hb Hob.
  constructor; try assumption; congruence.
Qed.

(** ** The append as a whole *)

Lemma add_lstring_eq fuel st a B cs s n :
  buffer_ok st a B cs ->
  sb_buffer_add_lstring fuel (Some a) s n st =
  if n >=? cap B - len B then
    match doubling fuel (cap B) (len B) n with
    | None => OutOfFuel
    | Some nova =>
        if hd true (oracle st) then write_tail a s n (grown st a B cs nova)
        else Ret (0, mkState (bufs st) (heap st) (tl (oracle st)))
    end
  else write_tail a s n st.
Proof.
  intros [HB Hm Hi Hs Ho Hsz Hl Hc Hn].
  rewrite add_lstring_unfold. exec.
  rewrite bool_decide_eq_false_2 by (intros Hne; now apply Hne).
  do 2 exec. rewrite (wrap_small (cap B - len B)) by lia.
  destruct (n >=? cap B - len B); [|now exec].
  unfold bind at 1.
  destruct Hs as [Hs|[h Hs]].
  - rewrite Hs in Ho. rewrite (object_init _ _ _ HB) in Ho. injection Ho as <-.
    rewrite (grow_storage_inline fuel st a B n HB Hs) by lia.
    destruct (doubling _ _ _ _); [|reflexivity].
    unfold grown. rewrite Hs. simpl release. simpl moved.
    destruct (hd true (oracle st)); reflexivity.
  - rewrite Hs in Ho. simpl in Ho.
    rewrite (grow_storage_heap fuel st a B h cs n HB Hs Ho).
    destruct (doubling _ _ _ _); [|reflexivity].
    unfold grown. rewrite Hs. simpl release. simpl moved.
    destruct (hd true (oracle st)); reflexivity.
Qed.

(** A source that was readable before the growth is read unchanged after
    it, if it can be read at all. *)
Lemma object_grown st a B cs nova s scs0 scs :
  bufs st !! a = Some B ->
  object s st = Some scs0 -> object s (grown st a B cs nova) = Some scs ->
  scs = scs0.
Proof.
  intros HB H0 H1. destruct s as [|x|hs]; simpl in *; [discriminate| |].
  - destruct (decide (x = a)) as [->|Hx].
    + rewrite lookup_insert_eq in H1. rewrite HB in H0. simpl in *. congruence.
    + rewrite lookup_insert_ne in H1 by congruence. congruence.
  - assert (hs <> fresh (dom (heap st))).
    { intros ->. rewrite fresh_block_free in H0. discriminate. }
    rewrite lookup_insert_ne in H1 by congruence.
    destruct (str B) as [|x|h]; simpl in H1; try congruence.
    destruct (decide (h = hs)) as [->|Hh].
    + rewrite lookup_delete_eq in H1. discriminate.
    + rewrite lookup_delete_ne in H1 by congruence. congruence.
Qed.

Lemma moved_facts st a B cs nova :
  buffer_ok st a B cs -> cap B <= nova ->
  size_of (moved (str B) (len B) nova cs) = nova
  /\ take (Z.to_nat (len B)) (moved (str B) (len B) nova cs)
     = take (Z.to_nat (len B)) cs.
Proof.
  intros [HB Hm Hi Hs Ho Hsz Hl Hc Hn] Hge.
  destruct Hs as [Hs|[h Hs]]; rewrite Hs; simpl.
  - split; [apply size_of_migrated | apply take_migrated]; lia.
  - split; [apply size_of_resize; lia|].
    apply take_resize; unfold size_of in *; lia.
Qed.

Lemma tail_inline_post st a B cs s n r st' :
  buffer_ok st a B cs -> str B = InitOf a -> n < cap B - len B ->
  write_tail a s n st = Ret (r, st') ->
  r = 1 /\ exists B' cs', appended_to st a B cs s n st' B' cs'.
Proof.
  intros Hok Hs Hfit H. pose proof Hok as [HB Hm Hi _ Ho Hsz Hl Hc Hn].
  rewrite Hs in Ho. rewrite (object_init _ _ _ HB) in Ho. injection Ho as <-.
  rewrite (write_tail_inline st a B s n HB Hs) in H by lia.
  destruct (object s st) as [scs|] eqn:Hsrc; [|discriminate].
  destruct (tail_ok _ _ _ _ _) eqn:Htail; [|discriminate].
  apply tail_ok_facts in Htail as (Hn0 & Hlt & Hle & _).
  injection H as <- <-. split; [reflexivity|].
  exists (mkBuffer (magic B) (appended (len B) n scs (init B)) (InitOf a) (len B + n) (cap B)),
    (appended (len B) n scs (init B)). constructor; cbn [bufs heap oracle magic init str len cap object].
  - constructor; cbn [bufs heap oracle magic init str len cap object].
    + apply lookup_insert_eq.
    + assumption.
    + rewrite size_of_appended; lia.
    + now left.
    + now rewrite lookup_insert_eq.
    + rewrite size_of_appended; lia.
    + lia.
    + assumption.
    + apply lookup_appended_nul; lia.
  - assumption.
  - reflexivity.
  - apply take_appended_old; lia.
  - rewrite Hsrc. intros scs0 [= <-]. split; [assumption|]. apply take_appended; lia.
  - intros a' Ha'. now rewrite lookup_insert_ne by congruence.
  - reflexivity.
  - auto.
  - lia.
Qed.

Lemma tail_heap_post st a B cs h s n r st' :
  buffer_ok st a B cs -> str B = Heap h -> n < cap B - len B ->
  write_tail a s n st = Ret (r, st') ->
  r = 1 /\ exists B' cs', appended_to st a B cs s n st' B' cs'.
Proof.
  intros Hok Hs Hfit H. pose proof Hok as [HB Hm Hi _ Ho Hsz Hl Hc Hn].
  rewrite Hs in Ho. simpl in Ho.
  rewrite (write_tail_heap st a B h cs s n HB Hs Ho) in H by lia.
  destruct (object s st) as [scs|] eqn:Hsrc; [|discriminate].
  destruct (tail_ok _ _ _ _ _) eqn:Htail; [|discriminate].
  apply tail_ok_facts in Htail as (Hn0 & Hlt & Hle & _).
  injection H as <- <-. split; [reflexivity|].
  exists (mkBuffer (magic B) (init B) (Heap h) (len B + n) (cap B)),
    (appended (len B) n scs cs). constructor; cbn [bufs heap oracle magic init str len cap object].
  - constructor; cbn [bufs heap oracle magic init str len cap object].
    + apply lookup_insert_eq.
    + assumption.
    + assumption.
    + right. now exists h.
    + apply lookup_insert_eq.
    + rewrite size_of_appended; lia.
    + lia.
    + assumption.
    + apply lookup_appended_nul; lia.
  - assumption.
  - reflexivity.
  - apply take_appended_old; lia.
  - rewrite Hsrc. intros scs0 [= <-]. split; [assumption|]. apply take_appended; lia.
  - intros a' Ha'. now rewrite lookup_insert_ne by congruence.
  - intros h0 Hh0 _. rewrite lookup_insert_ne; congruence.
  - intros _. repeat split; auto.
    apply dom_insert_lookup_L. now rewrite Ho.
  - lia.
Qed.

Lemma tail_grown_post st a B cs s n nova r st' fuel :
  buffer_ok st a B cs -> cap B - len B <= n ->
  hd true (oracle st) = true ->
  doubling fuel (cap B) (len B) n = Some nova ->
  write_tail a s n (grown st a B cs nova) = Ret (r, st') ->
  r = 1 /\ exists B' cs', appended_to st a B cs s n st' B' cs'.
Proof.
  intros Hok Hgrow Hgrant Hloop H. pose proof Hok as [HB Hm Hi Hs Ho Hsz Hl Hc Hn].
  pose proof (doubling_ge _ _ _ _ _ Hloop) as Hge.
  assert (Hrange : 0 <= nova < SIZE_MOD)
    by (eapply doubling_range; [|exact Hloop]; lia).
  destruct (moved_facts st a B cs nova Hok Hge) as [Hmsz Hmtake].
  set (h' := fresh (dom (heap st))) in *.
  set (blk := moved (str B) (len B) nova cs) in *.
  erewrite (write_tail_heap (grown st a B cs nova) a _ h' blk) in H;
    [ | apply lookup_insert_eq | reflexivity | apply lookup_insert_eq | simpl; lia | lia ].
  destruct (object s (grown st a B cs nova)) as [scs|] eqn:Hsrc; [|discriminate].
  simpl len in H.
  destruct (tail_ok _ _ _ _ _) eqn:Htail; [|discriminate].
  apply tail_ok_facts in Htail as (Hn0 & Hlt & Hle & _).
  injection H as <- <-. split; [reflexivity|].
  exists (mkBuffer (magic B) (init B) (Heap h') (len B + n) nova),
    (appended (len B) n scs blk). constructor; cbn [bufs heap oracle magic init str len cap object].
  - constructor; cbn [bufs heap oracle magic init str len cap object].
    + apply lookup_insert_eq.
    + assumption.
    + assumption.
    + right. now exists h'.
    + apply lookup_insert_eq.
    + rewrite size_of_appended; lia.
    + lia.
    + lia.
    + apply lookup_appended_nul; lia.
  - assumption.
  - reflexivity.
  - rewrite take_appended_old by lia. exact Hmtake.
  - intros scs0 Hs0.
    assert (scs = scs0) as -> by (eapply object_grown; eauto).
    split; [assumption|]. rewrite take_appended by lia. now rewrite Hmtake.
  - intros a' Ha'. now rewrite !lookup_insert_ne by congruence.
  - clear Hmtake Hmsz Hlt. intros h0 Hh0 [c0 Hc0].
    assert (h0 <> h') by (intros ->; subst h'; rewrite fresh_block_free in Hc0; discriminate).
    subst h' blk. rewrite !lookup_insert_ne by congruence.
    destruct (str B) as [|x|h]; simpl; try reflexivity.
    rewrite lookup_delete_ne; congruence.
  - lia.
  - intros _. exists h'. repeat split; auto.
    + apply fresh_block_free.
    + lia.
Qed.

(** What an append that returns has done to a valid buffer: either the
    allocator refused the growth and nothing changed, or the bytes were
    appended. *)
Lemma add_lstring_inv fuel st a B cs s n r st' :
  buffer_ok st a B cs ->
  sb_buffer_add_lstring fuel (Some a) s n st = Ret (r, st') ->
  (r = 0 /\ bufs st' = bufs st /\ heap st' = heap st /\ oracle st' = tl (oracle st)
   /\ hd true (oracle st) = false /\ cap B <= len B + n)
  \/ (r = 1 /\ exists B' cs', appended_to st a B cs s n st' B' cs').
Proof.
  intros Hok H. rewrite (add_lstring_eq fuel st a B cs s n Hok) in H.
  rewrite Z.geb_leb in H.
  destruct (Z.leb_spec (cap B - len B) n) as [Hgrow|Hfit].
  - destruct (doubling fuel (cap B) (len B) n) as [nova|] eqn:Hloop; [|discriminate].
    destruct (hd true (oracle st)) eqn:Hgrant.
    + right. eapply tail_grown_post; eauto.
    + left. injection H as <- <-. cbn [bufs heap oracle]. repeat split; auto. lia.
  - right. destruct (ok_str _ _ _ _ Hok) as [Hs|[h Hs]].
    + eapply tail_inline_post; eauto.
    + eapply tail_heap_post; eauto.
Qed.

(** ** Reset, finalize, clear and init *)

Lemma bind_ext {A B} (m : M A) (k1 k2 : A -> M B) st :
  (forall x st1, k1 x st1 = k2 x st1) -> bind m k1 st = bind m k2 st.
Proof. intros H. unfold bind. destruct (m st) as [[x st1]| |]; auto. Qed.

Lemma reset_tail_eq st a B :
  bufs st !! a = Some B ->
  reset_tail a st =
  if 0 <? size_of (init B) then Ret (1, emptied st a B) else Undefined.
Proof.
  intros HB. unfold reset_tail. do 4 exec.
  unfold bind. erewrite store_byte_eq by (apply object_init; solve_lookup).
  cbn [init]. change (0 <=? 0) with true. cbn [andb].
  destruct (0 <? size_of (init B)); [|reflexivity].
  cbn [put_object]. erewrite set_init_eq by solve_lookup.
  unfold ret, emptied. cbn. now rewrite !insert_insert_eq.
Qed.

Lemma finalize_tail_eq st a B :
  bufs st !! a = Some B ->
  finalize_tail a st =
  if 0 <? size_of (init B) then Ret (1, emptied st a B) else Undefined.
Proof.
  intros HB. unfold finalize_tail. do 2 exec.
  unfold bind at 1. erewrite store_byte_eq by (apply object_init; solve_lookup).
  cbn [init]. change (0 <=? 0) with true. cbn [andb].
  destruct (0 <? size_of (init B)); [|reflexivity].
  cbn [put_object]. erewrite set_init_eq by solve_lookup.
  cbn [bufs heap oracle magic init str len cap]. do 2 exec.
  unfold ret, emptied. cbn. now rewrite !insert_insert_eq.
Qed.

Lemma reset_tail_none st a : bufs st !! a = None -> reset_tail a st = Undefined.
Proof.
  intros HB. unfold reset_tail, set_len. rewrite bind_assoc.
  unfold bind at 1. now rewrite load_buf_none.
Qed.

Lemma finalize_tail_none st a : bufs st !! a = None -> finalize_tail a st = Undefined.
Proof.
  intros HB. unfold finalize_tail, set_str. rewrite bind_assoc.
  unfold bind at 1. now rewrite load_buf_none.
Qed.

Lemma reset_finalize_tail st a : reset_tail a st = finalize_tail a st.
Proof.
  destruct (bufs st !! a) as [B|] eqn:HB.
  - now rewrite (reset_tail_eq _ _ _ HB), (finalize_tail_eq _ _ _ HB).
  - now rewrite reset_tail_none, finalize_tail_none.
Qed.

Lemma reset_unfold b :
  sb_buffer_reset b =
  CHECK_SB_BUFFER_POINTER_RET b 0 (fun a =>
    bstr <- get_str a ;;
    (if bool_decide (bstr ≠ InitOf a) then free bstr else ret tt) ;;
    reset_tail a).
Proof. reflexivity. Qed.

Lemma finalize_unfold b :
  sb_buffer_finalize b =
  CHECK_SB_BUFFER_POINTER_RET b 0 (fun a =>
    bstr <- get_str a ;;
    (if bool_decide (bstr ≠ InitOf a) then free bstr else ret tt) ;;
    finalize_tail a).
Proof. reflexivity. Qed.

(** The hard reset of a valid buffer: its heap block, if any, is freed and
    the buffer is in the constructed-empty state. *)
Lemma reset_eq st a B cs :
  buffer_ok st a B cs ->
  sb_buffer_reset (Some a) st =
  Ret (1, emptied (mkState (bufs st) (release (str B) (heap st)) (oracle st)) a B).
Proof.
  intros [HB Hm Hi Hs Ho Hsz Hl Hc Hn].
  rewrite reset_unfold, (check_valid st a B) by assumption.
  exec.
  assert (Hpos : (0 <? size_of (init B)) = true)
    by (apply Z.ltb_lt; rewrite Hi; reflexivity).
  destruct Hs as [Hs|[h Hs]]; rewrite Hs in *.
  - rewrite bool_decide_eq_false_2 by (intros Hne; now apply Hne).
    exec. rewrite (reset_tail_eq _ _ _ HB), Hpos.
    destruct st; reflexivity.
  - rewrite bool_decide_eq_true_2 by discriminate.
    unfold bind. cbn [free object] in *. rewrite Ho. cbn [drop_heap].
    erewrite reset_tail_eq by solve_lookup. now rewrite Hpos.
Qed.

Lemma emptied_ok st a B :
  magic B = SB_BUFFER_MAGIC ->
  size_of (init B) = SB_BUFFER_INITIAL_CAP ->
  buffer_ok (emptied st a B) a
    (mkBuffer (magic B) (splice 0 [Some NUL] (init B)) (InitOf a) 0 SB_BUFFER_INITIAL_CAP)
    (splice 0 [Some NUL] (init B)).
Proof.
  intros Hm Hi.
  assert (Hsz : size_of (splice 0 [Some NUL] (init B)) = SB_BUFFER_INITIAL_CAP).
  { rewrite size_of_splice; [assumption|lia|].
    rewrite Hi. change (size_of [Some NUL]) with 1. unfold SB_BUFFER_INITIAL_CAP. lia. }
  constructor; cbn [emptied bufs heap oracle magic init str len cap object];
    try assumption.
  - apply lookup_insert_eq.
  - now left.
  - now rewrite lookup_insert_eq.
  - unfold SB_BUFFER_INITIAL_CAP. lia.
  - reflexivity.
  - apply (lookup_splice_at 0). rewrite Hi. unfold SB_BUFFER_INITIAL_CAP. lia.
Qed.

Lemma init_eq st a B :
  bufs st !! a = Some B -> size_of (init B) = SB_BUFFER_INITIAL_CAP ->
  sb_buffer_init (Some a) st =
  Ret (1, emptied st a (mkBuffer SB_BUFFER_MAGIC (init B) (str B) (len B) (cap B))).
Proof.
  intros HB Hi. unfold sb_buffer_init. do 5 exec.
  unfold bind. erewrite store_byte_eq by (apply object_init; solve_lookup).
  cbn [init]. rewrite Hi. change ((0 <=? 0) && (0 <? SB_BUFFER_INITIAL_CAP)) with true.
  cbn [put_object]. erewrite set_init_eq by solve_lookup.
  unfold ret, emptied. cbn. now rewrite !insert_insert_eq.
Qed.

(** ** Sequences of appends *)

Lemma read_bytes_inv s n st cs :
  read_bytes s n st = Some cs ->
  exists scs, object s st = Some scs /\ 0 <= n <= size_of scs /\ cs = slice 0 n scs.
Proof.
  unfold read_bytes. destruct (object s st) as [scs|]; [|discriminate].
  destruct (_ && _) eqn:Hc; [|discriminate].
  rewrite andb_true_iff, !Z.leb_le in Hc. intros [= <-]. eauto.
Qed.

Lemma init_ok st a st' :
  is_object st a -> sb_buffer_init (Some a) st = Ret (1, st') ->
  exists B cs, buffer_ok st' a B cs /\ len B = 0 /\ str B = InitOf a
               /\ cap B = SB_BUFFER_INITIAL_CAP
               /\ heap st' = heap st /\ oracle st' = oracle st
               /\ forall a', a' <> a -> bufs st' !! a' = bufs st !! a'.
Proof.
  intros (B0 & HB & Hi) H. rewrite (init_eq st a B0 HB Hi) in H. injection H as <-.
  eexists _, _. split.
  - now apply (emptied_ok st a (mkBuffer SB_BUFFER_MAGIC (init B0) (str B0) (len B0) (cap B0))).
  - repeat (split; [reflexivity|]).
    intros a' Ha'. cbn. now rewrite lookup_insert_ne by congruence.
Qed.

Lemma append_all_cons fuel b s bs rest st st' :
  append_all fuel b ((s, bs) :: rest) st = Some st' ->
  exists st1,
    read_bytes s (Z.of_nat (length bs)) st = Some (cells_of bs)
    /\ sb_buffer_add_lstring fuel b s (Z.of_nat (length bs)) st = Ret (1, st1)
    /\ append_all fuel b rest st1 = Some st'.
Proof.
  simpl. destruct (bool_decide _) eqn:Hr; [|discriminate].
  apply bool_decide_eq_true_1 in Hr.
  destruct (sb_buffer_add_lstring _ _ _ _ _) as [[r st1]| |]; try discriminate.
  destruct r as [|[p|p|]|]; try discriminate. eauto.
Qed.

Lemma all_bytes_cons s bs rest :
  cells_of (all_bytes ((s, bs) :: rest)) = cells_of bs ++ cells_of (all_bytes rest).
Proof. unfold all_bytes, cells_of. simpl. now rewrite map_app. Qed.

(** The state of the buffer after a sequence of appends. *)
Lemma append_all_spec fuel a items :
  forall st B cs st',
    buffer_ok st a B cs ->
    append_all fuel (Some a) items st = Some st' ->
    exists B' cs',
      buffer_ok st' a B' cs'
      /\ len B' = len B + total_length items
      /\ take (Z.to_nat (len B')) cs'
         = take (Z.to_nat (len B)) cs ++ cells_of (all_bytes items).
Proof.
  induction items as [|[s bs] rest IH]; intros st B cs st' Hok H.
  - injection H as <-. exists B, cs. unfold all_bytes, total_length. simpl.
    rewrite app_nil_r. split; [assumption|]. split; [lia|reflexivity].
  - apply append_all_cons in H as (st1 & Hread & Happ & Hrest).
    apply read_bytes_inv in Hread as (scs & Hobj & Hn & Hcells).
    destruct (add_lstring_inv _ _ _ _ _ _ _ _ _ Hok Happ)
      as [(Hr & _)|(_ & B1 & cs1 & Hap)]; [discriminate|].
    destruct (IH _ _ _ _ (ap_ok _ _ _ _ _ _ _ _ _ Hap) Hrest) as (B' & cs' & Hok' & Hlen & Htake).
    exists B', cs'. split; [assumption|]. split.
    + rewrite Hlen, (ap_len _ _ _ _ _ _ _ _ _ Hap). simpl. lia.
    + rewrite Htake, (ap_len _ _ _ _ _ _ _ _ _ Hap).
      destruct (ap_src _ _ _ _ _ _ _ _ _ Hap scs Hobj) as [_ ->].
      rewrite all_bytes_cons, <- Hcells. now rewrite app_assoc.
Qed.

(** ** Clear *)

Lemma clear_spec st a B cs :
  buffer_ok st a B cs ->
  exists st' B' cs',
    sb_buffer_clear (Some a) st = Ret (1, st')
    /\ buffer_ok st' a B' cs'
    /\ len B' = 0 /\ cap B' = cap B /\ str B' = str B
    /\ oracle st' = oracle st /\ dom (heap st') = dom (heap st)
    /\ (forall a', a' <> a -> bufs st' !! a' = bufs st !! a')
    /\ (forall h, str B <> Heap h -> heap st' !! h = heap st !! h).
Proof.
  intros [HB Hm Hi Hs Ho Hsz Hl Hc Hn].
  assert (Hfit : (0 <=? 0) && (0 <? size_of cs) = true)
    by (rewrite andb_true_iff, Z.leb_le, Z.ltb_lt; lia).
  assert (Hsp : size_of (splice 0 [Some NUL] cs) = size_of cs)
    by (apply size_of_splice; change (size_of [Some NUL]) with 1; lia).
  unfold sb_buffer_clear. rewrite (check_valid st a B) by assumption.
  do 2 exec. unfold bind.
  destruct Hs as [Hs|[h Hs]]; rewrite Hs in *.
  - rewrite (object_init _ _ _ HB) in Ho. injection Ho as <-.
    erewrite store_byte_eq by (apply object_init; solve_lookup).
    cbn [init]. rewrite Hfit. cbn [put_object].
    erewrite set_init_eq by solve_lookup.
    cbn [bufs heap oracle magic init str len cap]. rewrite insert_insert_eq.
    eexists _, (mkBuffer (magic B) (splice 0 [Some NUL] (init B)) (InitOf a) 0 (cap B)),
      (splice 0 [Some NUL] (init B)).
    split; [unfold ret; reflexivity|].
    split; [|cbn [bufs heap oracle magic init str len cap]; repeat (split; [reflexivity|]); split].
    + constructor; cbn [bufs heap oracle magic init str len cap object]; try lia;
        try assumption.
      * apply lookup_insert_eq.
      * now left.
      * now rewrite lookup_insert_eq.
      * apply (lookup_splice_at 0). lia.
    + intros a' Ha'. now rewrite lookup_insert_ne by congruence.
    + reflexivity.
  - cbn [object] in Ho.
    erewrite store_byte_eq by (cbn [object heap]; exact Ho).
    rewrite Hfit. cbn [put_object put_heap heap bufs oracle].
    eexists _, (mkBuffer (magic B) (init B) (Heap h) 0 (cap B)), (splice 0 [Some NUL] cs).
    split; [unfold ret; reflexivity|].
    split; [|cbn [bufs heap oracle magic init str len cap];
             repeat (split; [reflexivity|]); split; [|split]].
    + constructor; cbn [bufs heap oracle magic init str len cap object]; try lia;
        try assumption.
      * apply lookup_insert_eq.
      * right. now exists h.
      * now rewrite lookup_insert_eq.
      * apply (lookup_splice_at 0). lia.
    + apply dom_insert_lookup_L. now rewrite Ho.
    + intros a' Ha'. now rewrite lookup_insert_ne by congruence.
    + intros h0 Hh0. rewrite lookup_insert_ne; congruence.
Qed.

(** ** Other buffers are left alone *)

Lemma reset_frame st a B cs a2 B2 cs2 :
  buffer_ok st a B cs -> a2 <> a -> buffer_ok st a2 B2 cs2 -> str B2 <> str B ->
  buffer_ok (reset_state st a B) a2 B2 cs2.
Proof.
  intros Hok Hne Hok2 Hsep. apply (buffer_ok_frame st); [assumption| |].
  - cbn. now rewrite lookup_insert_ne by congruence.
  - destruct (str B2) as [|x|h2] eqn:E2; cbn; [reflexivity| |].
    + destruct (decide (x = a)) as [->|Hx].
      * destruct (ok_str _ _ _ _ Hok2) as [H|[h H]]; congruence.
      * now rewrite lookup_insert_ne by congruence.
    + destruct (str B) as [|y|h]; cbn; try reflexivity.
      rewrite lookup_delete_ne; congruence.
Qed.

Lemma add_lstring_frame fuel st a B cs s n r st' a2 B2 cs2 :
  buffer_ok st a B cs ->
  sb_buffer_add_lstring fuel (Some a) s n st = Ret (r, st') ->
  a2 <> a -> buffer_ok st a2 B2 cs2 -> str B2 <> str B ->
  buffer_ok st' a2 B2 cs2.
Proof.
  intros Hok H Hne Hok2 Hsep.
  assert (Hinit : str B2 = InitOf a2 \/ exists h, str B2 = Heap h)
    by exact (ok_str _ _ _ _ Hok2).
  destruct (add_lstring_inv _ _ _ _ _ _ _ _ _ Hok H)
    as [(_ & Hb & Hh & _)|(_ & B' & cs' & Hap)].
  - apply (buffer_ok_frame st); [assumption|congruence|].
    destruct (str B2); cbn; congruence.
  - apply (buffer_ok_frame st); [assumption| |].
    + now apply (ap_others _ _ _ _ _ _ _ _ _ Hap).
    + destruct Hinit as [E|[h2 E]]; rewrite E; cbn.
      * now rewrite (ap_others _ _ _ _ _ _ _ _ _ Hap) by assumption.
      * apply (ap_blocks _ _ _ _ _ _ _ _ _ Hap); [congruence|].
        pose proof (ok_object _ _ _ _ Hok2) as Ho. rewrite E in Ho. cbn in Ho.
        now rewrite Ho.
Qed.

(** After a successful append the buffer still shares no storage with a
    valid buffer it shared none with. *)
Lemma appended_to_separate st a B cs s n st' B' cs' a2 B2 cs2 :
  appended_to st a B cs s n st' B' cs' ->
  buffer_ok st a2 B2 cs2 -> str B2 <> str B -> str B2 <> str B'.
Proof.
  intros Hap Hok2 Hsep.
  destruct (Z.lt_ge_cases (len B + n) (cap B)) as [Hfit|Hgrow].
  - destruct (ap_fit _ _ _ _ _ _ _ _ _ Hap Hfit) as (-> & _). assumption.
  - destruct (ap_grow _ _ _ _ _ _ _ _ _ Hap Hgrow) as (h' & -> & Hfree & _).
    intros E. pose proof (ok_object _ _ _ _ Hok2) as Ho. rewrite E in Ho.
    cbn in Ho. congruence.
Qed.

(** Appends to one buffer, however many, leave a valid buffer that shares
    no storage with it as it is. *)
Lemma appends_on_frame a st st' :
  appends_on a st st' ->
  forall B cs a2 B2 cs2,
    buffer_ok st a B cs -> a2 <> a -> buffer_ok st a2 B2 cs2 -> str B2 <> str B ->
    buffer_ok st' a2 B2 cs2.
Proof.
  induction 1 as [st|fuel s n r st st1 st2 Hcall _ IH];
    intros B cs a2 B2 cs2 Hok Hne Hok2 Hsep; [assumption|].
  pose proof (add_lstring_frame _ _ _ _ _ _ _ _ _ _ _ _ Hok Hcall Hne Hok2 Hsep) as Hok2'.
  destruct (add_lstring_inv _ _ _ _ _ _ _ _ _ Hok Hcall)
    as [(_ & Hb & Hh & _)|(_ & B' & cs' & Hap)].
  - apply (IH B cs); try assumption.
    apply (buffer_ok_frame st); [assumption|congruence|].
    destruct (str B); cbn; congruence.
  - apply (IH B' cs'); try assumption; [apply Hap|].
    eapply appended_to_separate; eauto.
Qed.

(** ** Copy *)

Lemma isbuffer_valid st a B :
  bufs st !! a = Some B -> magic B = SB_BUFFER_MAGIC ->
  sb_buffer_isbuffer (Some a) st = Ret (1, st).
Proof.
  intros HB Hm. unfold sb_buffer_isbuffer. exec.
  now rewrite bool_decide_eq_false_2 by (intros Hne; now apply Hne).
Qed.

(** A copy between valid buffers is a hard reset of the destination and an
    append of the source's content to it. *)
Lemma copy_eq fuel st src dest Bs css Bd csd :
  buffer_ok st src Bs css -> buffer_ok st dest Bd csd ->
  sb_buffer_copy fuel (Some src) (Some dest) st =
  (sstr <- get_str src ;;
   slen <- get_len src ;;
   sb_buffer_add_lstring fuel (Some dest) sstr slen) (reset_state st dest Bd).
Proof.
  intros Hs Hd. unfold sb_buffer_copy.
  rewrite (check_valid st src Bs) by apply Hs.
  erewrite (bind_Ret (sb_buffer_isbuffer _)) by (eapply isbuffer_valid; apply Hd).
  cbv beta. change (1 =? 0) with false. cbv iota.
  erewrite (bind_Ret (sb_buffer_reset _)) by (eapply reset_eq; exact Hd).
  reflexivity.
Qed.

Lemma reset_state_ok st a B cs :
  buffer_ok st a B cs ->
  buffer_ok (reset_state st a B) a
    (mkBuffer (magic B) (splice 0 [Some NUL] (init B)) (InitOf a) 0 SB_BUFFER_INITIAL_CAP)
    (splice 0 [Some NUL] (init B)).
Proof. intros Hok. apply emptied_ok; apply Hok. Qed.

(** A copy between two different valid buffers that share no storage. *)
Lemma copy_distinct fuel st src dest Bs css Bd csd r st' :
  buffer_ok st src Bs css -> buffer_ok st dest Bd csd ->
  src <> dest -> str Bs <> str Bd ->
  sb_buffer_copy fuel (Some src) (Some dest) st = Ret (r, st') ->
  buffer_ok st' src Bs css
  /\ exists B' cs',
       buffer_ok st' dest B' cs' /\ str Bs <> str B'
       /\ (r = 0 \/
           r = 1 /\ len B' = len Bs
           /\ take (Z.to_nat (len B')) cs' = take (Z.to_nat (len Bs)) css).
Proof.
  intros Hs Hd Hne Hsep H.
  rewrite (copy_eq fuel st src dest Bs css Bd csd Hs Hd) in H.
  pose proof (reset_frame st dest Bd csd src Bs css Hd Hne Hs Hsep) as Hs1.
  pose proof (reset_state_ok st dest Bd csd Hd) as Hd1.
  set (st1 := reset_state st dest Bd) in *.
  set (B1 := mkBuffer _ _ _ _ _) in Hd1. set (cs1 := splice _ _ _) in Hd1.
  erewrite (bind_Ret (get_str _)) in H by (apply get_str_eq; apply Hs1).
  erewrite (bind_Ret (get_len _)) in H by (apply get_len_eq; apply Hs1).
  cbv beta in H.
  assert (Hsep1 : str Bs <> str B1).
  { subst B1. cbn. destruct (ok_str _ _ _ _ Hs) as [E|[h E]]; rewrite E; congruence. }
  split; [eapply add_lstring_frame; eauto|].
  destruct (add_lstring_inv _ _ _ _ _ _ _ _ _ Hd1 H)
    as [(-> & Hb & Hh & _)|(-> & B' & cs' & Hap)].
  - exists B1, cs1. split; [|split; [assumption|now left]].
    apply (buffer_ok_frame st1); [assumption|congruence|].
    subst B1. cbn [str object]. now rewrite Hb.
  - exists B', cs'. split; [apply Hap|]. split.
    + eapply appended_to_separate; eauto.
    + right. split; [reflexivity|].
      pose proof (ap_len _ _ _ _ _ _ _ _ _ Hap) as Hlen. subst B1. cbn in Hlen.
      split; [lia|].
      destruct (ap_src _ _ _ _ _ _ _ _ _ Hap css (ok_object _ _ _ _ Hs1)) as [_ Htake].
      cbn [len] in Htake. rewrite Hlen. rewrite Htake. cbn.
      now rewrite slice_0.
Qed.

Lemma tail_ok_empty same scs cs :
  0 < size_of cs -> tail_ok 0 0 same scs cs = true.
Proof.
  intros H. unfold tail_ok.
  rewrite !andb_true_iff, negb_true_iff, !Z.leb_le, Z.ltb_lt.
  change (0 <? 0) with false. rewrite andb_false_r.
  pose proof (size_of_nonneg scs). repeat split; lia.
Qed.

(** Copying a valid buffer onto itself: the reset empties it, and then its
    own (now empty) content is appended. *)
Lemma copy_self fuel st a B cs :
  buffer_ok st a B cs ->
  exists st' B' cs',
    sb_buffer_copy fuel (Some a) (Some a) st = Ret (1, st')
    /\ buffer_ok st' a B' cs'
    /\ len B' = 0 /\ str B' = InitOf a /\ cap B' = SB_BUFFER_INITIAL_CAP
    /\ heap st' = release (str B) (heap st).
Proof.
  intros Hok.
  pose proof (reset_state_ok st a B cs Hok) as Hok1.
  set (st1 := reset_state st a B) in *.
  set (B1 := mkBuffer _ _ _ _ _) in Hok1. set (cs1 := splice _ _ _) in Hok1.
  assert (Hrun : sb_buffer_copy fuel (Some a) (Some a) st = write_tail a (InitOf a) 0 st1).
  { rewrite (copy_eq fuel st a a B cs B cs Hok Hok). fold st1.
    erewrite (bind_Ret (get_str _)) by (apply get_str_eq; apply Hok1).
    erewrite (bind_Ret (get_len _)) by (apply get_len_eq; apply Hok1).
    cbv beta. rewrite (add_lstring_eq fuel st1 a B1 cs1 _ _ Hok1). reflexivity. }
  assert (Hsz : size_of cs1 = SB_BUFFER_INITIAL_CAP).
  { pose proof (ok_size _ _ _ _ Hok1) as E. exact E. }
  assert (Htail : exists st', write_tail a (InitOf a) 0 st1 = Ret (1, st')).
  { erewrite (write_tail_inline st1 a B1); [| apply Hok1 | reflexivity | cbn; lia | ].
    - erewrite object_init by apply Hok1.
      cbn [len init B1]. fold cs1. rewrite tail_ok_empty; [eauto|].
      rewrite Hsz. reflexivity.
    - cbn [init B1]. fold cs1. rewrite Hsz. reflexivity. }
  destruct Htail as [st' Htail].
  destruct (tail_inline_post st1 a B1 cs1 (InitOf a) 0 1 st' Hok1 eq_refl) as (_ & B' & cs' & Hap);
    [reflexivity|assumption|].
  destruct (ap_fit _ _ _ _ _ _ _ _ _ Hap) as (Hstr & Hcap & _); [reflexivity|].
  exists st', B', cs'. rewrite Hrun. split; [assumption|]. split; [apply Hap|].
  split; [rewrite (ap_len _ _ _ _ _ _ _ _ _ Hap); reflexivity|].
  split; [assumption|]. split; [assumption|].
  change (release (str B) (heap st)) with (heap st1).
  apply map_eq. intros h.
  destruct (heap st1 !! h) as [c|] eqn:E.
  - rewrite <- E. apply (ap_blocks _ _ _ _ _ _ _ _ _ Hap); [discriminate|].
    now rewrite E.
  - apply not_elem_of_dom.
    destruct (ap_fit _ _ _ _ _ _ _ _ _ Hap) as (_ & _ & _ & ->); [reflexivity|].
    now apply not_elem_of_dom.
Qed.

(** Reset and finalize do the same on every input. *)
Lemma reset_finalize_same b st : sb_buffer_reset b st = sb_buffer_finalize b st.
Proof.
  rewrite reset_unfold, finalize_unfold.
  unfold CHECK_SB_BUFFER_POINTER_RET. destruct b as [a|]; [|reflexivity].
  apply bind_ext. intros m st1. destruct (bool_decide _); [reflexivity|].
  apply bind_ext. intros bstr st2. apply bind_ext. intros _ st3.
  apply reset_finalize_tail.
Qed.

(** ** Validity by computation *)

Lemma buffer_okb_sound st a :
  buffer_okb st a = true -> buffer_ok st a (the_buffer st a) (the_storage st a).
Proof.
  unfold buffer_okb, the_storage, the_buffer.
  destruct (bufs st !! a) as [B|] eqn:HB; [|discriminate].
  cbn [default from_option id].
  destruct (object (str B) st) as [cs|] eqn:Ho; [|discriminate].
  cbn [default from_option id].
  rewrite !andb_true_iff, orb_true_iff, !Z.eqb_eq, Z.leb_le, !Z.ltb_lt.
  intros [[[[[[[Hm Hi] Hs] Hsz] Hl0] Hl1] Hc] Hn].
  constructor; try assumption; try lia.
  - destruct Hs as [Hs|Hs].
    + left. now apply bool_decide_eq_true_1 in Hs.
    + right. destruct (str B); try discriminate. eauto.
  - now apply bool_decide_eq_true_1 in Hn.
Qed.

Lemma buffer_ok_terminated st a B cs : buffer_ok st a B cs -> terminated st a.
Proof. intros H. exists B, cs. repeat split; apply H. Qed.

(** ** The append returns *)

Lemma object_grown_other st a B cs nova s scs :
  buffer_ok st a B cs ->
  object s st = Some scs -> s <> str B ->
  object s (grown st a B cs nova) = Some scs.
Proof.
  intros Hok H0 Hne. destruct s as [|x|hs]; cbn in *; [discriminate| |].
  - destruct (decide (x = a)) as [->|Hx].
    + rewrite lookup_insert_eq. rewrite (ok_lookup _ _ _ _ Hok) in H0. exact H0.
    + now rewrite lookup_insert_ne by congruence.
  - assert (hs <> fresh (dom (heap st))).
    { intros ->. rewrite fresh_block_free in H0. discriminate. }
    rewrite lookup_insert_ne by congruence.
    destruct (str B) as [|x|h]; cbn; try assumption.
    rewrite lookup_delete_ne; congruence.
Qed.

Lemma tail_ok_apart blen n scs cs :
  0 <= n -> blen + n < size_of cs -> n <= size_of scs ->
  tail_ok blen n false scs cs = true.
Proof.
  intros. unfold tail_ok. rewrite !andb_true_iff, !Z.leb_le, Z.ltb_lt.
  repeat split; try lia.
Qed.

(** The append is not only right when it returns: on a valid buffer, with
    [n] readable bytes at a source outside the buffer's storage, a required
    size below half the range of [size_t], 64 iterations allowed, and an
    allocator that grants the request, it returns 1. *)
Lemma add_lstring_returns fuel st a B cs s n scs :
  buffer_ok st a B cs ->
  object s st = Some scs -> 0 <= n <= size_of scs -> s <> str B ->
  len B + n + 1 < 2 ^ (SIZE_BITS - 1) ->
  (64 <= fuel)%nat -> hd true (oracle st) = true ->
  exists st', sb_buffer_add_lstring fuel (Some a) s n st = Ret (1, st').
Proof.
  intros Hok Hsrc Hn Hne Hhalf Hfuel Hgrant.
  pose proof Hok as [HB Hm Hi Hs Ho Hsz Hl Hc Hnul].
  assert (Hpow : 2 ^ (SIZE_BITS - 1) < SIZE_MOD) by reflexivity.
  rewrite (add_lstring_eq fuel st a B cs s n Hok), Z.geb_leb.
  destruct (Z.leb_spec (cap B - len B) n) as [Hgrow|Hfit].
  - assert (Hreq : wrap (wrap (len B + n) + 1) = len B + n + 1)
      by (rewrite (wrap_small (len B + n)) by lia; apply wrap_small; lia).
    destruct (doubling_64 fuel (cap B) (len B) n) as [nova Hloop];
      [lia | rewrite Hreq; lia | assumption |].
    rewrite Hloop, Hgrant.
    pose proof (doubling_exit _ _ _ _ _ Hloop) as Hex. rewrite Hreq in Hex.
    pose proof (doubling_ge _ _ _ _ _ Hloop) as Hge.
    assert (Hrange : 0 <= nova < SIZE_MOD)
      by (eapply doubling_range; [|exact Hloop]; lia).
    destruct (moved_facts st a B cs nova Hok Hge) as [Hmsz _].
    erewrite (write_tail_heap (grown st a B cs nova) a _ (fresh (dom (heap st))));
      [ | apply lookup_insert_eq | reflexivity | apply lookup_insert_eq | cbn; lia | lia ].
    rewrite (object_grown_other st a B cs nova s scs Hok Hsrc Hne).
    rewrite bool_decide_eq_false_2.
    + cbn [len]. rewrite tail_ok_apart by lia. eauto.
    + intros <-. cbn in Hsrc. rewrite fresh_block_free in Hsrc. discriminate.
  - destruct Hs as [Hs|[h Hs]].
    + rewrite Hs in Ho. rewrite (object_init _ _ _ HB) in Ho. injection Ho as <-.
      rewrite (write_tail_inline st a B s n HB Hs) by lia.
      rewrite Hsrc, bool_decide_eq_false_2 by congruence.
      rewrite tail_ok_apart by lia. eauto.
    + rewrite Hs in Ho. cbn in Ho.
      rewrite (write_tail_heap st a B h cs s n HB Hs Ho) by lia.
      rewrite Hsrc, bool_decide_eq_false_2 by congruence.
      rewrite tail_ok_apart by lia. eauto.
Qed.


(** ** The example states are valid *)

Lemma demo_fresh_ok :
  buffer_ok demo_fresh 1%positive (the_buffer demo_fresh 1%positive)
    (the_storage demo_fresh 1%positive).
Proof. apply buffer_okb_sound. vm_compute. reflexivity. Qed.

Lemma demo_stingy_ok :
  buffer_ok demo_stingy 1%positive (the_buffer demo_stingy 1%positive)
    (the_storage demo_stingy 1%positive).
Proof. apply buffer_okb_sound. vm_compute. reflexivity. Qed.

Lemma demo_filled_ok :
  buffer_ok demo_filled 1%positive (the_buffer demo_filled 1%positive)
    (the_storage demo_filled 1%positive).
Proof. apply buffer_okb_sound. vm_compute. reflexivity. Qed.

Lemma demo_pair_ok_1 :
  buffer_ok demo_pair 1%positive (the_buffer demo_pair 1%positive)
    (the_storage demo_pair 1%positive).
Proof. apply buffer_okb_sound. vm_compute. reflexivity. Qed.

Lemma demo_pair_ok_2 :
  buffer_ok demo_pair 2%positive (the_buffer demo_pair 2%positive)
    (the_storage demo_pair 2%positive).
Proof. apply buffer_okb_sound. vm_compute. reflexivity. Qed.

(** ** C1: the content is the concatenation of what was appended *)

(** C1. After a fresh buffer is initialised and a sequence of appends of
    the byte strings s1..sn has succeeded, the content shown by
    [sb_buffer_get_str] and [sb_buffer_get_len] is s1 ++ ... ++ sn and the
    length is the sum of their lengths, whether or not the total exceeds
    the inline capacity. *)
Theorem append_sequence_content fuel st0 a st1 items st2 :
  is_object st0 a ->
  sb_buffer_init (Some a) st0 = Ret (1, st1) ->
  append_all fuel (Some a) items st1 = Some st2 ->
  content (Some a) st2 = Some (cells_of (all_bytes items))
  /\ sb_buffer_get_len (Some a) st2 = Ret (total_length items, st2).
Proof.
  intros Hobj Hinit Hrun.
  destruct (init_ok _ _ _ Hobj Hinit) as (B & cs & Hok & Hlen & _).
  destruct (append_all_spec _ _ _ _ _ _ _ Hok Hrun) as (B' & cs' & Hok' & Hlen' & Htake).
  rewrite (content_ok _ _ _ _ Hok'), (get_len_ok _ _ _ _ Hok').
  rewrite Htake, Hlen', Hlen. simpl. split; reflexivity.
Qed.

Lemma append_sequence_content_witness :
  content (Some 1%positive) demo_filled = Some (cells_of (all_bytes demo_items))
  /\ sb_buffer_get_len (Some 1%positive) demo_filled
     = Ret (total_length demo_items, demo_filled).
Proof.
  apply (append_sequence_content 64 demo 1%positive demo_fresh demo_items demo_filled).
  - exists demo_raw. split; vm_compute; reflexivity.
  - vm_compute. reflexivity.
  - vm_compute. reflexivity.
Defined.

(** ** C2: success leaves the content terminated *)

(** C2. After every public operation that returns success (construct,
    append, clear, reset, finalize, copy) the buffer operated on satisfies
    [length < capacity] and has the zero terminator at offset [length] of
    its active storage; after a copy so does the source. *)
Theorem success_keeps_terminator fuel o a st st' :
  ready o a st ->
  run_operation fuel o a st = Ret (1, st') ->
  terminated st' a /\ (forall src, o = CopyFrom src -> terminated st' src).
Proof.
  intros Hready H.
  destruct o as [|s n| | | |src]; cbn [ready run_operation] in *.
  - split; [|discriminate].
    destruct (init_ok _ _ _ Hready H) as (B & cs & Hok & _).
    eapply buffer_ok_terminated; eauto.
  - split; [|discriminate]. destruct Hready as (B & cs & Hok).
    destruct (add_lstring_inv _ _ _ _ _ _ _ _ _ Hok H)
      as [(Hr & _)|(_ & B' & cs' & Hap)]; [discriminate|].
    eapply buffer_ok_terminated. apply Hap.
  - split; [|discriminate]. destruct Hready as (B & cs & Hok).
    destruct (clear_spec _ _ _ _ Hok) as (st1 & B' & cs' & Hrun & Hok' & _).
    rewrite Hrun in H. injection H as <-. eapply buffer_ok_terminated; eauto.
  - split; [|discriminate]. destruct Hready as (B & cs & Hok).
    rewrite (reset_eq _ _ _ _ Hok) in H. injection H as <-.
    eapply buffer_ok_terminated. apply (reset_state_ok _ _ _ _ Hok).
  - split; [|discriminate]. destruct Hready as (B & cs & Hok).
    rewrite <- reset_finalize_same, (reset_eq _ _ _ _ Hok) in H. injection H as <-.
    eapply buffer_ok_terminated. apply (reset_state_ok _ _ _ _ Hok).
  - destruct Hready as ((Bs & css & Hs) & (Bd & csd & Hd) & Hsep).
    assert (Hboth : terminated st' a /\ terminated st' src).
    { destruct (decide (src = a)) as [->|Hne].
      - destruct (copy_self fuel _ _ _ _ Hd) as (st1 & B' & cs' & Hrun & Hok' & _).
        rewrite Hrun in H. injection H as <-.
        split; eapply buffer_ok_terminated; eauto.
      - destruct (copy_distinct fuel st src a Bs css Bd csd 1 st' Hs Hd Hne)
          as (Hs' & B' & cs' & Hd' & _); [|assumption|].
        + apply (Hsep Hne); [apply Hs|apply Hd].
        + split; eapply buffer_ok_terminated; eauto. }
    split; [apply Hboth|]. intros src' [= <-]. apply Hboth.
Qed.

Lemma success_keeps_terminator_witness :
  terminated demo_copied 2%positive
  /\ (forall src, CopyFrom 1%positive = CopyFrom src -> terminated demo_copied src).
Proof.
  apply (success_keeps_terminator 64 (CopyFrom 1%positive) 2%positive demo_pair).
  - split; [exact (ex_intro _ _ (ex_intro _ _ demo_pair_ok_1))|].
    split; [exact (ex_intro _ _ (ex_intro _ _ demo_pair_ok_2))|].
    intros _ B1 B2 H1 H2. vm_compute in H1. vm_compute in H2.
    injection H1 as <-. injection H2 as <-. discriminate.
  - vm_compute. reflexivity.
Defined.

(** ** C3: a failed allocation changes nothing *)

(** C3. When the append has to grow the storage and the allocator refuses
    ([malloc] or [realloc] returns [NULL]), [sb_buffer_add_lstring] returns 0
    and the buffer is as before: the [SB_Buffer] objects and the heap are
    unchanged, so content, length, capacity and active storage are. *)
Theorem failed_growth_changes_nothing fuel st a B cs s n nova :
  buffer_ok st a B cs ->
  cap B - len B <= n ->
  doubling fuel (cap B) (len B) n = Some nova ->
  hd true (oracle st) = false ->
  exists st',
    sb_buffer_add_lstring fuel (Some a) s n st = Ret (0, st')
    /\ bufs st' = bufs st /\ heap st' = heap st
    /\ buffer_ok st' a B cs
    /\ content (Some a) st' = content (Some a) st.
Proof.
  intros Hok Hgrow Hloop Hdeny.
  exists (mkState (bufs st) (heap st) (tl (oracle st))).
  assert (Hok' : buffer_ok (mkState (bufs st) (heap st) (tl (oracle st))) a B cs).
  { apply (buffer_ok_frame st); [assumption|reflexivity|].
    destruct (str B); reflexivity. }
  split; [|repeat (split; [reflexivity|]); split; [assumption|]].
  - rewrite (add_lstring_eq fuel st a B cs s n Hok), Z.geb_leb.
    destruct (Z.leb_spec (cap B - len B) n); [|lia].
    now rewrite Hloop, Hdeny.
  - now rewrite (content_ok _ _ _ _ Hok), (content_ok _ _ _ _ Hok').
Qed.

Lemma failed_growth_changes_nothing_witness :
  exists st',
    sb_buffer_add_lstring 64 (Some 1%positive) (Heap 9%positive) 300 demo_stingy
    = Ret (0, st')
    /\ bufs st' = bufs demo_stingy /\ heap st' = heap demo_stingy
    /\ buffer_ok st' 1%positive (the_buffer demo_stingy 1%positive)
         (the_storage demo_stingy 1%positive)
    /\ content (Some 1%positive) st' = content (Some 1%positive) demo_stingy.
Proof.
  apply (failed_growth_changes_nothing 64 demo_stingy 1%positive
           (the_buffer demo_stingy 1%positive) (the_storage demo_stingy 1%positive)
           (Heap 9%positive) 300 512).
  - exact demo_stingy_ok.
  - vm_compute. discriminate.
  - vm_compute. reflexivity.
  - vm_compute. reflexivity.
Defined.

(** ** C4: inline until the capacity is reached *)

(** Appending 255 bytes to an empty buffer reaches [inline capacity - 1],
    and the buffer stays inline-backed. *)
Lemma switch_at_255_counterexample : ~ switches_at_capacity_minus_one.
Proof.
  intros Hswitch.
  destruct (Hswitch 64%nat demo_fresh 1%positive
              (the_buffer demo_fresh 1%positive) (the_storage demo_fresh 1%positive)
              (Heap 9%positive) 255
              (state_after (sb_buffer_add_lstring 64 (Some 1%positive) (Heap 9%positive) 255)
                 demo_fresh))
    as (B & h & HB & Hstr & _).
  - exact demo_fresh_ok.
  - vm_compute. reflexivity.
  - vm_compute. reflexivity.
  - vm_compute. discriminate.
  - vm_compute. reflexivity.
  - vm_compute in HB. injection HB as <-. discriminate Hstr.
Qed.

(** C4 (amended). A successful append to an inline-backed buffer leaves it
    inline-backed, without any allocation, as long as the new length is at
    most [inline capacity - 1] (255); the append that takes the length to
    the inline capacity (256) or more moves the buffer to a newly allocated
    heap block; a heap-backed buffer stays heap-backed; and in every case
    the prior content is the prefix of the new content. *)
Theorem inline_until_capacity fuel st a B cs s n st' :
  buffer_ok st a B cs ->
  sb_buffer_add_lstring fuel (Some a) s n st = Ret (1, st') ->
  (str B = InitOf a -> len B + n <= SB_BUFFER_INITIAL_CAP - 1 ->
   inline_backed st' a /\ heap st' = heap st /\ oracle st' = oracle st)
  /\ (str B = InitOf a -> SB_BUFFER_INITIAL_CAP <= len B + n ->
      heap_backed st' a /\ moved_to_heap st st' a)
  /\ (str B <> InitOf a -> heap_backed st' a)
  /\ (exists old new,
        content (Some a) st = Some old /\ content (Some a) st' = Some (old ++ new)).
Proof.
  intros Hok H.
  destruct (add_lstring_inv _ _ _ _ _ _ _ _ _ Hok H)
    as [(Hr & _)|(_ & B' & cs' & Hap)]; [discriminate|].
  pose proof (ap_ok _ _ _ _ _ _ _ _ _ Hap) as Hok'.
  pose proof (ok_size _ _ _ _ Hok) as Hsz. pose proof (ok_init _ _ _ _ Hok) as Hi.
  pose proof (ok_object _ _ _ _ Hok) as Ho.
  assert (Hheap' : forall h, str B' = Heap h -> heap_backed st' a).
  { intros h E. exists B', h. split; [apply Hok'|]. split; [assumption|].
    pose proof (ok_object _ _ _ _ Hok') as Ho'. rewrite E in Ho'. cbn in Ho'.
    now rewrite Ho'. }
  split; [|split; [|split]].
  - intros Hs Hle.
    assert (Hcap : cap B = SB_BUFFER_INITIAL_CAP).
    { rewrite Hs, (object_init _ _ _ (ok_lookup _ _ _ _ Hok)) in Ho.
      injection Ho as <-. lia. }
    destruct (ap_fit _ _ _ _ _ _ _ _ _ Hap) as (Hstr & _ & Hor & Hdom); [lia|].
    split; [|split; [|assumption]].
    + exists B'. split; [apply Hok'|congruence].
    + apply map_eq. intros h. destruct (heap st !! h) as [c|] eqn:E.
      * rewrite <- E. apply (ap_blocks _ _ _ _ _ _ _ _ _ Hap); [congruence|].
        now rewrite E.
      * apply not_elem_of_dom. rewrite Hdom. now apply not_elem_of_dom.
  - intros Hs Hge.
    assert (Hcap : cap B = SB_BUFFER_INITIAL_CAP).
    { rewrite Hs, (object_init _ _ _ (ok_lookup _ _ _ _ Hok)) in Ho.
      injection Ho as <-. lia. }
    destruct (ap_grow _ _ _ _ _ _ _ _ _ Hap) as (h' & Hstr & Hfree & _); [lia|].
    split; [eapply Hheap'; eauto|].
    exists B', h'. split; [apply Hok'|]. split; [assumption|]. split; [assumption|].
    pose proof (ok_object _ _ _ _ Hok') as Ho'. rewrite Hstr in Ho'. cbn in Ho'.
    now rewrite Ho'.
  - intros Hs.
    destruct (ok_str _ _ _ _ Hok) as [E|[h E]]; [contradiction|].
    destruct (Z.lt_ge_cases (len B + n) (cap B)) as [Hfit|Hgrow].
    + destruct (ap_fit _ _ _ _ _ _ _ _ _ Hap Hfit) as (Hstr & _).
      apply (Hheap' h). congruence.
    + destruct (ap_grow _ _ _ _ _ _ _ _ _ Hap Hgrow) as (h' & Hstr & _).
      eapply Hheap'; eauto.
  - exists (take (Z.to_nat (len B)) cs), (drop (Z.to_nat (len B)) (take (Z.to_nat (len B')) cs')).
    split; [apply (content_ok _ _ _ _ Hok)|].
    rewrite (content_ok _ _ _ _ Hok'). f_equal.
    rewrite <- (ap_old _ _ _ _ _ _ _ _ _ Hap).
    rewrite <- (take_drop (Z.to_nat (len B)) (take (Z.to_nat (len B')) cs')) at 1.
    f_equal. rewrite take_take. f_equal.
    pose proof (ap_len _ _ _ _ _ _ _ _ _ Hap). pose proof (ap_n _ _ _ _ _ _ _ _ _ Hap).
    pose proof (ok_len _ _ _ _ Hok). lia.
Qed.

Lemma inline_until_capacity_witness :
  (str (the_buffer demo_fresh 1%positive) = InitOf 1%positive ->
   len (the_buffer demo_fresh 1%positive) + 256 <= SB_BUFFER_INITIAL_CAP - 1 ->
   inline_backed demo_256 1%positive /\ heap demo_256 = heap demo_fresh
   /\ oracle demo_256 = oracle demo_fresh)
  /\ (str (the_buffer demo_fresh 1%positive) = InitOf 1%positive ->
      SB_BUFFER_INITIAL_CAP <= len (the_buffer demo_fresh 1%positive) + 256 ->
      heap_backed demo_256 1%positive /\ moved_to_heap demo_fresh demo_256 1%positive)
  /\ (str (the_buffer demo_fresh 1%positive) <> InitOf 1%positive ->
      heap_backed demo_256 1%positive)
  /\ (exists old new,
        content (Some 1%positive) demo_fresh = Some old
        /\ content (Some 1%positive) demo_256 = Some (old ++ new)).
Proof.
  apply (inline_until_capacity 64 demo_fresh 1%positive (the_buffer demo_fresh 1%positive)
           (the_storage demo_fresh 1%positive) (Heap 9%positive) 256 demo_256).
  - exact demo_fresh_ok.
  - vm_compute. reflexivity.
Defined.

(** ** C5: the doubling loop on a very large length *)

(** C5. On a freshly initialised buffer (length 0, capacity 256) and the
    append length 2^63, the doubling loop does not terminate: whatever the
    number of iterations allowed, [sb_buffer_add_lstring] is still in the
    loop ([nova_cap] runs through 256, 512, ..., 2^63, none above the
    required 2^63 + 1, and then wraps to 0 for good). *)
Theorem doubling_loop_never_ends fuel s :
  sb_buffer_add_lstring fuel (Some 1%positive) s (2 ^ 63) demo_fresh = OutOfFuel.
Proof.
  etransitivity;
    [exact (add_lstring_eq fuel demo_fresh 1%positive _ _ s (2 ^ 63) demo_fresh_ok)|].
  assert (Hc : cap (the_buffer demo_fresh 1%positive) = wrap (2 ^ Z.of_nat 8))
    by (vm_compute; reflexivity).
  assert (Hl : len (the_buffer demo_fresh 1%positive) = 0) by (vm_compute; reflexivity).
  rewrite Hc, Hl.
  replace (2 ^ 63 >=? wrap (2 ^ Z.of_nat 8) - 0) with true by (vm_compute; reflexivity).
  rewrite doubling_diverges; [reflexivity|].
  vm_compute. discriminate.
Qed.

(** ** C6: a null source *)

(** C6. On a valid buffer with room for [n] more bytes, an append of
    [n > 0] bytes from the null pointer does not return 0: it reaches
    [memcpy] with the null source, which is undefined behaviour. *)
Theorem null_source_is_undefined fuel st a B cs n :
  buffer_ok st a B cs ->
  0 < n -> n < cap B - len B ->
  sb_buffer_add_lstring fuel (Some a) NULL n st = Undefined.
Proof.
  intros Hok Hpos Hfit.
  rewrite (add_lstring_eq fuel st a B cs NULL n Hok), Z.geb_leb.
  destruct (Z.leb_spec (cap B - len B) n); [lia|].
  pose proof (ok_size _ _ _ _ Hok). pose proof (ok_len _ _ _ _ Hok).
  pose proof (ok_cap _ _ _ _ Hok). pose proof (ok_init _ _ _ _ Hok) as Hi.
  pose proof (ok_object _ _ _ _ Hok) as Ho.
  destruct (ok_str _ _ _ _ Hok) as [Hs|[h Hs]]; rewrite Hs in Ho.
  - rewrite (write_tail_inline st a B NULL n (ok_lookup _ _ _ _ Hok) Hs); [reflexivity|lia|].
    rewrite Hi. reflexivity.
  - cbn in Ho.
    rewrite (write_tail_heap st a B h cs NULL n (ok_lookup _ _ _ _ Hok) Hs Ho);
      [reflexivity|lia|lia].
Qed.

Lemma null_source_is_undefined_witness :
  sb_buffer_add_lstring 64 (Some 1%positive) NULL 1 demo_fresh = Undefined.
Proof.
  apply (null_source_is_undefined 64 demo_fresh 1%positive
           (the_buffer demo_fresh 1%positive) (the_storage demo_fresh 1%positive) 1).
  - exact demo_fresh_ok.
  - reflexivity.
  - vm_compute. reflexivity.
Defined.

(** ** C7: reset and finalize *)

(** C7. [sb_buffer_reset] and [sb_buffer_finalize] return the same result
    and leave the same state on every input, valid or not; on a valid
    buffer that is: 1 is returned, the heap block (if the buffer had one) is
    released, and the buffer is valid with length 0, the inline capacity,
    the inline storage active and the terminator at offset 0. *)
Theorem reset_finalize_identical b st :
  sb_buffer_reset b st = sb_buffer_finalize b st
  /\ (forall a B cs,
        b = Some a -> buffer_ok st a B cs ->
        exists st' B' cs',
          sb_buffer_reset b st = Ret (1, st')
          /\ buffer_ok st' a B' cs'
          /\ len B' = 0 /\ cap B' = SB_BUFFER_INITIAL_CAP /\ str B' = InitOf a
          /\ cs' !! 0%nat = Some (Some NUL)
          /\ heap st' = release (str B) (heap st)).
Proof.
  split; [apply reset_finalize_same|].
  intros a B cs -> Hok.
  eexists _, _, _. split; [apply (reset_eq _ _ _ _ Hok)|].
  split; [apply (reset_state_ok _ _ _ _ Hok)|].
  split; [reflexivity|]. split; [reflexivity|]. split; [reflexivity|].
  split; [|reflexivity].
  apply (lookup_splice_at 0). rewrite (ok_init _ _ _ _ Hok).
  unfold SB_BUFFER_INITIAL_CAP. lia.
Qed.

Lemma reset_finalize_identical_witness :
  sb_buffer_reset (Some 1%positive) demo_filled
  = sb_buffer_finalize (Some 1%positive) demo_filled
  /\ exists st' B' cs',
       sb_buffer_reset (Some 1%positive) demo_filled = Ret (1, st')
       /\ buffer_ok st' 1%positive B' cs'
       /\ len B' = 0 /\ cap B' = SB_BUFFER_INITIAL_CAP /\ str B' = InitOf 1%positive
       /\ cs' !! 0%nat = Some (Some NUL)
       /\ heap st' = release (str (the_buffer demo_filled 1%positive)) (heap demo_filled).
Proof.
  split.
  - apply (reset_finalize_identical (Some 1%positive) demo_filled).
  - apply (proj2 (reset_finalize_identical (Some 1%positive) demo_filled)
             1%positive (the_buffer demo_filled 1%positive)
             (the_storage demo_filled 1%positive) eq_refl demo_filled_ok).
Defined.

(** ** C8: a copy is an independent duplicate *)

(** C8. After a successful copy between two different valid buffers that
    share no storage, destination and source have the same content and the
    same length, the source is untouched, and appends to either of them
    (any number, whatever they return) leave the content of the other
    unchanged. *)
Theorem copy_is_independent fuel st src dest Bs css Bd csd st' :
  buffer_ok st src Bs css -> buffer_ok st dest Bd csd ->
  src <> dest -> str Bs <> str Bd ->
  sb_buffer_copy fuel (Some src) (Some dest) st = Ret (1, st') ->
  content (Some dest) st' = content (Some src) st'
  /\ content (Some src) st' = content (Some src) st
  /\ sb_buffer_get_len (Some dest) st' = Ret (len Bs, st')
  /\ sb_buffer_get_len (Some src) st' = Ret (len Bs, st')
  /\ (forall st'', appends_on src st' st'' ->
      content (Some dest) st'' = content (Some dest) st')
  /\ (forall st'', appends_on dest st' st'' ->
      content (Some src) st'' = content (Some src) st').
Proof.
  intros Hs Hd Hne Hsep H.
  destruct (copy_distinct fuel st src dest Bs css Bd csd 1 st' Hs Hd Hne Hsep H)
    as (Hs' & B' & cs' & Hd' & Hsep' & [Hr|(_ & Hlen & Htake)]); [discriminate|].
  rewrite (content_ok _ _ _ _ Hd'), (content_ok _ _ _ _ Hs'), (content_ok _ _ _ _ Hs).
  rewrite (get_len_ok _ _ _ _ Hd'), (get_len_ok _ _ _ _ Hs'), Hlen.
  rewrite Hlen in Htake.
  split; [now rewrite Htake|]. split; [reflexivity|].
  split; [reflexivity|]. split; [reflexivity|]. split.
  - intros st'' Happ.
    assert (Hd'' : buffer_ok st'' dest B' cs').
    { eapply (appends_on_frame src st' st'' Happ Bs css); eauto. }
    now rewrite (content_ok _ _ _ _ Hd''), Hlen.
  - intros st'' Happ.
    assert (Hs'' : buffer_ok st'' src Bs css).
    { eapply (appends_on_frame dest st' st'' Happ B' cs'); eauto. }
    now rewrite (content_ok _ _ _ _ Hs'').
Qed.

Lemma copy_is_independent_witness :
  content (Some 2%positive) demo_copied = content (Some 1%positive) demo_copied
  /\ content (Some 1%positive) demo_copied = content (Some 1%positive) demo_pair
  /\ sb_buffer_get_len (Some 2%positive) demo_copied
     = Ret (len (the_buffer demo_pair 1%positive), demo_copied)
  /\ sb_buffer_get_len (Some 1%positive) demo_copied
     = Ret (len (the_buffer demo_pair 1%positive), demo_copied)
  /\ (forall st'', appends_on 1%positive demo_copied st'' ->
      content (Some 2%positive) st'' = content (Some 2%positive) demo_copied)
  /\ (forall st'', appends_on 2%positive demo_copied st'' ->
      content (Some 1%positive) st'' = content (Some 1%positive) demo_copied).
Proof.
  apply (copy_is_independent 64 demo_pair 1%positive 2%positive
           (the_buffer demo_pair 1%positive) (the_storage demo_pair 1%positive)
           (the_buffer demo_pair 2%positive) (the_storage demo_pair 2%positive)
           demo_copied).
  - exact demo_pair_ok_1.
  - exact demo_pair_ok_2.
  - discriminate.
  - vm_compute. discriminate.
  - vm_compute. reflexivity.
Defined.

(** ** C9: clear keeps the storage *)

(** C9. On a valid buffer [sb_buffer_clear] returns 1; afterwards the
    length is 0 and the terminator is at offset 0, capacity and active
    storage are as before and no heap block was allocated or released; and
    an append of [n] bytes that fit in that capacity with their terminator
    ([n < cap]) does not touch the allocator: the storage pointer, the
    capacity and the set of heap blocks stay the same. *)
Theorem clear_keeps_storage st a B cs :
  buffer_ok st a B cs ->
  exists st' B' cs',
    sb_buffer_clear (Some a) st = Ret (1, st')
    /\ buffer_ok st' a B' cs'
    /\ len B' = 0 /\ cs' !! 0%nat = Some (Some NUL)
    /\ cap B' = cap B /\ str B' = str B
    /\ dom (heap st') = dom (heap st) /\ oracle st' = oracle st
    /\ (forall fuel s n r st'',
          n < cap B ->
          sb_buffer_add_lstring fuel (Some a) s n st' = Ret (r, st'') ->
          r = 1 /\ oracle st'' = oracle st' /\ dom (heap st'') = dom (heap st')
          /\ exists B'', bufs st'' !! a = Some B''
                         /\ str B'' = str B /\ cap B'' = cap B /\ len B'' = n).
Proof.
  intros Hok.
  destruct (clear_spec _ _ _ _ Hok)
    as (st' & B' & cs' & Hrun & Hok' & Hlen & Hcap & Hstr & Hor & Hdom & _).
  exists st', B', cs'. split; [assumption|]. split; [assumption|].
  split; [assumption|]. split.
  { pose proof (ok_nul _ _ _ _ Hok') as Hn. now rewrite Hlen in Hn. }
  split; [assumption|]. split; [assumption|]. split; [assumption|]. split; [assumption|].
  intros fuel s n r st'' Hn Happ.
  destruct (add_lstring_inv _ _ _ _ _ _ _ _ _ Hok' Happ)
    as [(_ & _ & _ & _ & _ & Hgrow)|(-> & B'' & cs'' & Hap)]; [lia|].
  destruct (ap_fit _ _ _ _ _ _ _ _ _ Hap) as (Hstr' & Hcap' & Hor' & Hdom'); [lia|].
  split; [reflexivity|]. split; [assumption|]. split; [assumption|].
  exists B''. split; [apply Hap|]. split; [congruence|]. split; [congruence|].
  rewrite (ap_len _ _ _ _ _ _ _ _ _ Hap). lia.
Qed.

Lemma clear_keeps_storage_witness :
  exists st' B' cs',
    sb_buffer_clear (Some 1%positive) demo_filled = Ret (1, st')
    /\ buffer_ok st' 1%positive B' cs'
    /\ len B' = 0 /\ cs' !! 0%nat = Some (Some NUL)
    /\ cap B' = cap (the_buffer demo_filled 1%positive)
    /\ str B' = str (the_buffer demo_filled 1%positive)
    /\ dom (heap st') = dom (heap demo_filled) /\ oracle st' = oracle demo_filled
    /\ (forall fuel s n r st'',
          n < cap (the_buffer demo_filled 1%positive) ->
          sb_buffer_add_lstring fuel (Some 1%positive) s n st' = Ret (r, st'') ->
          r = 1 /\ oracle st'' = oracle st' /\ dom (heap st'') = dom (heap st')
          /\ exists B'', bufs st'' !! 1%positive = Some B''
                         /\ str B'' = str (the_buffer demo_filled 1%positive)
                         /\ cap B'' = cap (the_buffer demo_filled 1%positive)
                         /\ len B'' = n).
Proof.
  apply (clear_keeps_storage demo_filled 1%positive (the_buffer demo_filled 1%positive)
           (the_storage demo_filled 1%positive)).
  exact demo_filled_ok.
Defined.

(** ** C10: copying a buffer onto itself *)

(** C10. Copying a valid buffer onto itself returns 1 and erases it:
    afterwards the length is 0, the content is empty and the buffer is
    inline-backed (its heap block, if it had one, is released), because the
    source's pointer and length are read after the destination was reset. *)
Theorem self_copy_erases fuel st a B cs :
  buffer_ok st a B cs ->
  exists st',
    sb_buffer_copy fuel (Some a) (Some a) st = Ret (1, st')
    /\ sb_buffer_get_len (Some a) st' = Ret (0, st')
    /\ content (Some a) st' = Some []
    /\ inline_backed st' a
    /\ heap st' = release (str B) (heap st).
Proof.
  intros Hok.
  destruct (copy_self fuel _ _ _ _ Hok)
    as (st' & B' & cs' & Hrun & Hok' & Hlen & Hstr & _ & Hheap).
  exists st'. split; [assumption|].
  rewrite (get_len_ok _ _ _ _ Hok'), (content_ok _ _ _ _ Hok'), Hlen.
  split; [reflexivity|]. split; [reflexivity|]. split; [|assumption].
  exists B'. split; [apply Hok'|assumption].
Qed.

Lemma self_copy_erases_witness :
  exists st',
    sb_buffer_copy 64 (Some 1%positive) (Some 1%positive) demo_filled = Ret (1, st')
    /\ sb_buffer_get_len (Some 1%positive) st' = Ret (0, st')
    /\ content (Some 1%positive) st' = Some []
    /\ inline_backed st' 1%positive
    /\ heap st' = release (str (the_buffer demo_filled 1%positive)) (heap demo_filled).
Proof.
  apply (self_copy_erases 64 demo_filled 1%positive (the_buffer demo_filled 1%positive)
           (the_storage demo_filled 1%positive)).
  exact demo_filled_ok.
Defined.

(** * Further properties of the code *)

(** ** Handles that fail the validity check *)

(** What [sb_buffer_isbuffer] tells: it leaves the state alone, and it
    returns 0 exactly when the check of the macro fails, 1 when [b] points to
    an [SB_Buffer] object with the magic number. *)
Lemma isbuffer_inv b st r st' :
  sb_buffer_isbuffer b st = Ret (r, st') ->
  st' = st
  /\ ((r = 0 /\ forall A (x : A) k, CHECK_SB_BUFFER_POINTER_RET b x k st = Ret (x, st))
      \/ (r = 1 /\ exists a B, b = Some a /\ bufs st !! a = Some B
                               /\ magic B = SB_BUFFER_MAGIC)).
Proof.
  unfold sb_buffer_isbuffer, CHECK_SB_BUFFER_POINTER_RET.
  destruct b as [a|]; [|intros [= <- <-]; split; [reflexivity|left; auto]].
  destruct (bufs st !! a) as [B|] eqn:HB.
  - exec. destruct (bool_decide (magic B ≠ SB_BUFFER_MAGIC)) eqn:Hm.
    + intros [= <- <-]. split; [reflexivity|]. left. split; [reflexivity|].
      intros A x k. exec. now rewrite Hm.
    + intros [= <- <-]. split; [reflexivity|]. right. split; [reflexivity|].
      exists a, B. repeat split; try assumption.
      apply bool_decide_eq_false_1 in Hm.
      destruct (decide (magic B = SB_BUFFER_MAGIC)); [assumption|contradiction].
  - unfold get_magic. rewrite bind_assoc. unfold bind at 1.
    rewrite load_buf_none by assumption. discriminate.
Qed.

(** The object at 2 in [demo_fresh] is not initialised. *)
Lemma demo_fresh_raw_2 :
  sb_buffer_isbuffer (Some 2%positive) demo_fresh = Ret (0, demo_fresh).
Proof. vm_compute. reflexivity. Qed.

(** X1. A handle that [sb_buffer_isbuffer] rejects (null, or an object
    without the magic number) is rejected by every other function: each
    returns its failure value (0, or [NULL] for [sb_buffer_get_str]) and
    leaves the whole state as it is; so does a copy to such a handle. *)
Theorem invalid_handle_is_rejected fuel b st :
  sb_buffer_isbuffer b st = Ret (0, st) ->
  (forall s n, sb_buffer_add_lstring fuel b s n st = Ret (0, st))
  /\ sb_buffer_get_str b st = Ret (NULL, st)
  /\ sb_buffer_get_len b st = Ret (0, st)
  /\ sb_buffer_finalize b st = Ret (0, st)
  /\ sb_buffer_reset b st = Ret (0, st)
  /\ sb_buffer_clear b st = Ret (0, st)
  /\ (forall dest, sb_buffer_copy fuel b dest st = Ret (0, st))
  /\ (forall src r, sb_buffer_isbuffer src st = Ret (r, st) ->
      sb_buffer_copy fuel src b st = Ret (0, st)).
Proof.
  intros Hb.
  destruct (isbuffer_inv _ _ _ _ Hb) as (_ & [(_ & Hfail)|(Hr & _)]); [|discriminate].
  repeat (split; [solve [intros; apply Hfail]|]).
  intros src r Hsrc.
  destruct (isbuffer_inv _ _ _ _ Hsrc) as (_ & [(_ & Hsfail)|(_ & a & B & -> & HB & Hm)]).
  - apply Hsfail.
  - unfold sb_buffer_copy. rewrite (check_valid st a B) by assumption.
    erewrite (bind_Ret (sb_buffer_isbuffer _)) by exact Hb. reflexivity.
Qed.

Lemma invalid_handle_is_rejected_witness :
  (forall s n, sb_buffer_add_lstring 64 (Some 2%positive) s n demo_fresh = Ret (0, demo_fresh))
  /\ sb_buffer_get_str (Some 2%positive) demo_fresh = Ret (NULL, demo_fresh)
  /\ sb_buffer_get_len (Some 2%positive) demo_fresh = Ret (0, demo_fresh)
  /\ sb_buffer_finalize (Some 2%positive) demo_fresh = Ret (0, demo_fresh)
  /\ sb_buffer_reset (Some 2%positive) demo_fresh = Ret (0, demo_fresh)
  /\ sb_buffer_clear (Some 2%positive) demo_fresh = Ret (0, demo_fresh)
  /\ (forall dest, sb_buffer_copy 64 (Some 2%positive) dest demo_fresh = Ret (0, demo_fresh))
  /\ (forall src r, sb_buffer_isbuffer src demo_fresh = Ret (r, demo_fresh) ->
      sb_buffer_copy 64 src (Some 2%positive) demo_fresh = Ret (0, demo_fresh)).
Proof.
  apply (invalid_handle_is_rejected 64 (Some 2%positive) demo_fresh).
  exact demo_fresh_raw_2.
Defined.

(** ** Validity is kept, other buffers are left alone *)

Lemma unchanged_ok st st' a B cs :
  buffer_ok st a B cs -> bufs st' = bufs st -> heap st' = heap st ->
  buffer_ok st' a B cs.
Proof.
  intros Hok Hb Hh. apply (buffer_ok_frame st); [assumption|congruence|].
  destruct (str B); cbn; congruence.
Qed.

(** The source of a copy, in the state after the reset of the destination. *)
Lemma copy_source_after_reset st src dest Bs css Bd csd :
  buffer_ok st src Bs css -> buffer_ok st dest Bd csd ->
  (src <> dest -> str Bs <> str Bd) ->
  exists Bs1 css1, buffer_ok (reset_state st dest Bd) src Bs1 css1
                   /\ (src <> dest -> Bs1 = Bs /\ css1 = css)
                   /\ (src = dest -> len Bs1 = 0 /\ str Bs1 = InitOf dest).
Proof.
  intros Hs Hd Hsep. destruct (decide (src = dest)) as [->|Hne].
  - eexists _, _. split; [apply (reset_state_ok _ _ _ _ Hd)|].
    split; [contradiction|]. intros _. split; reflexivity.
  - exists Bs, css. split; [apply (reset_frame st dest Bd csd); auto|].
    split; [auto|contradiction].
Qed.

(** A copy to [dest] leaves a valid buffer other than [dest] that shares no
    storage with it as it is. *)
Lemma copy_frame fuel st src dest Bs css Bd csd r st' a2 B2 cs2 :
  buffer_ok st src Bs css -> buffer_ok st dest Bd csd ->
  (src <> dest -> str Bs <> str Bd) ->
  sb_buffer_copy fuel (Some src) (Some dest) st = Ret (r, st') ->
  a2 <> dest -> buffer_ok st a2 B2 cs2 -> str B2 <> str Bd ->
  buffer_ok st' a2 B2 cs2.
Proof.
  intros Hs Hd Hsep H Hne Hok2 Hsep2.
  rewrite (copy_eq fuel st src dest Bs css Bd csd Hs Hd) in H.
  destruct (copy_source_after_reset st src dest Bs css Bd csd Hs Hd Hsep)
    as (Bs1 & css1 & Hs1 & _).
  erewrite (bind_Ret (get_str _)) in H by (apply get_str_eq; apply Hs1).
  erewrite (bind_Ret (get_len _)) in H by (apply get_len_eq; apply Hs1).
  cbv beta in H.
  eapply (add_lstring_frame fuel (reset_state st dest Bd) dest);
    [apply (reset_state_ok _ _ _ _ Hd) | exact H | assumption
    | apply (reset_frame st dest Bd csd); assumption | ].
  cbn. destruct (ok_str _ _ _ _ Hok2) as [E|[h E]]; rewrite E; congruence.
Qed.

(** X2. No operation that returns leaves its buffer invalid, whether it
    reports success or failure: construct, append, clear, reset, finalize
    and copy return 0 or 1, and afterwards the buffer operated on (and the
    source of a copy) is valid. *)
Theorem operations_keep_validity fuel o a st r st' :
  ready o a st ->
  run_operation fuel o a st = Ret (r, st') ->
  valid st' a /\ (forall src, o = CopyFrom src -> valid st' src) /\ (r = 0 \/ r = 1).
Proof.
  intros Hready H.
  destruct o as [|s n| | | |src]; cbn [ready run_operation] in *.
  - destruct Hready as (B0 & HB0 & Hi0). pose proof H as H'.
    rewrite (init_eq st a B0 HB0 Hi0) in H'. injection H' as <- <-.
    destruct (init_ok st a _ (ex_intro _ B0 (conj HB0 Hi0)) H) as (B & cs & Hok & _).
    split; [exists B, cs; assumption|]. split; [discriminate|now right].
  - destruct Hready as (B & cs & Hok).
    destruct (add_lstring_inv _ _ _ _ _ _ _ _ _ Hok H)
      as [(-> & Hb & Hh & _)|(-> & B' & cs' & Hap)].
    + split; [exists B, cs; eapply unchanged_ok; eauto|].
      split; [discriminate|now left].
    + split; [exists B', cs'; apply Hap|]. split; [discriminate|now right].
  - destruct Hready as (B & cs & Hok).
    destruct (clear_spec _ _ _ _ Hok) as (st1 & B' & cs' & Hrun & Hok' & _).
    rewrite Hrun in H. injection H as <- <-.
    split; [exists B', cs'; assumption|]. split; [discriminate|now right].
  - destruct Hready as (B & cs & Hok).
    rewrite (reset_eq _ _ _ _ Hok) in H. injection H as <- <-.
    split; [eexists _, _; apply (reset_state_ok _ _ _ _ Hok)|].
    split; [discriminate|now right].
  - destruct Hready as (B & cs & Hok).
    rewrite <- reset_finalize_same, (reset_eq _ _ _ _ Hok) in H. injection H as <- <-.
    split; [eexists _, _; apply (reset_state_ok _ _ _ _ Hok)|].
    split; [discriminate|now right].
  - destruct Hready as ((Bs & css & Hs) & (Bd & csd & Hd) & Hsep).
    assert (Hall : valid st' a /\ valid st' src /\ (r = 0 \/ r = 1)).
    { destruct (decide (src = a)) as [->|Hne].
      - destruct (copy_self fuel _ _ _ _ Hd) as (st1 & B' & cs' & Hrun & Hok' & _).
        rewrite Hrun in H. injection H as <- <-.
        split; [exists B', cs'; assumption|]. split; [exists B', cs'; assumption|now right].
      - destruct (copy_distinct fuel st src a Bs css Bd csd r st' Hs Hd Hne)
          as (Hs' & B' & cs' & Hd' & _ & Hr); [|assumption|].
        + apply (Hsep Hne); [apply Hs|apply Hd].
        + split; [exists B', cs'; assumption|]. split; [exists Bs, css; assumption|].
          destruct Hr as [Hr|(Hr & _)]; auto. }
    split; [apply Hall|]. split; [|apply Hall]. intros src' [= <-]. apply Hall.
Qed.

Lemma demo_pair_stingy_ok_1 :
  buffer_ok demo_pair_stingy 1%positive (the_buffer demo_pair_stingy 1%positive)
    (the_storage demo_pair_stingy 1%positive).
Proof. apply buffer_okb_sound. vm_compute. reflexivity. Qed.

Lemma demo_pair_stingy_ok_2 :
  buffer_ok demo_pair_stingy 2%positive (the_buffer demo_pair_stingy 2%positive)
    (the_storage demo_pair_stingy 2%positive).
Proof. apply buffer_okb_sound. vm_compute. reflexivity. Qed.

Lemma demo_pair_stingy_separate :
  1%positive <> 2%positive -> separate demo_pair_stingy 1%positive 2%positive.
Proof.
  intros _ B1 B2 H1 H2. vm_compute in H1. vm_compute in H2.
  injection H1 as <-. injection H2 as <-. discriminate.
Qed.

Lemma operations_keep_validity_witness :
  valid (state_after (sb_buffer_copy 64 (Some 1%positive) (Some 2%positive))
           demo_pair_stingy) 2%positive
  /\ (forall src, CopyFrom 1%positive = CopyFrom src ->
      valid (state_after (sb_buffer_copy 64 (Some 1%positive) (Some 2%positive))
               demo_pair_stingy) src)
  /\ (0 = 0 \/ 0 = 1).
Proof.
  apply (operations_keep_validity 64 (CopyFrom 1%positive) 2%positive demo_pair_stingy 0).
  - split; [exact (ex_intro _ _ (ex_intro _ _ demo_pair_stingy_ok_1))|].
    split; [exact (ex_intro _ _ (ex_intro _ _ demo_pair_stingy_ok_2))|].
    exact demo_pair_stingy_separate.
  - vm_compute. reflexivity.
Defined.

(** X3. An operation on one buffer leaves every other valid buffer that
    shares no storage with it exactly as it was: same fields, same storage,
    same bytes, whatever the operation returns. *)
Theorem operations_leave_other_buffers fuel o a st r st' a2 B2 cs2 :
  ready o a st ->
  run_operation fuel o a st = Ret (r, st') ->
  a2 <> a -> buffer_ok st a2 B2 cs2 -> separate st a2 a ->
  buffer_ok st' a2 B2 cs2
  /\ content (Some a2) st' = content (Some a2) st.
Proof.
  intros Hready H Hne Hok2 Hsep.
  assert (Hmain : buffer_ok st' a2 B2 cs2);
    [|split; [assumption|];
      now rewrite (content_ok _ _ _ _ Hmain), (content_ok _ _ _ _ Hok2)].
  destruct o as [|s n| | | |src]; cbn [ready run_operation] in *.
  - destruct Hready as (B0 & HB0 & Hi0).
    rewrite (init_eq st a B0 HB0 Hi0) in H. injection H as <- <-.
    apply (buffer_ok_frame st); [assumption| |].
    + cbn. now rewrite lookup_insert_ne by congruence.
    + destruct (ok_str _ _ _ _ Hok2) as [E|[h E]]; rewrite E; cbn; [|reflexivity].
      now rewrite lookup_insert_ne by congruence.
  - destruct Hready as (B & cs & Hok).
    apply (add_lstring_frame fuel st a B cs s n r st' a2 B2 cs2 Hok H Hne Hok2).
    apply Hsep; [apply Hok2|apply Hok].
  - destruct Hready as (B & cs & Hok).
    destruct (clear_spec _ _ _ _ Hok)
      as (st1 & B' & cs' & Hrun & _ & _ & _ & _ & _ & _ & Hothers & Hblocks).
    rewrite Hrun in H. injection H as <- <-.
    apply (buffer_ok_frame st); [assumption|now apply Hothers|].
    destruct (ok_str _ _ _ _ Hok2) as [E|[h E]]; rewrite E; cbn.
    + now rewrite Hothers.
    + apply Hblocks. rewrite <- E. intros E'. symmetry in E'. revert E'.
      apply Hsep; [apply Hok2|apply Hok].
  - destruct Hready as (B & cs & Hok).
    rewrite (reset_eq _ _ _ _ Hok) in H. injection H as <- <-.
    apply (reset_frame st a B cs); auto. apply Hsep; [apply Hok2|apply Hok].
  - destruct Hready as (B & cs & Hok).
    rewrite <- reset_finalize_same, (reset_eq _ _ _ _ Hok) in H. injection H as <- <-.
    apply (reset_frame st a B cs); auto. apply Hsep; [apply Hok2|apply Hok].
  - destruct Hready as ((Bs & css & Hs) & (Bd & csd & Hd) & Hsd).
    apply (copy_frame fuel st src a Bs css Bd csd r st' a2 B2 cs2 Hs Hd); auto.
    + intros Hsa. apply (Hsd Hsa); [apply Hs|apply Hd].
    + apply Hsep; [apply Hok2|apply Hd].
Qed.

Lemma demo_pair_separate_21 : separate demo_pair 2%positive 1%positive.
Proof.
  intros B1 B2 H1 H2. vm_compute in H1. vm_compute in H2.
  injection H1 as <-. injection H2 as <-. discriminate.
Qed.

Lemma operations_leave_other_buffers_witness :
  buffer_ok (state_after (sb_buffer_reset (Some 1%positive)) demo_pair) 2%positive
    (the_buffer demo_pair 2%positive) (the_storage demo_pair 2%positive)
  /\ content (Some 2%positive) (state_after (sb_buffer_reset (Some 1%positive)) demo_pair)
     = content (Some 2%positive) demo_pair.
Proof.
  apply (operations_leave_other_buffers 64 Reset 1%positive demo_pair 1).
  - exact (ex_intro _ _ (ex_intro _ _ demo_pair_ok_1)).
  - vm_compute. reflexivity.
  - discriminate.
  - exact demo_pair_ok_2.
  - exact demo_pair_separate_21.
Defined.

(** ** Construction and hard reset *)

Lemma splice_same (k : nat) (c : cell) (cs : list cell) :
  cs !! k = Some c -> splice (Z.of_nat k) [c] cs = cs.
Proof.
  intros H. unfold splice. rewrite Nat2Z.id. cbn [length app].
  rewrite <- (take_drop_middle cs k c H) at 3.
  now rewrite Nat.add_1_r.
Qed.

Lemma splice_nothing (off : Z) (cs : list cell) : splice off [] cs = cs.
Proof. unfold splice. cbn. rewrite Nat.add_0_r. apply take_drop. Qed.

(** X4. [sb_buffer_init] makes a valid, empty, inline-backed buffer of any
    [SB_Buffer] object, whatever it held before, and never touches the heap:
    it neither allocates nor frees.  So initialising a heap-backed buffer
    again leaves its block allocated with no buffer owning it. *)
Theorem init_never_frees st a :
  is_object st a ->
  exists st',
    sb_buffer_init (Some a) st = Ret (1, st')
    /\ valid st' a /\ inline_backed st' a
    /\ content (Some a) st' = Some []
    /\ heap st' = heap st /\ oracle st' = oracle st
    /\ (forall B h, bufs st !! a = Some B -> str B = Heap h ->
        heap st' !! h = heap st !! h /\ ~ heap_backed st' a).
Proof.
  intros Hobj. pose proof Hobj as (B0 & HB0 & Hi0).
  eexists. split; [apply (init_eq st a B0 HB0 Hi0)|].
  destruct (init_ok st a _ Hobj (init_eq st a B0 HB0 Hi0))
    as (B & cs & Hok & Hlen & Hstr & _ & Hheap & Hor & _).
  split; [exists B, cs; assumption|].
  split; [exists B; split; [apply Hok|assumption]|].
  split; [rewrite (content_ok _ _ _ _ Hok), Hlen; reflexivity|].
  split; [assumption|]. split; [assumption|].
  intros B1 h _ _. split; [now rewrite Hheap|].
  intros (B' & h' & HB' & Hs' & _).
  rewrite (ok_lookup _ _ _ _ Hok) in HB'. injection HB' as <-. congruence.
Qed.

Lemma init_never_frees_witness :
  exists st',
    sb_buffer_init (Some 1%positive) demo_filled = Ret (1, st')
    /\ valid st' 1%positive /\ inline_backed st' 1%positive
    /\ content (Some 1%positive) st' = Some []
    /\ heap st' = heap demo_filled /\ oracle st' = oracle demo_filled
    /\ (forall B h, bufs demo_filled !! 1%positive = Some B -> str B = Heap h ->
        heap st' !! h = heap demo_filled !! h /\ ~ heap_backed st' 1%positive).
Proof.
  apply (init_never_frees demo_filled 1%positive).
  exists (the_buffer demo_filled 1%positive).
  split; [apply demo_filled_ok|apply demo_filled_ok].
Defined.

(** X5. A hard reset can be repeated: after [sb_buffer_reset] or
    [sb_buffer_finalize] on a valid buffer, a second call of either returns
    1 and changes nothing.  The block was released once and is not freed
    again. *)
Theorem second_reset_changes_nothing st a B cs :
  buffer_ok st a B cs ->
  exists st1,
    sb_buffer_reset (Some a) st = Ret (1, st1)
    /\ sb_buffer_finalize (Some a) st = Ret (1, st1)
    /\ sb_buffer_reset (Some a) st1 = Ret (1, st1)
    /\ sb_buffer_finalize (Some a) st1 = Ret (1, st1).
Proof.
  intros Hok. exists (reset_state st a B).
  assert (Hagain : sb_buffer_reset (Some a) (reset_state st a B)
                   = Ret (1, reset_state st a B)).
  { rewrite (reset_eq _ _ _ _ (reset_state_ok _ _ _ _ Hok)).
    unfold reset_state, emptied. cbn. now rewrite insert_insert_eq. }
  split; [apply (reset_eq _ _ _ _ Hok)|].
  split; [rewrite <- reset_finalize_same; apply (reset_eq _ _ _ _ Hok)|].
  split; [assumption|]. now rewrite <- reset_finalize_same.
Qed.

Lemma second_reset_changes_nothing_witness :
  exists st1,
    sb_buffer_reset (Some 1%positive) demo_filled = Ret (1, st1)
    /\ sb_buffer_finalize (Some 1%positive) demo_filled = Ret (1, st1)
    /\ sb_buffer_reset (Some 1%positive) st1 = Ret (1, st1)
    /\ sb_buffer_finalize (Some 1%positive) st1 = Ret (1, st1).
Proof.
  apply (second_reset_changes_nothing demo_filled 1%positive
           (the_buffer demo_filled 1%positive) (the_storage demo_filled 1%positive)).
  exact demo_filled_ok.
Defined.

(** X6. A hard reset leaves exactly the state that releasing the buffer's
    heap block and constructing the buffer anew would leave. *)
Theorem reset_is_release_then_init st a B cs :
  buffer_ok st a B cs ->
  sb_buffer_reset (Some a) st
  = sb_buffer_init (Some a) (mkState (bufs st) (release (str B) (heap st)) (oracle st)).
Proof.
  intros Hok. rewrite (reset_eq _ _ _ _ Hok).
  erewrite init_eq; [|cbn; apply Hok|apply Hok].
  unfold reset_state, emptied. cbn. now rewrite (ok_magic _ _ _ _ Hok).
Qed.

Lemma reset_is_release_then_init_witness :
  sb_buffer_reset (Some 1%positive) demo_filled
  = sb_buffer_init (Some 1%positive)
      (mkState (bufs demo_filled)
         (release (str (the_buffer demo_filled 1%positive)) (heap demo_filled))
         (oracle demo_filled)).
Proof.
  apply (reset_is_release_then_init demo_filled 1%positive
           (the_buffer demo_filled 1%positive) (the_storage demo_filled 1%positive)).
  exact demo_filled_ok.
Defined.

(** ** Appends of nothing *)

Lemma appended_nothing blen scs cs :
  0 <= blen -> cs !! Z.to_nat blen = Some (Some NUL) ->
  appended blen 0 scs cs = cs.
Proof.
  intros Hb Hn. unfold appended. rewrite Z.add_0_r.
  change (slice 0 0 scs) with (@nil cell). rewrite splice_nothing.
  rewrite <- (Z2Nat.id blen) at 1 by assumption. now apply splice_same.
Qed.

Lemma tail_ok_nothing blen same scs cs :
  blen < size_of cs -> tail_ok blen 0 same scs cs = true.
Proof.
  intros H. unfold tail_ok.
  rewrite !andb_true_iff, negb_true_iff, !Z.leb_le, Z.ltb_lt.
  change (0 <? 0) with false. rewrite andb_false_r.
  pose proof (size_of_nonneg scs). repeat split; lia.
Qed.

(** X7. An append of 0 bytes from any live source returns 1 and leaves the
    whole state as it is: nothing is copied, the terminator is rewritten
    where it was, and the allocator is not called. *)
Theorem empty_append_changes_nothing fuel st a B cs s scs :
  buffer_ok st a B cs ->
  object s st = Some scs ->
  sb_buffer_add_lstring fuel (Some a) s 0 st = Ret (1, st).
Proof.
  intros Hok Hsrc. pose proof Hok as [HB Hm Hi Hs Ho Hsz Hl Hc Hn].
  rewrite (add_lstring_eq fuel st a B cs s 0 Hok), Z.geb_leb.
  destruct (Z.leb_spec (cap B - len B) 0); [lia|].
  destruct Hs as [Hs|[h Hs]]; rewrite Hs in Ho.
  - rewrite (object_init _ _ _ HB) in Ho. injection Ho as <-.
    rewrite (write_tail_inline st a B s 0 HB Hs) by lia.
    rewrite Hsrc, tail_ok_nothing by lia.
    rewrite appended_nothing by (assumption || lia). rewrite Z.add_0_r, <- Hs.
    replace (mkBuffer (magic B) (init B) (str B) (len B) (cap B)) with B
      by (now destruct B).
    rewrite insert_id by assumption. now destruct st.
  - cbn in Ho.
    rewrite (write_tail_heap st a B h cs s 0 HB Hs Ho) by lia.
    rewrite Hsrc, tail_ok_nothing by lia.
    rewrite appended_nothing by (assumption || lia). rewrite Z.add_0_r, <- Hs.
    replace (mkBuffer (magic B) (init B) (str B) (len B) (cap B)) with B
      by (now destruct B).
    rewrite !insert_id by assumption. now destruct st.
Qed.

Lemma empty_append_changes_nothing_witness :
  sb_buffer_add_lstring 0 (Some 1%positive) (Heap 7%positive) 0 demo_filled
  = Ret (1, demo_filled).
Proof.
  apply (empty_append_changes_nothing 0 demo_filled 1%positive
           (the_buffer demo_filled 1%positive) (the_storage demo_filled 1%positive)
           (Heap 7%positive) (cells_of hello)).
  - exact demo_filled_ok.
  - vm_compute. reflexivity.
Defined.

(** ** Growth *)

(** The state after an append that grew the storage. *)
Lemma add_lstring_grown_eq fuel st a B cs s n nova :
  buffer_ok st a B cs -> cap B - len B <= n ->
  doubling fuel (cap B) (len B) n = Some nova -> hd true (oracle st) = true ->
  sb_buffer_add_lstring fuel (Some a) s n st =
  match object s (grown st a B cs nova) with
  | Some scs =>
      if tail_ok (len B) n (bool_decide (Heap (fresh (dom (heap st))) = s)) scs
           (moved (str B) (len B) nova cs)
      then Ret (1, mkState
                     (<[a := mkBuffer (magic B) (init B) (Heap (fresh (dom (heap st))))
                                      (len B + n) nova]> (bufs st))
                     (<[fresh (dom (heap st))
                        := appended (len B) n scs (moved (str B) (len B) nova cs)]>
                        (release (str B) (heap st)))
                     (tl (oracle st)))
      else Undefined
  | None => Undefined
  end.
Proof.
  intros Hok Hgrow Hloop Hgrant. pose proof Hok as [HB Hm Hi Hs Ho Hsz Hl Hc Hn].
  pose proof (doubling_ge _ _ _ _ _ Hloop) as Hge.
  assert (Hrange : 0 <= nova < SIZE_MOD)
    by (eapply doubling_range; [|exact Hloop]; lia).
  destruct (moved_facts st a B cs nova Hok Hge) as [Hmsz _].
  rewrite (add_lstring_eq fuel st a B cs s n Hok), Z.geb_leb.
  destruct (Z.leb_spec (cap B - len B) n); [|lia].
  rewrite Hloop, Hgrant.
  erewrite (write_tail_heap (grown st a B cs nova) a _ (fresh (dom (heap st))));
    [ | apply lookup_insert_eq | reflexivity | apply lookup_insert_eq | cbn; lia | lia ].
  destruct (object s (grown st a B cs nova)) as [scs|]; [|reflexivity].
  cbn [len magic init cap]. destruct (tail_ok _ _ _ _ _); [|reflexivity].
  unfold grown. cbn [bufs heap oracle]. now rewrite !insert_insert_eq.
Qed.

(** What a successful append that had to grow the storage has done. *)
Lemma add_lstring_growth_inv fuel st a B cs s n st' :
  buffer_ok st a B cs -> cap B <= len B + n ->
  sb_buffer_add_lstring fuel (Some a) s n st = Ret (1, st') ->
  exists nova scs,
    doubling fuel (cap B) (len B) n = Some nova
    /\ hd true (oracle st) = true
    /\ len B + n < nova < SIZE_MOD
    /\ st' = mkState
               (<[a := mkBuffer (magic B) (init B) (Heap (fresh (dom (heap st))))
                                (len B + n) nova]> (bufs st))
               (<[fresh (dom (heap st))
                  := appended (len B) n scs (moved (str B) (len B) nova cs)]>
                  (release (str B) (heap st)))
               (tl (oracle st)).
Proof.
  intros Hok Hgrow H. pose proof H as H0.
  rewrite (add_lstring_eq fuel st a B cs s n Hok), Z.geb_leb in H0.
  destruct (Z.leb_spec (cap B - len B) n); [|lia].
  destruct (doubling fuel (cap B) (len B) n) as [nova|] eqn:Hloop; [|discriminate].
  destruct (hd true (oracle st)) eqn:Hgrant; [|discriminate]. clear H0.
  rewrite (add_lstring_grown_eq fuel st a B cs s n nova Hok) in H by (assumption || lia).
  destruct (object s (grown st a B cs nova)) as [scs|]; [|discriminate].
  destruct (tail_ok _ _ _ _ _) eqn:Htail; [|discriminate].
  injection H as <-. exists nova, scs. repeat (split; [reflexivity|]).
  pose proof (ok_len _ _ _ _ Hok). pose proof (ok_cap _ _ _ _ Hok).
  pose proof (doubling_ge _ _ _ _ _ Hloop) as Hge.
  assert (Hrange : 0 <= nova < SIZE_MOD)
    by (eapply doubling_range; [|exact Hloop]; lia).
  destruct (moved_facts st a B cs nova Hok Hge) as [Hmsz _].
  apply tail_ok_facts in Htail as (_ & Hlt & _). rewrite Hmsz in Hlt.
  split; [lia|reflexivity].
Qed.

Lemma doubling_zero fuel blen n : doubling fuel 0 blen n = None.
Proof.
  induction fuel as [|fuel IH]; simpl;
    destruct (Z.leb_spec 0 (wrap (wrap (blen + n) + 1))) as [_|Hlt];
    try reflexivity; try (pose proof (wrap_range (wrap (blen + n) + 1)); lia).
  exact IH.
Qed.

Lemma wrap_pow2 (j : nat) :
  wrap (2 ^ Z.of_nat j) = if Z.of_nat j <? SIZE_BITS then 2 ^ Z.of_nat j else 0.
Proof.
  destruct (Z.ltb_spec (Z.of_nat j) SIZE_BITS) as [Hj|Hj].
  - apply wrap_small. unfold SIZE_MOD. split; [apply Z.pow_nonneg; lia|].
    apply Z.pow_lt_mono_r; unfold SIZE_BITS in *; lia.
  - unfold wrap, SIZE_MOD.
    replace (Z.of_nat j) with (SIZE_BITS + (Z.of_nat j - SIZE_BITS)) by lia.
    rewrite Z.pow_add_r, Z.mul_comm by (unfold SIZE_BITS in *; lia).
    apply Z.mod_mul. unfold SIZE_BITS. lia.
Qed.

(** From a power of two the loop ends on a power of two, the smallest one
    above the required size that is not below the start. *)
Lemma doubling_pow2 fuel (j : nat) blen n nova :
  Z.of_nat j < SIZE_BITS ->
  doubling fuel (2 ^ Z.of_nat j) blen n = Some nova ->
  exists k : nat,
    (j <= k)%nat /\ Z.of_nat k < SIZE_BITS /\ nova = 2 ^ Z.of_nat k
    /\ wrap (wrap (blen + n) + 1) < nova
    /\ (k = j \/ 2 ^ Z.of_nat k <= 2 * wrap (wrap (blen + n) + 1)).
Proof.
  revert j. induction fuel as [|fuel IH]; intros j Hj; simpl;
    destruct (Z.leb_spec (2 ^ Z.of_nat j) (wrap (wrap (blen + n) + 1))) as [Hle|Hgt];
    try discriminate;
    try (intros [= <-]; exists j; repeat split; auto; lia).
  replace (wrap (2 ^ Z.of_nat j * 2)) with (wrap (2 ^ Z.of_nat (S j)))
    by (rewrite Nat2Z.inj_succ, Z.pow_succ_r by lia; f_equal; lia).
  rewrite wrap_pow2.
  destruct (Z.ltb_spec (Z.of_nat (S j)) SIZE_BITS) as [Hj'|Hj'];
    [|rewrite doubling_zero; discriminate].
  intros H. destruct (IH (S j) Hj' H) as (k & Hk & Hk64 & -> & Hex & Hmin).
  exists k. split; [lia|]. split; [assumption|]. split; [reflexivity|].
  split; [assumption|]. right. destruct Hmin as [->|Hmin]; [|assumption].
  rewrite Nat2Z.inj_succ, Z.pow_succ_r by lia. lia.
Qed.

(** An append that fits leaves the heap as it is apart from the buffer's
    own block. *)
Lemma fit_keeps_other_blocks st a B cs s n st' B' cs' :
  buffer_ok st a B cs ->
  appended_to st a B cs s n st' B' cs' -> len B + n < cap B ->
  release (str B') (heap st') = release (str B) (heap st).
Proof.
  intros Hok Hap Hfit.
  destruct (ap_fit _ _ _ _ _ _ _ _ _ Hap Hfit) as (-> & _ & _ & Hdom).
  assert (Hother : forall i, str B <> Heap i -> heap st' !! i = heap st !! i).
  { intros i Hi. destruct (heap st !! i) as [c|] eqn:E.
    - rewrite <- E. apply (ap_blocks _ _ _ _ _ _ _ _ _ Hap); [assumption|].
      now rewrite E.
    - apply not_elem_of_dom. rewrite Hdom. now apply not_elem_of_dom. }
  apply map_eq. intros i. destruct (str B) as [|x|h] eqn:E; cbn.
  - apply Hother. discriminate.
  - apply Hother. discriminate.
  - destruct (decide (h = i)) as [->|Hne].
    + now rewrite !lookup_delete_eq.
    + rewrite !lookup_delete_ne by assumption. apply Hother. congruence.
Qed.

Lemma release_fresh (p : ptr) (hm : gmap block (list cell)) :
  release p hm !! fresh (dom hm) = None.
Proof.
  destruct p as [|x|h]; cbn; try apply fresh_block_free.
  destruct (decide (h = fresh (dom hm))) as [->|Hne].
  - apply lookup_delete_eq.
  - rewrite lookup_delete_ne by assumption. apply fresh_block_free.
Qed.

(** One append, whatever it returns: the buffer stays valid, capacity and
    length do not go down, the heap apart from the buffer's own block is as
    before, and a capacity that was a power of two is one again. *)
Lemma add_lstring_step fuel st a B cs s n r st' :
  buffer_ok st a B cs ->
  sb_buffer_add_lstring fuel (Some a) s n st = Ret (r, st') ->
  exists B' cs',
    buffer_ok st' a B' cs'
    /\ cap B <= cap B' /\ len B <= len B'
    /\ release (str B') (heap st') = release (str B) (heap st)
    /\ (capacity_shape B -> capacity_shape B').
Proof.
  intros Hok H.
  destruct (add_lstring_inv _ _ _ _ _ _ _ _ _ Hok H)
    as [(_ & Hb & Hh & _)|(-> & B' & cs' & Hap)].
  - exists B, cs. split; [eapply unchanged_ok; eauto|].
    split; [lia|]. split; [lia|]. split; [now rewrite Hh|auto].
  - exists B', cs'. split; [apply Hap|].
    pose proof (ap_len _ _ _ _ _ _ _ _ _ Hap) as Hlen.
    pose proof (ap_n _ _ _ _ _ _ _ _ _ Hap) as Hn.
    destruct (Z.lt_ge_cases (len B + n) (cap B)) as [Hfit|Hgrow].
    + destruct (ap_fit _ _ _ _ _ _ _ _ _ Hap Hfit) as (_ & Hcap & _).
      split; [lia|]. split; [lia|].
      split; [eapply fit_keeps_other_blocks; eauto|].
      intros (k & Hk). exists k. now rewrite Hcap.
    + destruct (add_lstring_growth_inv fuel st a B cs s n st' Hok Hgrow H)
        as (nova & scs & Hloop & _ & Hnova & ->).
      pose proof (ok_lookup _ _ _ _ (ap_ok _ _ _ _ _ _ _ _ _ Hap)) as HB'.
      cbn in HB'. rewrite lookup_insert_eq in HB'. injection HB' as <-. cbn.
      split; [lia|]. split; [lia|]. split.
      * rewrite delete_insert_eq. apply delete_id. apply release_fresh.
      * intros (k & Hk8 & Hk64 & Hcap). rewrite Hcap in Hloop.
        destruct (doubling_pow2 fuel k (len B) n nova Hk64 Hloop)
          as (k' & Hk' & Hk'64 & -> & _).
        exists k'. split; [lia|]. split; [assumption|reflexivity].
Qed.

(** The same for any number of appends. *)
Lemma appends_on_inv a st st' :
  appends_on a st st' ->
  forall B cs,
    buffer_ok st a B cs ->
    exists B' cs',
      buffer_ok st' a B' cs'
      /\ cap B <= cap B' /\ len B <= len B'
      /\ release (str B') (heap st') = release (str B) (heap st)
      /\ (capacity_shape B -> capacity_shape B').
Proof.
  induction 1 as [st|fuel s n r st st1 st2 Hcall _ IH]; intros B cs Hok.
  - exists B, cs. split; [assumption|]. split; [lia|]. split; [lia|]. split; auto.
  - destruct (add_lstring_step _ _ _ _ _ _ _ _ _ Hok Hcall)
      as (B1 & cs1 & Hok1 & Hcap1 & Hlen1 & Hrel1 & Hshape1).
    destruct (IH B1 cs1 Hok1) as (B2 & cs2 & Hok2 & Hcap2 & Hlen2 & Hrel2 & Hshape2).
    exists B2, cs2. split; [assumption|]. split; [lia|]. split; [lia|].
    split; [congruence|auto].
Qed.

Lemma append_all_appends_on fuel a items :
  forall st st',
    append_all fuel (Some a) items st = Some st' -> appends_on a st st'.
Proof.
  induction items as [|[s bs] rest IH]; intros st st' H.
  - injection H as <-. apply appends_done.
  - apply append_all_cons in H as (st1 & _ & Hcall & Hrest).
    eapply appends_step; [exact Hcall|]. now apply IH.
Qed.

Lemma demo_appends : appends_on 1%positive demo_fresh demo_filled.
Proof. apply (append_all_appends_on 64 1%positive demo_items). vm_compute. reflexivity. Qed.

Lemma demo_is_object_1 : is_object demo 1%positive.
Proof. exists demo_raw. split; vm_compute; reflexivity. Qed.

Lemma demo_init_1 : sb_buffer_init (Some 1%positive) demo = Ret (1, demo_fresh).
Proof. vm_compute. reflexivity. Qed.

Lemma fresh_capacity_shape st a st' B cs :
  is_object st a -> sb_buffer_init (Some a) st = Ret (1, st') ->
  buffer_ok st' a B cs -> capacity_shape B /\ str B = InitOf a /\ heap st' = heap st.
Proof.
  intros Hobj Hinit Hok.
  destruct (init_ok _ _ _ Hobj Hinit) as (B1 & cs1 & Hok1 & _ & Hstr & Hcap & Hheap & _).
  pose proof (ok_lookup _ _ _ _ Hok) as E. rewrite (ok_lookup _ _ _ _ Hok1) in E.
  injection E as ->. split; [|split; assumption].
  exists 8%nat. split; [lia|]. split; [reflexivity|exact Hcap].
Qed.

(** X8. From the construction on, through any number of appends (failed
    ones included), the capacity of the buffer is a power of two between
    2^8 = 256 and 2^63. *)
Theorem capacity_is_power_of_two st0 a st1 st2 :
  is_object st0 a ->
  sb_buffer_init (Some a) st0 = Ret (1, st1) ->
  appends_on a st1 st2 ->
  exists B cs (k : nat),
    buffer_ok st2 a B cs /\ cap B = 2 ^ Z.of_nat k
    /\ (8 <= k)%nat /\ Z.of_nat k < SIZE_BITS.
Proof.
  intros Hobj Hinit Hrun.
  destruct (init_ok _ _ _ Hobj Hinit) as (B1 & cs1 & Hok1 & _).
  destruct (fresh_capacity_shape _ _ _ _ _ Hobj Hinit Hok1) as (Hshape & _).
  destruct (appends_on_inv _ _ _ Hrun B1 cs1 Hok1) as (B & cs & Hok & _ & _ & _ & Hs).
  destruct (Hs Hshape) as (k & Hk8 & Hk64 & Hcap).
  exists B, cs, k. auto.
Qed.

Lemma capacity_is_power_of_two_witness :
  exists B cs (k : nat),
    buffer_ok demo_filled 1%positive B cs /\ cap B = 2 ^ Z.of_nat k
    /\ (8 <= k)%nat /\ Z.of_nat k < SIZE_BITS.
Proof.
  apply (capacity_is_power_of_two demo 1%positive demo_fresh demo_filled).
  - exact demo_is_object_1.
  - exact demo_init_1.
  - exact demo_appends.
Defined.

(** X9. Appends never shrink a buffer: after any number of them, whatever
    they return, capacity and length are at least what they were. *)
Theorem appends_never_shrink a st st' B cs :
  buffer_ok st a B cs ->
  appends_on a st st' ->
  exists B' cs', buffer_ok st' a B' cs' /\ cap B <= cap B' /\ len B <= len B'.
Proof.
  intros Hok Hrun.
  destruct (appends_on_inv _ _ _ Hrun B cs Hok) as (B' & cs' & Hok' & Hcap & Hlen & _).
  exists B', cs'. auto.
Qed.

Lemma appends_never_shrink_witness :
  exists B' cs',
    buffer_ok demo_filled 1%positive B' cs'
    /\ cap (the_buffer demo_fresh 1%positive) <= cap B'
    /\ len (the_buffer demo_fresh 1%positive) <= len B'.
Proof.
  apply (appends_never_shrink 1%positive demo_fresh demo_filled
           (the_buffer demo_fresh 1%positive) (the_storage demo_fresh 1%positive)).
  - exact demo_fresh_ok.
  - exact demo_appends.
Defined.

(** X10. When an append has to grow a buffer whose capacity is a power of
    two, the new capacity is the smallest power of two above
    [length + len + 1]: it exceeds the required size and is at most twice
    that. *)
Theorem growth_is_minimal fuel st a B cs s n st' (j : nat) :
  buffer_ok st a B cs ->
  cap B = 2 ^ Z.of_nat j ->
  cap B <= len B + n ->
  sb_buffer_add_lstring fuel (Some a) s n st = Ret (1, st') ->
  exists B' (k : nat),
    bufs st' !! a = Some B' /\ cap B' = 2 ^ Z.of_nat k /\ (j < k)%nat
    /\ len B + n + 1 < cap B' /\ cap B' <= 2 * (len B + n + 1).
Proof.
  intros Hok Hcap Hgrow H.
  destruct (add_lstring_growth_inv fuel st a B cs s n st' Hok Hgrow H)
    as (nova & scs & Hloop & _ & Hnova & ->).
  pose proof (ok_len _ _ _ _ Hok) as Hl. pose proof (ok_cap _ _ _ _ Hok) as Hc.
  assert (Hj : Z.of_nat j < SIZE_BITS).
  { rewrite Hcap in Hc. unfold SIZE_MOD in Hc.
    apply (Z.pow_lt_mono_r_iff 2); [lia|unfold SIZE_BITS; lia|assumption]. }
  rewrite Hcap in Hloop.
  destruct (doubling_pow2 fuel j (len B) n nova Hj Hloop)
    as (k & Hjk & Hk64 & -> & Hex & Hmin).
  assert (Hreq : wrap (wrap (len B + n) + 1) = len B + n + 1)
    by (rewrite (wrap_small (len B + n)) by lia; apply wrap_small; lia).
  rewrite Hreq in *.
  eexists _, k. split; [cbn; apply lookup_insert_eq|]. cbn.
  split; [reflexivity|].
  destruct Hmin as [->|Hmin]; [lia|].
  assert (k <> j) by (intros ->; lia).
  split; [lia|]. split; [lia|assumption].
Qed.

Lemma growth_is_minimal_witness :
  exists B' (k : nat),
    bufs demo_256 !! 1%positive = Some B' /\ cap B' = 2 ^ Z.of_nat k /\ (8 < k)%nat
    /\ len (the_buffer demo_fresh 1%positive) + 256 + 1 < cap B'
    /\ cap B' <= 2 * (len (the_buffer demo_fresh 1%positive) + 256 + 1).
Proof.
  apply (growth_is_minimal 64 demo_fresh 1%positive (the_buffer demo_fresh 1%positive)
           (the_storage demo_fresh 1%positive) (Heap 9%positive) 256 demo_256 8).
  - exact demo_fresh_ok.
  - vm_compute. reflexivity.
  - vm_compute. discriminate.
  - vm_compute. reflexivity.
Defined.

(** X11. An append that grows the storage gives up the old heap block (if
    the buffer had one) and holds exactly one new block: the heap afterwards
    is the heap before, without the buffer's old block, with the new one. *)
Theorem growth_replaces_block fuel st a B cs s n st' :
  buffer_ok st a B cs ->
  cap B <= len B + n ->
  sb_buffer_add_lstring fuel (Some a) s n st = Ret (1, st') ->
  exists h' B' cs',
    heap st !! h' = None
    /\ buffer_ok st' a B' cs' /\ str B' = Heap h'
    /\ heap st' = <[h' := cs']> (release (str B) (heap st))
    /\ bufs st' = <[a := B']> (bufs st).
Proof.
  intros Hok Hgrow H.
  destruct (add_lstring_inv _ _ _ _ _ _ _ _ _ Hok H)
    as [(Hr & _)|(_ & B' & cs' & Hap)]; [discriminate|].
  destruct (add_lstring_growth_inv fuel st a B cs s n st' Hok Hgrow H)
    as (nova & scs & _ & _ & _ & E).
  pose proof (ap_ok _ _ _ _ _ _ _ _ _ Hap) as Hok'.
  pose proof (ok_lookup _ _ _ _ Hok') as HB'. pose proof (ok_object _ _ _ _ Hok') as Ho'.
  subst st'. cbn in HB'. rewrite lookup_insert_eq in HB'. injection HB' as <-.
  cbn in Ho'. rewrite lookup_insert_eq in Ho'. injection Ho' as <-.
  eexists _, _, _. split; [apply fresh_block_free|]. split; [exact Hok'|].
  split; [reflexivity|]. split; reflexivity.
Qed.

Lemma growth_replaces_block_witness :
  exists h' B' cs',
    heap demo_fresh !! h' = None
    /\ buffer_ok demo_256 1%positive B' cs' /\ str B' = Heap h'
    /\ heap demo_256
       = <[h' := cs']> (release (str (the_buffer demo_fresh 1%positive)) (heap demo_fresh))
    /\ bufs demo_256 = <[1%positive := B']> (bufs demo_fresh).
Proof.
  apply (growth_replaces_block 64 demo_fresh 1%positive (the_buffer demo_fresh 1%positive)
           (the_storage demo_fresh 1%positive) (Heap 9%positive) 256 demo_256).
  - exact demo_fresh_ok.
  - vm_compute. discriminate.
  - vm_compute. reflexivity.
Defined.

(** X12. A buffer's whole life leaks nothing: after the construction, any
    number of appends and the final [sb_buffer_finalize], the heap holds
    exactly the blocks it held before the construction, and the buffer is a
    valid, inline-backed one again. *)
Theorem lifecycle_frees_everything st0 a st1 st2 :
  is_object st0 a ->
  sb_buffer_init (Some a) st0 = Ret (1, st1) ->
  appends_on a st1 st2 ->
  exists st3 B3 cs3,
    sb_buffer_finalize (Some a) st2 = Ret (1, st3)
    /\ heap st3 = heap st0
    /\ buffer_ok st3 a B3 cs3 /\ str B3 = InitOf a /\ len B3 = 0.
Proof.
  intros Hobj Hinit Hrun.
  destruct (init_ok _ _ _ Hobj Hinit) as (B1 & cs1 & Hok1 & _ & Hstr1 & _ & Hheap1 & _).
  destruct (appends_on_inv _ _ _ Hrun B1 cs1 Hok1) as (B2 & cs2 & Hok2 & _ & _ & Hrel & _).
  rewrite Hstr1 in Hrel. cbn [release] in Hrel.
  eexists _, _, _. split.
  - rewrite <- reset_finalize_same. exact (reset_eq st2 a B2 cs2 Hok2).
  - split; [cbn; congruence|].
    split; [exact (reset_state_ok st2 a B2 cs2 Hok2)|]. split; reflexivity.
Qed.

Lemma lifecycle_frees_everything_witness :
  exists st3 B3 cs3,
    sb_buffer_finalize (Some 1%positive) demo_filled = Ret (1, st3)
    /\ heap st3 = heap demo
    /\ buffer_ok st3 1%positive B3 cs3 /\ str B3 = InitOf 1%positive /\ len B3 = 0.
Proof.
  apply (lifecycle_frees_everything demo 1%positive demo_fresh demo_filled).
  - exact demo_is_object_1.
  - exact demo_init_1.
  - exact demo_appends.
Defined.

Lemma wrap_once z : SIZE_MOD <= z < 2 * SIZE_MOD -> wrap z = z - SIZE_MOD.
Proof.
  intros H. unfold wrap.
  replace z with (z - SIZE_MOD + 1 * SIZE_MOD) at 1 by lia.
  rewrite Z_mod_plus_full. apply Z.mod_small. lia.
Qed.

Lemma doubling_no_round fuel c blen n :
  wrap (wrap (blen + n) + 1) < c -> doubling fuel c blen n = Some c.
Proof.
  intros H. destruct fuel; simpl;
    destruct (Z.leb_spec c (wrap (wrap (blen + n) + 1))); try lia; reflexivity.
Qed.

(** X13. An append whose new length plus terminator does not fit [size_t]
    never succeeds: [b->len + len + 1] wraps around, the doubling loop is
    left at once with the old capacity, and the copy that follows runs past
    the end of the storage; the call is undefined, or returns 0 when the
    allocator refuses the (useless) request. *)
Theorem oversized_append_overruns fuel st a B cs s n :
  buffer_ok st a B cs ->
  0 <= n < SIZE_MOD ->
  SIZE_MOD <= len B + n + 1 ->
  sb_buffer_add_lstring fuel (Some a) s n st =
  if hd true (oracle st) then Undefined
  else Ret (0, mkState (bufs st) (heap st) (tl (oracle st))).
Proof.
  intros Hok Hn Hover.
  pose proof (ok_len _ _ _ _ Hok) as Hl. pose proof (ok_cap _ _ _ _ Hok) as Hc.
  assert (Hreq : wrap (wrap (len B + n) + 1) < cap B).
  { destruct (Z.eq_dec (len B + n + 1) SIZE_MOD) as [E|E].
    - rewrite (wrap_small (len B + n)) by lia.
      replace (len B + n + 1) with SIZE_MOD by lia.
      unfold wrap. rewrite Z_mod_same_full. lia.
    - rewrite (wrap_once (len B + n)) by lia.
      rewrite wrap_small by lia. lia. }
  pose proof (doubling_no_round fuel (cap B) (len B) n Hreq) as Hloop.
  destruct (hd true (oracle st)) eqn:Hgrant.
  - rewrite (add_lstring_grown_eq fuel st a B cs s n (cap B) Hok) by (assumption || lia).
    destruct (object s (grown st a B cs (cap B))) as [scs|]; [|reflexivity].
    destruct (tail_ok _ _ _ _ _) eqn:Ht; [|reflexivity].
    apply tail_ok_facts in Ht as (_ & Ht & _).
    destruct (moved_facts st a B cs (cap B) Hok) as [Hsz _]; [lia|].
    rewrite Hsz in Ht. lia.
  - rewrite (add_lstring_eq fuel st a B cs s n Hok), Hloop, Hgrant.
    destruct (Z.geb_spec n (cap B - len B)); [reflexivity|lia].
Qed.

Lemma oversized_append_overruns_witness :
  sb_buffer_add_lstring 0 (Some 1%positive) (Heap 9%positive) (SIZE_MOD - 1) demo_fresh =
  if hd true (oracle demo_fresh) then Undefined
  else Ret (0, mkState (bufs demo_fresh) (heap demo_fresh) (tl (oracle demo_fresh))).
Proof.
  apply (oversized_append_overruns 0 demo_fresh 1%positive
           (the_buffer demo_fresh 1%positive) (the_storage demo_fresh 1%positive)).
  - exact demo_fresh_ok.
  - vm_compute. split; [discriminate|reflexivity].
  - vm_compute. discriminate.
Defined.

(** X14. Appending to a heap-backed buffer from its own storage is
    undefined as soon as the append has to grow the buffer: [realloc] ends
    the life of the old block, and the copy then reads the source through
    the old pointer. *)
Theorem self_append_after_realloc fuel st a B cs h n :
  buffer_ok st a B cs ->
  str B = Heap h ->
  cap B <= len B + n ->
  len B + n + 1 < 2 ^ (SIZE_BITS - 1) ->
  (64 <= fuel)%nat ->
  hd true (oracle st) = true ->
  sb_buffer_add_lstring fuel (Some a) (Heap h) n st = Undefined.
Proof.
  intros Hok Hstr Hgrow Hhalf Hfuel Hgrant.
  pose proof (ok_len _ _ _ _ Hok) as Hl.
  pose proof (ok_object _ _ _ _ Hok) as Ho. rewrite Hstr in Ho. cbn in Ho.
  assert (Hpow : 2 ^ (SIZE_BITS - 1) < SIZE_MOD) by reflexivity.
  assert (Hreq : wrap (wrap (len B + n) + 1) = len B + n + 1)
    by (rewrite (wrap_small (len B + n)) by lia; apply wrap_small; lia).
  destruct (doubling_64 fuel (cap B) (len B) n) as [nova Hloop];
    [lia | rewrite Hreq; lia | assumption |].
  rewrite (add_lstring_grown_eq fuel st a B cs (Heap h) n nova Hok) by (assumption || lia).
  assert (Hgone : object (Heap h) (grown st a B cs nova) = None).
  { unfold grown. cbn [object heap]. rewrite Hstr. cbn [release].
    rewrite lookup_insert_ne.
    - apply lookup_delete_eq.
    - intros E. pose proof (fresh_block_free (heap st)) as Hf. rewrite E in Hf. congruence. }
  now rewrite Hgone.
Qed.

Lemma self_append_after_realloc_witness :
  sb_buffer_add_lstring 64 (Some 1%positive) (Heap 11%positive) 500 demo_filled = Undefined.
Proof.
  apply (self_append_after_realloc 64 demo_filled 1%positive
           (the_buffer demo_filled 1%positive) (the_storage demo_filled 1%positive)).
  - exact demo_filled_ok.
  - vm_compute. reflexivity.
  - vm_compute. discriminate.
  - vm_compute. reflexivity.
  - lia.
  - vm_compute. reflexivity.
Defined.

Lemma tail_ok_self blen n cs :
  0 <= n <= blen -> blen + n < size_of cs -> tail_ok blen n true cs cs = true.
Proof.
  intros Hn Hfit. unfold tail_ok.
  rewrite !andb_true_iff, negb_true_iff, !Z.leb_le, Z.ltb_lt.
  split; [split; [split|]|]; lia.
Qed.

(** X15. Appending to a buffer from its own storage is fine while the
    result fits the capacity and no more than the content is taken: the
    call returns 1 and the content is followed by a copy of its first [len]
    bytes. *)
Theorem self_append_within_capacity fuel st a B cs n :
  buffer_ok st a B cs ->
  0 <= n <= len B ->
  len B + n < cap B ->
  exists st' B' cs',
    sb_buffer_add_lstring fuel (Some a) (str B) n st = Ret (1, st')
    /\ buffer_ok st' a B' cs'
    /\ len B' = len B + n /\ cap B' = cap B /\ str B' = str B
    /\ take (Z.to_nat (len B + n)) cs'
       = take (Z.to_nat (len B)) cs ++ take (Z.to_nat n) cs.
Proof.
  intros Hok Hn Hfit.
  pose proof Hok as [HB Hm Hi Hs Ho Hsz Hl Hc Hnul].
  assert (Hrun : exists st', sb_buffer_add_lstring fuel (Some a) (str B) n st = Ret (1, st')).
  { rewrite (add_lstring_eq fuel st a B cs (str B) n Hok).
    destruct (Z.geb_spec n (cap B - len B)); [lia|].
    destruct Hs as [Hs|[h Hs]].
    - rewrite Hs in Ho |- *. pose proof Ho as Ho'.
      rewrite (object_init _ _ _ HB) in Ho'. injection Ho' as <-.
      rewrite (write_tail_inline st a B (InitOf a) n HB Hs) by lia.
      rewrite Ho, bool_decide_eq_true_2 by reflexivity.
      rewrite tail_ok_self by lia. eauto.
    - rewrite Hs in Ho |- *. pose proof Ho as Ho'. cbn in Ho'.
      rewrite (write_tail_heap st a B h cs (Heap h) n HB Hs Ho') by lia.
      rewrite Ho, bool_decide_eq_true_2 by reflexivity.
      rewrite tail_ok_self by lia. eauto. }
  destruct Hrun as [st' Hrun].
  destruct (add_lstring_inv _ _ _ _ _ _ _ _ _ Hok Hrun)
    as [(Hr & _)|(_ & B' & cs' & Hap)]; [discriminate|].
  destruct (ap_fit _ _ _ _ _ _ _ _ _ Hap Hfit) as (Hstr' & Hcap' & _).
  destruct (ap_src _ _ _ _ _ _ _ _ _ Hap cs Ho) as [_ Htake].
  exists st', B', cs'. split; [assumption|]. split; [apply Hap|].
  split; [apply Hap|]. split; [assumption|]. split; [assumption|].
  now rewrite Htake, slice_0.
Qed.

Lemma self_append_within_capacity_witness :
  exists st' B' cs',
    sb_buffer_add_lstring 0 (Some 1%positive) (str (the_buffer demo_filled 1%positive)) 100
      demo_filled = Ret (1, st')
    /\ buffer_ok st' 1%positive B' cs'
    /\ len B' = len (the_buffer demo_filled 1%positive) + 100
    /\ cap B' = cap (the_buffer demo_filled 1%positive)
    /\ str B' = str (the_buffer demo_filled 1%positive)
    /\ take (Z.to_nat (len (the_buffer demo_filled 1%positive) + 100)) cs'
       = take (Z.to_nat (len (the_buffer demo_filled 1%positive)))
           (the_storage demo_filled 1%positive)
         ++ take (Z.to_nat 100) (the_storage demo_filled 1%positive).
Proof.
  apply (self_append_within_capacity 0 demo_filled 1%positive
           (the_buffer demo_filled 1%positive) (the_storage demo_filled 1%positive) 100).
  - exact demo_filled_ok.
  - vm_compute. split; discriminate.
  - vm_compute. reflexivity.
Defined.

Section Copies.
Variables (fuel : nat) (st : state) (src dest : addr).
Variables (Bs Bd : SB_Buffer) (css csd : list cell).
Hypothesis Hs : buffer_ok st src Bs css.
Hypothesis Hd : buffer_ok st dest Bd csd.
Hypothesis Hne : src <> dest.
Hypothesis Hsep : str Bs <> str Bd.

(** The copy between two different buffers is the append of the source's
    storage to the destination once it is reset. *)
Lemma copy_distinct_eq :
  sb_buffer_copy fuel (Some src) (Some dest) st =
  sb_buffer_add_lstring fuel (Some dest) (str Bs) (len Bs) (reset_state st dest Bd).
Proof using Hs Hd Hne Hsep.
  rewrite (copy_eq fuel st src dest Bs css Bd csd Hs Hd).
  pose proof (reset_frame st dest Bd csd src Bs css Hd Hne Hs Hsep) as Hs1.
  erewrite (bind_Ret (get_str _)) by (apply get_str_eq; apply Hs1).
  erewrite (bind_Ret (get_len _)) by (apply get_len_eq; apply Hs1).
  reflexivity.
Qed.

Lemma source_not_inline_of_dest : str Bs <> InitOf dest.
Proof using Hs Hne.
  destruct (ok_str _ _ _ _ Hs) as [E|[h E]]; rewrite E; congruence.
Qed.

End Copies.

(** X16. A copy whose source is shorter than the inline capacity cannot
    fail and does not call the allocator: the destination ends up
    inline-backed with the source's content, its former heap block (if any)
    is released and no block is allocated. *)
Theorem short_copy_stays_inline fuel st src dest Bs css Bd csd :
  buffer_ok st src Bs css -> buffer_ok st dest Bd csd ->
  src <> dest -> str Bs <> str Bd ->
  len Bs < SB_BUFFER_INITIAL_CAP ->
  exists st' B' cs',
    sb_buffer_copy fuel (Some src) (Some dest) st = Ret (1, st')
    /\ buffer_ok st' dest B' cs'
    /\ str B' = InitOf dest /\ cap B' = SB_BUFFER_INITIAL_CAP /\ len B' = len Bs
    /\ take (Z.to_nat (len Bs)) cs' = take (Z.to_nat (len Bs)) css
    /\ heap st' = release (str Bd) (heap st) /\ oracle st' = oracle st.
Proof.
  intros Hs Hd Hne Hsep Hshort.
  pose proof (copy_distinct_eq fuel st src dest Bs Bd css csd Hs Hd Hne Hsep) as Hrun.
  pose proof (reset_frame st dest Bd csd src Bs css Hd Hne Hs Hsep) as Hs1.
  pose proof (reset_state_ok st dest Bd csd Hd) as Hd1.
  pose proof (source_not_inline_of_dest st src dest Bs css Hs Hne) as Hni.
  pose proof (ok_len _ _ _ _ Hs) as Hl. pose proof (ok_size _ _ _ _ Hs) as Hsz.
  set (st1 := reset_state st dest Bd) in *.
  set (B1 := mkBuffer _ _ _ _ _) in Hd1. set (cs1 := splice _ _ _) in Hd1.
  assert (Hsz1 : size_of cs1 = SB_BUFFER_INITIAL_CAP) by exact (ok_size _ _ _ _ Hd1).
  assert (Hcall : exists st', sb_buffer_add_lstring fuel (Some dest) (str Bs) (len Bs) st1
                              = Ret (1, st')
                              /\ heap st' = heap st1 /\ oracle st' = oracle st1
                              /\ exists i, bufs st' !! dest
                                           = Some (mkBuffer (magic B1) i (InitOf dest)
                                                     (len Bs) SB_BUFFER_INITIAL_CAP)).
  { rewrite (add_lstring_eq fuel st1 dest B1 cs1 _ _ Hd1).
    cbn [cap len B1]. destruct (Z.geb_spec (len Bs) (SB_BUFFER_INITIAL_CAP - 0)); [lia|].
    erewrite (write_tail_inline st1 dest B1); [| apply Hd1 | reflexivity | cbn; lia | ].
    - rewrite (ok_object _ _ _ _ Hs1).
      rewrite bool_decide_eq_false_2 by congruence.
      cbn [len init B1]. fold cs1.
      rewrite tail_ok_apart by lia.
      eexists. split; [reflexivity|]. cbn. split; [reflexivity|]. split; [reflexivity|].
      eexists. apply lookup_insert_eq.
    - cbn [init B1]. fold cs1. rewrite Hsz1. reflexivity. }
  destruct Hcall as (st' & Hcall & Hheap & Horacle & i & HB').
  rewrite <- Hrun in Hcall.
  destruct (copy_distinct fuel st src dest Bs css Bd csd 1 st' Hs Hd Hne Hsep Hcall)
    as (_ & B' & cs' & Hok' & _ & [E|(_ & Hlen & Htake)]); [discriminate|].
  pose proof (ok_lookup _ _ _ _ Hok') as E. rewrite HB' in E. injection E as <-.
  eexists st', _, cs'. split; [assumption|]. split; [exact Hok'|].
  split; [reflexivity|]. split; [reflexivity|]. split; [reflexivity|].
  split; [exact Htake|]. split; assumption.
Qed.

Lemma short_copy_stays_inline_witness :
  exists st' B' cs',
    sb_buffer_copy 0 (Some 2%positive) (Some 1%positive) demo_pair = Ret (1, st')
    /\ buffer_ok st' 1%positive B' cs'
    /\ str B' = InitOf 1%positive /\ cap B' = SB_BUFFER_INITIAL_CAP
    /\ len B' = len (the_buffer demo_pair 2%positive)
    /\ take (Z.to_nat (len (the_buffer demo_pair 2%positive))) cs'
       = take (Z.to_nat (len (the_buffer demo_pair 2%positive)))
           (the_storage demo_pair 2%positive)
    /\ heap st' = release (str (the_buffer demo_pair 1%positive)) (heap demo_pair)
    /\ oracle st' = oracle demo_pair.
Proof.
  apply (short_copy_stays_inline 0 demo_pair 2%positive 1%positive
           (the_buffer demo_pair 2%positive) (the_storage demo_pair 2%positive)
           (the_buffer demo_pair 1%positive) (the_storage demo_pair 1%positive)).
  - exact demo_pair_ok_2.
  - exact demo_pair_ok_1.
  - discriminate.
  - vm_compute. discriminate.
  - vm_compute. reflexivity.
Defined.

(** X17. A copy that fails for lack of memory is not without effect, unlike
    a failed append: the destination was reset before the append was tried,
    so it is left valid but empty and inline-backed, its heap block
    released; the source is untouched. *)
Theorem failed_copy_empties_destination fuel st src dest Bs css Bd csd :
  buffer_ok st src Bs css -> buffer_ok st dest Bd csd ->
  src <> dest -> str Bs <> str Bd ->
  SB_BUFFER_INITIAL_CAP <= len Bs ->
  len Bs + 1 < 2 ^ (SIZE_BITS - 1) ->
  (64 <= fuel)%nat ->
  hd true (oracle st) = false ->
  exists st' B' cs',
    sb_buffer_copy fuel (Some src) (Some dest) st = Ret (0, st')
    /\ buffer_ok st' dest B' cs'
    /\ len B' = 0 /\ str B' = InitOf dest /\ cap B' = SB_BUFFER_INITIAL_CAP
    /\ heap st' = release (str Bd) (heap st)
    /\ buffer_ok st' src Bs css.
Proof.
  intros Hs Hd Hne Hsep Hlong Hhalf Hfuel Hrefuse.
  pose proof (copy_distinct_eq fuel st src dest Bs Bd css csd Hs Hd Hne Hsep) as Hrun.
  pose proof (reset_frame st dest Bd csd src Bs css Hd Hne Hs Hsep) as Hs1.
  pose proof (reset_state_ok st dest Bd csd Hd) as Hd1.
  pose proof (ok_len _ _ _ _ Hs) as Hl.
  set (st1 := reset_state st dest Bd) in *.
  set (B1 := mkBuffer _ _ _ _ _) in Hd1. set (cs1 := splice _ _ _) in Hd1.
  assert (Hpow : 2 ^ (SIZE_BITS - 1) < SIZE_MOD) by reflexivity.
  assert (Hreq : wrap (wrap (0 + len Bs) + 1) = len Bs + 1)
    by (rewrite (wrap_small (0 + len Bs)) by lia; apply wrap_small; lia).
  destruct (doubling_64 fuel SB_BUFFER_INITIAL_CAP 0 (len Bs)) as [nova Hloop];
    [reflexivity | rewrite Hreq; lia | assumption |].
  rewrite (add_lstring_eq fuel st1 dest B1 cs1 _ _ Hd1) in Hrun.
  cbn [cap len B1] in Hrun. rewrite Hloop in Hrun.
  destruct (Z.geb_spec (len Bs) (SB_BUFFER_INITIAL_CAP - 0)); [|lia].
  change (oracle st1) with (oracle st) in Hrun. rewrite Hrefuse in Hrun.
  eexists _, B1, cs1. split; [exact Hrun|].
  split; [apply (unchanged_ok st1); [assumption|reflexivity|reflexivity]|].
  split; [reflexivity|]. split; [reflexivity|]. split; [reflexivity|].
  split; [reflexivity|].
  apply (unchanged_ok st1); [assumption|reflexivity|reflexivity].
Qed.

Lemma failed_copy_empties_destination_witness :
  exists st' B' cs',
    sb_buffer_copy 64 (Some 1%positive) (Some 2%positive) demo_pair_stingy = Ret (0, st')
    /\ buffer_ok st' 2%positive B' cs'
    /\ len B' = 0 /\ str B' = InitOf 2%positive /\ cap B' = SB_BUFFER_INITIAL_CAP
    /\ heap st' = release (str (the_buffer demo_pair_stingy 2%positive))
                    (heap demo_pair_stingy)
    /\ buffer_ok st' 1%positive (the_buffer demo_pair_stingy 1%positive)
         (the_storage demo_pair_stingy 1%positive).
Proof.
  apply (failed_copy_empties_destination 64 demo_pair_stingy 1%positive 2%positive
           (the_buffer demo_pair_stingy 1%positive) (the_storage demo_pair_stingy 1%positive)
           (the_buffer demo_pair_stingy 2%positive) (the_storage demo_pair_stingy 2%positive)).
  - exact demo_pair_stingy_ok_1.
  - exact demo_pair_stingy_ok_2.
  - discriminate.
  - vm_compute. discriminate.
  - vm_compute. discriminate.
  - vm_compute. reflexivity.
  - lia.
  - vm_compute. reflexivity.
Defined.

(** ** Strings with terminators *)

Lemma first_nul_cells (bs : list byte) (rest : list cell) :
  first_nul (cells_of bs ++ Some NUL :: rest) = Some (Z.of_nat (length (until_nul bs))).
Proof.
  induction bs as [|c bs IH]; [reflexivity|].
  cbn [cells_of map app first_nul until_nul].
  destruct (bool_decide (c = NUL)); [reflexivity|].
  change (map Some bs) with (cells_of bs). rewrite IH.
  cbn [fmap option_fmap option_map length]. f_equal. lia.
Qed.

Lemma until_nul_length (bs : list byte) : (length (until_nul bs) <= length bs)%nat.
Proof.
  induction bs as [|c bs IH]; simpl; [lia|].
  destruct (bool_decide (c = NUL)); simpl; lia.
Qed.

Lemma until_nul_all (bs : list byte) : NUL ∉ bs -> until_nul bs = bs.
Proof.
  induction bs as [|c bs IH]; intros Hno; simpl; [reflexivity|].
  apply not_elem_of_cons in Hno as [Hc Hno].
  rewrite bool_decide_eq_false_2 by congruence. now rewrite IH.
Qed.

Lemma until_nul_take (bs : list byte) (rest : list cell) :
  take (length (until_nul bs)) (cells_of bs ++ rest) = cells_of (until_nul bs).
Proof.
  induction bs as [|c bs IH]; [now destruct rest|].
  cbn [cells_of map app until_nul].
  destruct (bool_decide (c = NUL)); [reflexivity|].
  change (map Some bs) with (cells_of bs).
  cbn [length take]. rewrite IH. reflexivity.
Qed.

Lemma cells_of_length (bs : list byte) : length (cells_of bs) = length bs.
Proof. unfold cells_of. apply length_map. Qed.

Lemma sb_get_str_ok st a B cs :
  buffer_ok st a B cs -> sb_buffer_get_str (Some a) st = Ret (str B, st).
Proof.
  intros Hok. unfold sb_buffer_get_str.
  rewrite (check_valid st a B) by apply Hok.
  apply get_str_eq. apply Hok.
Qed.

(** X18. The pointer that [sb_buffer_get_str] gives is a C string: [strlen]
    on it is defined and gives the number of content bytes before the first
    zero byte, which is at most [sb_buffer_get_len] and equal to it when the
    content has no zero byte. *)
Theorem buffer_is_c_string st a B cs bs :
  buffer_ok st a B cs ->
  take (Z.to_nat (len B)) cs = cells_of bs ->
  exists p,
    sb_buffer_get_str (Some a) st = Ret (p, st)
    /\ strlen p st = Ret (Z.of_nat (length (until_nul bs)), st)
    /\ Z.of_nat (length (until_nul bs)) <= len B
    /\ (NUL ∉ bs -> Z.of_nat (length (until_nul bs)) = len B).
Proof.
  intros Hok Hbs.
  pose proof (ok_len _ _ _ _ Hok) as Hl. pose proof (ok_size _ _ _ _ Hok) as Hsz.
  assert (Hlen : Z.of_nat (length bs) = len B).
  { rewrite <- cells_of_length, <- Hbs, length_take. unfold size_of in Hsz. lia. }
  exists (str B). split; [exact (sb_get_str_ok st a B cs Hok)|]. split.
  - unfold strlen. rewrite (ok_object _ _ _ _ Hok).
    rewrite <- (take_drop_middle cs _ _ (ok_nul _ _ _ _ Hok)), Hbs.
    now rewrite first_nul_cells.
  - pose proof (until_nul_length bs). split; [lia|].
    intros Hno. now rewrite until_nul_all.
Qed.

Lemma buffer_is_c_string_witness :
  exists p,
    sb_buffer_get_str (Some 2%positive) demo_pair = Ret (p, demo_pair)
    /\ strlen p demo_pair = Ret (Z.of_nat (length (until_nul world)), demo_pair)
    /\ Z.of_nat (length (until_nul world)) <= len (the_buffer demo_pair 2%positive)
    /\ (NUL ∉ world ->
        Z.of_nat (length (until_nul world)) = len (the_buffer demo_pair 2%positive)).
Proof.
  apply (buffer_is_c_string demo_pair 2%positive (the_buffer demo_pair 2%positive)
           (the_storage demo_pair 2%positive) world).
  - exact demo_pair_ok_2.
  - vm_compute. reflexivity.
Defined.

(** The append of a byte string that lies at the source pointer. *)
Lemma append_bytes fuel st a B cs s scs (bs : list byte) :
  buffer_ok st a B cs ->
  object s st = Some scs ->
  take (length bs) scs = cells_of bs ->
  s <> str B ->
  len B + Z.of_nat (length bs) + 1 < 2 ^ (SIZE_BITS - 1) ->
  (64 <= fuel)%nat -> hd true (oracle st) = true ->
  exists st' B' cs',
    sb_buffer_add_lstring fuel (Some a) s (Z.of_nat (length bs)) st = Ret (1, st')
    /\ buffer_ok st' a B' cs'
    /\ len B' = len B + Z.of_nat (length bs)
    /\ take (Z.to_nat (len B')) cs' = take (Z.to_nat (len B)) cs ++ cells_of bs.
Proof.
  intros Hok Hsrc Hbs Hne Hhalf Hfuel Hgrant.
  assert (Hsz : Z.of_nat (length bs) <= size_of scs).
  { unfold size_of. apply inj_le.
    rewrite <- (cells_of_length bs), <- Hbs, length_take. lia. }
  destruct (add_lstring_returns fuel st a B cs s (Z.of_nat (length bs)) scs Hok Hsrc)
    as [st' Hrun]; try assumption; [lia|].
  destruct (add_lstring_inv _ _ _ _ _ _ _ _ _ Hok Hrun)
    as [(Hr & _)|(_ & B' & cs' & Hap)]; [discriminate|].
  destruct (ap_src _ _ _ _ _ _ _ _ _ Hap scs Hsrc) as [_ Htake].
  pose proof (ap_len _ _ _ _ _ _ _ _ _ Hap) as Hlen.
  exists st', B', cs'. split; [assumption|]. split; [apply Hap|]. split; [assumption|].
  rewrite Hlen, Htake, slice_0, Nat2Z.id. now rewrite Hbs.
Qed.

(** X19. [sb_buffer_add_string] appends the source up to its first zero
    byte, whatever follows it in the source array. *)
Theorem add_string_appends_c_string fuel st a B cs s (bs : list byte) rest :
  buffer_ok st a B cs ->
  object s st = Some (cells_of bs ++ Some NUL :: rest) ->
  s <> str B ->
  len B + Z.of_nat (length bs) + 1 < 2 ^ (SIZE_BITS - 1) ->
  (64 <= fuel)%nat -> hd true (oracle st) = true ->
  exists st' B' cs',
    sb_buffer_add_string fuel (Some a) s st = Ret (1, st')
    /\ buffer_ok st' a B' cs'
    /\ len B' = len B + Z.of_nat (length (until_nul bs))
    /\ take (Z.to_nat (len B')) cs'
       = take (Z.to_nat (len B)) cs ++ cells_of (until_nul bs).
Proof.
  intros Hok Hsrc Hne Hhalf Hfuel Hgrant.
  pose proof (until_nul_length bs) as Hle.
  assert (Hn : strlen s st = Ret (Z.of_nat (length (until_nul bs)), st))
    by (unfold strlen; now rewrite Hsrc, first_nul_cells).
  unfold sb_buffer_add_string. erewrite bind_Ret by exact Hn. cbv beta.
  apply (append_bytes fuel st a B cs s _ (until_nul bs) Hok Hsrc); try assumption.
  - apply until_nul_take.
  - lia.
Qed.

Lemma demo_strings_ok :
  buffer_ok demo_strings 1%positive (the_buffer demo_strings 1%positive)
    (the_storage demo_strings 1%positive).
Proof. apply buffer_okb_sound. vm_compute. reflexivity. Qed.

Lemma add_string_appends_c_string_witness :
  exists st' B' cs',
    sb_buffer_add_string 64 (Some 1%positive) (Heap 20%positive) demo_strings = Ret (1, st')
    /\ buffer_ok st' 1%positive B' cs'
    /\ len B' = len (the_buffer demo_strings 1%positive)
                + Z.of_nat (length (until_nul nul_inside))
    /\ take (Z.to_nat (len B')) cs'
       = take (Z.to_nat (len (the_buffer demo_strings 1%positive)))
           (the_storage demo_strings 1%positive)
         ++ cells_of (until_nul nul_inside).
Proof.
  apply (add_string_appends_c_string 64 demo_strings 1%positive
           (the_buffer demo_strings 1%positive) (the_storage demo_strings 1%positive)
           (Heap 20%positive) nul_inside []).
  - exact demo_strings_ok.
  - vm_compute. reflexivity.
  - vm_compute. discriminate.
  - vm_compute. reflexivity.
  - lia.
  - vm_compute. reflexivity.
Defined.

(** X20. [sb_buffer_add_literal] appends every character of the literal,
    zero bytes included: the length is taken from the size of the array,
    not from the first terminator. *)
Theorem add_literal_appends_all fuel st a B cs s (literal : list byte) :
  buffer_ok st a B cs ->
  object s st = Some (literal_array literal) ->
  s <> str B ->
  len B + Z.of_nat (length literal) + 1 < 2 ^ (SIZE_BITS - 1) ->
  (64 <= fuel)%nat -> hd true (oracle st) = true ->
  exists st' B' cs',
    sb_buffer_add_literal fuel (Some a) s literal st = Ret (1, st')
    /\ buffer_ok st' a B' cs'
    /\ len B' = len B + Z.of_nat (length literal)
    /\ take (Z.to_nat (len B')) cs' = take (Z.to_nat (len B)) cs ++ cells_of literal.
Proof.
  intros Hok Hsrc Hne Hhalf Hfuel Hgrant.
  pose proof (ok_len _ _ _ _ Hok) as Hl.
  assert (Hpow : 2 ^ (SIZE_BITS - 1) < SIZE_MOD) by reflexivity.
  assert (Hn : wrap (size_of (literal_array literal) - 1) = Z.of_nat (length literal)).
  { unfold size_of, literal_array. rewrite length_app, cells_of_length. simpl.
    replace (Z.of_nat (length literal + 1) - 1) with (Z.of_nat (length literal)) by lia.
    apply wrap_small. lia. }
  unfold sb_buffer_add_literal. rewrite Hn.
  apply (append_bytes fuel st a B cs s _ literal Hok Hsrc); try assumption.
  unfold literal_array. rewrite <- (cells_of_length literal) at 1.
  apply take_app_length.
Qed.

Lemma add_literal_appends_all_witness :
  exists st' B' cs',
    sb_buffer_add_literal 64 (Some 1%positive) (Heap 20%positive) nul_inside demo_strings
    = Ret (1, st')
    /\ buffer_ok st' 1%positive B' cs'
    /\ len B' = len (the_buffer demo_strings 1%positive) + Z.of_nat (length nul_inside)
    /\ take (Z.to_nat (len B')) cs'
       = take (Z.to_nat (len (the_buffer demo_strings 1%positive)))
           (the_storage demo_strings 1%positive)
         ++ cells_of nul_inside.
Proof.
  apply (add_literal_appends_all 64 demo_strings 1%positive
           (the_buffer demo_strings 1%positive) (the_storage demo_strings 1%positive)
           (Heap 20%positive) nul_inside).
  - exact demo_strings_ok.
  - vm_compute. reflexivity.
  - vm_compute. discriminate.
  - vm_compute. reflexivity.
  - lia.
  - vm_compute. reflexivity.
Defined.

(** X21. [sb_buffer_add_string] reads its string before the handle is
    checked: with a source pointer that is null or dangling the call is
    undefined even on a handle that [sb_buffer_add_lstring], given the same
    pointer, rejects with 0. *)
Theorem add_string_reads_before_check fuel b s st :
  sb_buffer_isbuffer b st = Ret (0, st) ->
  object s st = None ->
  sb_buffer_add_string fuel b s st = Undefined
  /\ forall n, sb_buffer_add_lstring fuel b s n st = Ret (0, st).
Proof.
  intros Hbad Hsrc. split.
  - unfold sb_buffer_add_string, bind, strlen. now rewrite Hsrc.
  - intros n. destruct (isbuffer_inv _ _ _ _ Hbad) as (_ & [(_ & Hrej)|(E & _)]);
      [|discriminate].
    apply Hrej.
Qed.

Lemma add_string_reads_before_check_witness :
  sb_buffer_add_string 0 None NULL demo = Undefined
  /\ forall n, sb_buffer_add_lstring 0 None NULL n demo = Ret (0, demo).
Proof.
  apply (add_string_reads_before_check 0 None NULL demo); reflexivity.
Defined.

Lemma total_length_nonneg items : 0 <= total_length items.
Proof. induction items as [|[s bs] rest IH]; simpl; lia. Qed.

(** Appends that stay within the capacity keep the storage and do not call
    the allocator. *)
Lemma append_all_fit fuel a items :
  forall st B cs st',
    buffer_ok st a B cs ->
    append_all fuel (Some a) items st = Some st' ->
    len B + total_length items < cap B ->
    exists B' cs',
      buffer_ok st' a B' cs'
      /\ str B' = str B /\ cap B' = cap B
      /\ oracle st' = oracle st /\ dom (heap st') = dom (heap st).
Proof.
  induction items as [|[s bs] rest IH]; intros st B cs st' Hok H Hfit.
  - injection H as <-. exists B, cs. auto.
  - apply append_all_cons in H as (st1 & _ & Happ & Hrest).
    pose proof (total_length_nonneg rest) as Hnn. simpl in Hfit.
    destruct (add_lstring_inv _ _ _ _ _ _ _ _ _ Hok Happ)
      as [(Hr & _)|(_ & B1 & cs1 & Hap)]; [discriminate|].
    destruct (ap_fit _ _ _ _ _ _ _ _ _ Hap) as (Hs1 & Hc1 & Ho1 & Hd1); [lia|].
    pose proof (ap_len _ _ _ _ _ _ _ _ _ Hap) as Hl1.
    destruct (IH _ _ _ _ (ap_ok _ _ _ _ _ _ _ _ _ Hap) Hrest) as (B' & cs' & Hok' & Hs & Hc & Ho & Hd);
      [lia|].
    exists B', cs'. split; [assumption|].
    split; [congruence|]. split; [congruence|]. split; congruence.
Qed.

(** X22. A cleared buffer is filled again in place: when the strings
    appended after [sb_buffer_clear] fit the capacity the buffer had, the
    content is exactly these strings, the storage and the capacity are the
    old ones and the allocator is never called. *)
Theorem cleared_buffer_is_refilled_in_place fuel st a B cs r st1 items st2 :
  buffer_ok st a B cs ->
  sb_buffer_clear (Some a) st = Ret (r, st1) ->
  append_all fuel (Some a) items st1 = Some st2 ->
  total_length items < cap B ->
  exists B2 cs2,
    buffer_ok st2 a B2 cs2
    /\ len B2 = total_length items
    /\ take (Z.to_nat (len B2)) cs2 = cells_of (all_bytes items)
    /\ str B2 = str B /\ cap B2 = cap B
    /\ oracle st2 = oracle st /\ dom (heap st2) = dom (heap st).
Proof.
  intros Hok Hclear Hrun Hfit.
  destruct (clear_spec st a B cs Hok)
    as (st1' & B1 & cs1 & Hc & Hok1 & Hl1 & Hcap1 & Hstr1 & Ho1 & Hd1 & _).
  rewrite Hclear in Hc. injection Hc as -> <-.
  destruct (append_all_spec fuel a items st1 B1 cs1 st2 Hok1 Hrun)
    as (B2 & cs2 & Hok2 & Hlen & Htake).
  destruct (append_all_fit fuel a items st1 B1 cs1 st2 Hok1 Hrun)
    as (B2' & cs2' & Hok2' & Hs & Hc & Ho & Hd); [lia|].
  pose proof (ok_lookup _ _ _ _ Hok2') as E. rewrite (ok_lookup _ _ _ _ Hok2) in E.
  injection E as <-.
  exists B2, cs2. split; [assumption|]. split; [lia|].
  split; [rewrite Htake, Hl1; reflexivity|].
  split; [congruence|]. split; [congruence|]. split; congruence.
Qed.

Lemma cleared_buffer_is_refilled_in_place_witness :
  exists B2 cs2,
    buffer_ok
      (default demo_filled
         (append_all 0 (Some 1%positive) demo_items
            (state_after (sb_buffer_clear (Some 1%positive)) demo_filled)))
      1%positive B2 cs2
    /\ len B2 = total_length demo_items
    /\ take (Z.to_nat (len B2)) cs2 = cells_of (all_bytes demo_items)
    /\ str B2 = str (the_buffer demo_filled 1%positive)
    /\ cap B2 = cap (the_buffer demo_filled 1%positive)
    /\ oracle
         (default demo_filled
            (append_all 0 (Some 1%positive) demo_items
               (state_after (sb_buffer_clear (Some 1%positive)) demo_filled)))
       = oracle demo_filled
    /\ dom (heap
         (default demo_filled
            (append_all 0 (Some 1%positive) demo_items
               (state_after (sb_buffer_clear (Some 1%positive)) demo_filled))))
       = dom (heap demo_filled).
Proof.
  apply (cleared_buffer_is_refilled_in_place 0 demo_filled 1%positive
           (the_buffer demo_filled 1%positive) (the_storage demo_filled 1%positive)
           1 (state_after (sb_buffer_clear (Some 1%positive)) demo_filled) demo_items).
  - exact demo_filled_ok.
  - vm_compute. reflexivity.
  - vm_compute. reflexivity.
  - vm_compute. reflexivity.
Defined.

(** ** Inline-backed buffers with known content *)

Lemma string_at_cells (bs : list byte) (rest : list cell) :
  string_at (cells_of bs ++ Some NUL :: rest) = Some (until_nul bs).
Proof.
  induction bs as [|c bs IH]; [reflexivity|].
  cbn [cells_of map app string_at until_nul].
  destruct (bool_decide (c = NUL)); [reflexivity|].
  change (map Some bs) with (cells_of bs). now rewrite IH.
Qed.

(** An inline-backed buffer depends on its own object only. *)
Lemma inline_frame st st' a bs :
  inline_with st a bs -> bufs st' !! a = bufs st !! a -> inline_with st' a bs.
Proof.
  intros (B & cs & Hok & Hstr & Hcap & Hlen & Htake) Hsame.
  exists B, cs. split; [|auto].
  apply (buffer_ok_frame st); [assumption|assumption|].
  rewrite Hstr. cbn. now rewrite Hsame.
Qed.

Lemma init_inline st a :
  is_object st a ->
  exists st',
    sb_buffer_init (Some a) st = Ret (1, st')
    /\ inline_with st' a []
    /\ heap st' = heap st /\ oracle st' = oracle st
    /\ forall a', a' <> a -> bufs st' !! a' = bufs st !! a'.
Proof.
  intros Hobj. pose proof Hobj as (B0 & HB0 & Hi0).
  pose proof (init_eq st a B0 HB0 Hi0) as Hrun.
  destruct (init_ok _ _ _ Hobj Hrun) as (B & cs & Hok & Hlen & Hstr & Hcap & Hheap & Hor & Hothers).
  eexists. split; [exact Hrun|]. split; [|auto].
  exists B, cs. split; [assumption|]. split; [assumption|]. split; [assumption|].
  split; [assumption|reflexivity].
Qed.

Lemma inline_append fuel st a old s scs (bs : list byte) :
  inline_with st a old ->
  object s st = Some scs ->
  take (length bs) scs = cells_of bs ->
  s <> InitOf a ->
  Z.of_nat (length old) + Z.of_nat (length bs) < SB_BUFFER_INITIAL_CAP ->
  exists st',
    sb_buffer_add_lstring fuel (Some a) s (Z.of_nat (length bs)) st = Ret (1, st')
    /\ inline_with st' a (old ++ bs)
    /\ heap st' = heap st /\ oracle st' = oracle st
    /\ forall a', a' <> a -> bufs st' !! a' = bufs st !! a'.
Proof.
  intros (B & cs & Hok & Hstr & Hcap & Hlen & Htake) Hsrc Hbs Hne Hfit.
  pose proof Hok as [HB Hm Hi Hs Ho Hsz Hl Hc Hnul].
  assert (Hssz : Z.of_nat (length bs) <= size_of scs).
  { unfold size_of. apply inj_le.
    rewrite <- (cells_of_length bs), <- Hbs, length_take. lia. }
  assert (Hrun : exists st', sb_buffer_add_lstring fuel (Some a) s (Z.of_nat (length bs)) st
                             = Ret (1, st')).
  { rewrite (add_lstring_eq fuel st a B cs s _ Hok).
    destruct (Z.geb_spec (Z.of_nat (length bs)) (cap B - len B)); [lia|].
    rewrite Hstr in Ho. rewrite (object_init _ _ _ HB) in Ho. injection Ho as <-.
    rewrite (write_tail_inline st a B s _ HB Hstr) by lia.
    rewrite Hsrc, bool_decide_eq_false_2 by congruence.
    rewrite tail_ok_apart by lia. eauto. }
  destruct Hrun as [st' Hrun].
  destruct (add_lstring_inv _ _ _ _ _ _ _ _ _ Hok Hrun)
    as [(Hr & _)|(_ & B' & cs' & Hap)]; [discriminate|].
  destruct (ap_fit _ _ _ _ _ _ _ _ _ Hap) as (Hstr' & Hcap' & Hor & _); [lia|].
  destruct (ap_src _ _ _ _ _ _ _ _ _ Hap scs Hsrc) as [_ Hnew].
  pose proof (ap_len _ _ _ _ _ _ _ _ _ Hap) as Hlen'.
  pose proof (fit_keeps_other_blocks st a B cs s _ st' B' cs' Hok Hap) as Hrel.
  rewrite Hstr', Hstr in Hrel. cbn [release] in Hrel.
  exists st'. split; [assumption|]. split.
  - exists B', cs'. split; [apply Hap|]. split; [congruence|]. split; [congruence|].
    rewrite length_app. split; [lia|].
    replace (length old + length bs)%nat with (Z.to_nat (len B + Z.of_nat (length bs))) by lia.
    rewrite Hnew, slice_0, Nat2Z.id, Hbs, Hlen, Nat2Z.id, Htake.
    unfold cells_of. now rewrite map_app.
  - split; [apply Hrel; lia|]. split; [assumption|]. apply Hap.
Qed.

Lemma inline_read st a bs :
  inline_with st a bs -> NUL ∉ bs ->
  get_str a st = Ret (InitOf a, st)
  /\ read_string (InitOf a) st = Ret (bs, st)
  /\ get_len a st = Ret (Z.of_nat (length bs), st).
Proof.
  intros (B & cs & Hok & Hstr & Hcap & Hlen & Htake) Hno.
  pose proof (ok_lookup _ _ _ _ Hok) as HB.
  split; [rewrite <- Hstr; now apply get_str_eq|].
  split; [|rewrite <- Hlen; now apply get_len_eq].
  unfold read_string. pose proof (ok_object _ _ _ _ Hok) as Ho. rewrite Hstr in Ho.
  rewrite Ho.
  pose proof (ok_nul _ _ _ _ Hok) as Hnul. rewrite Hlen, Nat2Z.id in Hnul.
  rewrite <- (take_drop_middle cs _ _ Hnul), Htake, string_at_cells.
  now rewrite until_nul_all.
Qed.

Lemma inline_finalize st a bs :
  inline_with st a bs ->
  exists st',
    sb_buffer_finalize (Some a) st = Ret (1, st')
    /\ heap st' = heap st /\ oracle st' = oracle st
    /\ forall a', a' <> a -> bufs st' !! a' = bufs st !! a'.
Proof.
  intros (B & cs & Hok & Hstr & _).
  eexists. split.
  - rewrite <- reset_finalize_same. exact (reset_eq st a B cs Hok).
  - cbn. rewrite Hstr. split; [reflexivity|]. split; [reflexivity|].
    intros a' Hne. now rewrite lookup_insert_ne by congruence.
Qed.

Lemma inline_copy fuel st src dest bs old :
  inline_with st src bs -> inline_with st dest old -> src <> dest ->
  Z.of_nat (length bs) < SB_BUFFER_INITIAL_CAP ->
  exists st',
    sb_buffer_copy fuel (Some src) (Some dest) st = Ret (1, st')
    /\ inline_with st' src bs /\ inline_with st' dest bs
    /\ heap st' = heap st /\ oracle st' = oracle st
    /\ forall a', a' <> dest -> bufs st' !! a' = bufs st !! a'.
Proof.
  intros Hsrc (Bd & csd & Hd & Hstrd & _) Hne Hshort.
  pose proof Hsrc as (Bs & css & Hs & Hstrs & Hcaps & Hlens & Htakes).
  assert (Hsep : str Bs <> str Bd) by (rewrite Hstrs, Hstrd; congruence).
  rewrite (copy_distinct_eq fuel st src dest Bs Bd css csd Hs Hd Hne Hsep).
  pose proof (reset_frame st dest Bd csd src Bs css Hd Hne Hs Hsep) as Hs1.
  pose proof (reset_state_ok st dest Bd csd Hd) as Hd1.
  assert (Hempty : inline_with (reset_state st dest Bd) dest []).
  { eexists _, _. split; [exact Hd1|]. repeat split. }
  rewrite Hlens.
  destruct (inline_append fuel (reset_state st dest Bd) dest [] (str Bs) css bs Hempty)
    as (st' & Hrun & Hdest & Hheap & Hor & Hothers).
  - exact (ok_object _ _ _ _ Hs1).
  - exact Htakes.
  - rewrite Hstrs. congruence.
  - cbn [length]. lia.
  - exists st'. split; [assumption|]. split.
    + apply (inline_frame st); [assumption|].
      rewrite Hothers by assumption. cbn. now rewrite lookup_insert_ne by congruence.
    + split; [exact Hdest|]. split.
      * rewrite Hheap. cbn. now rewrite Hstrd.
      * split; [rewrite Hor; reflexivity|].
        intros a' Hne'. rewrite Hothers by assumption. cbn.
        now rewrite lookup_insert_ne by congruence.
Qed.

Lemma greeting_no_nul : NUL ∉ greeting.
Proof.
  intros H. apply list_elem_of_In in H. vm_compute in H.
  repeat (destruct H as [H|H]; [discriminate|]). exact H.
Qed.

(** X23. The sample program works for every allocator and whatever the two
    local buffers hold at the start: it never takes an early [return 1],
    prints the 28 bytes ["Hello World using SB_Buffer!"] and their length
    for the buffer and again for its copy, returns 0, never calls the
    allocator and leaves the heap as it found it. *)
Theorem sample_program_runs fuel st b dest h1 h2 h3 :
  is_object st b -> is_object st dest -> b <> dest ->
  heap st !! h1 = Some (literal_array hello) ->
  heap st !! h2 = Some (literal_array world) ->
  heap st !! h3 = Some (literal_array using_sb) ->
  exists st',
    main fuel b dest (Heap h1) (Heap h2) (Heap h3) st
    = Ret ((0, [PrintedString greeting; PrintedSize 28;
                PrintedString greeting; PrintedSize 28]), st')
    /\ heap st' = heap st /\ oracle st' = oracle st.
Proof.
  intros Hb Hdest Hne H1 H2 H3.
  destruct (init_inline st b Hb) as (st1 & E1 & I1 & Hh1 & Ho1 & Hf1).
  destruct (inline_append fuel st1 b [] (Heap h1) (literal_array hello) hello I1)
    as (st2 & E2 & I2 & Hh2 & Ho2 & Hf2);
    [cbn; rewrite Hh1; exact H1 | reflexivity | discriminate | reflexivity |].
  destruct (inline_append fuel st2 b ([] ++ hello) (Heap h2) (literal_array world) world I2)
    as (st3 & E3 & I3 & Hh3 & Ho3 & Hf3);
    [cbn; rewrite Hh2, Hh1; exact H2 | reflexivity | discriminate | reflexivity |].
  destruct (inline_append fuel st3 b (([] ++ hello) ++ world) (Heap h3)
              (literal_array using_sb) using_sb I3)
    as (st4 & E4 & I4 & Hh4 & Ho4 & Hf4);
    [cbn; rewrite Hh3, Hh2, Hh1; exact H3 | reflexivity | discriminate | reflexivity |].
  change ((([] ++ hello) ++ world) ++ using_sb) with greeting in I4.
  destruct (inline_read st4 b greeting I4 greeting_no_nul) as (Rs4 & Rt4 & Rl4).
  assert (Hlen3 : strlen (Heap h3) st3 = Ret (Z.of_nat (length using_sb), st3)).
  { unfold strlen. cbn [object]. rewrite Hh3, Hh2, Hh1, H3. reflexivity. }
  assert (Hdest4 : is_object st4 dest).
  { destruct Hdest as (B0 & HB0 & Hi0). exists B0. split; [|assumption].
    rewrite Hf4, Hf3, Hf2, Hf1 by congruence. assumption. }
  destruct (init_inline st4 dest Hdest4) as (st5 & E5 & I5 & Hh5 & Ho5 & Hf5).
  assert (Ib5 : inline_with st5 b greeting)
    by (apply (inline_frame st4); [assumption|apply Hf5; assumption]).
  destruct (inline_copy fuel st5 b dest greeting [] Ib5 I5 Hne)
    as (st6 & E6 & Ib6 & Id6 & Hh6 & Ho6 & Hf6); [reflexivity|].
  destruct (inline_read st6 dest greeting Id6 greeting_no_nul) as (Rs6 & Rt6 & Rl6).
  destruct (inline_finalize st6 b greeting Ib6) as (st7 & E7 & Hh7 & Ho7 & Hf7).
  assert (Id7 : inline_with st7 dest greeting)
    by (apply (inline_frame st6); [assumption|apply Hf7; congruence]).
  destruct (inline_finalize st7 dest greeting Id7) as (st8 & E8 & Hh8 & Ho8 & _).
  exists st8. split; [|split; congruence].
  unfold main.
  erewrite (bind_Ret (sb_buffer_init _)) by exact E1. cbv beta iota.
  change (1 =? 0) with false. cbv iota.
  erewrite (bind_Ret (sb_buffer_add_lstring _ _ _ _)) by exact E2.
  cbv beta. change (1 =? 0) with false. cbv iota.
  erewrite (bind_Ret (sb_buffer_add_literal _ _ _ _)) by exact E3.
  cbv beta. change (1 =? 0) with false. cbv iota.
  unfold sb_buffer_add_string. rewrite bind_assoc.
  erewrite (bind_Ret (strlen _)) by exact Hlen3. cbv beta.
  erewrite (bind_Ret (sb_buffer_add_lstring _ _ _ _)) by exact E4.
  cbv beta. change (1 =? 0) with false. cbv iota.
  erewrite (bind_Ret (get_str _)) by exact Rs4. cbv beta.
  erewrite (bind_Ret (read_string _)) by exact Rt4. cbv beta.
  erewrite (bind_Ret (get_len _)) by exact Rl4. cbv beta.
  unfold SB_INIT. rewrite bind_assoc.
  erewrite (bind_Ret (sb_buffer_init _)) by exact E5. cbv beta.
  erewrite (bind_Ret (ret _)) by reflexivity. cbv beta.
  erewrite (bind_Ret (sb_buffer_copy _ _ _)) by exact E6.
  cbv beta. change (1 =? 0) with false. cbv iota.
  erewrite (bind_Ret (get_str _)) by exact Rs6. cbv beta.
  erewrite (bind_Ret (read_string _)) by exact Rt6. cbv beta.
  erewrite (bind_Ret (get_len _)) by exact Rl6. cbv beta.
  erewrite (bind_Ret (sb_buffer_finalize _)) by exact E7. cbv beta.
  erewrite (bind_Ret (sb_buffer_finalize _)) by exact E8. cbv beta.
  reflexivity.
Qed.

Lemma sample_program_runs_witness :
  exists st',
    main 0 1%positive 2%positive (Heap 30%positive) (Heap 31%positive) (Heap 32%positive)
      demo_sample
    = Ret ((0, [PrintedString greeting; PrintedSize 28;
                PrintedString greeting; PrintedSize 28]), st')
    /\ heap st' = heap demo_sample /\ oracle st' = oracle demo_sample.
Proof.
  apply (sample_program_runs 0 demo_sample 1%positive 2%positive
           30%positive 31%positive 32%positive).
  - exists demo_raw. split; vm_compute; reflexivity.
  - exists demo_raw. split; vm_compute; reflexivity.
  - discriminate.
  - vm_compute. reflexivity.
  - vm_compute. reflexivity.
  - vm_compute. reflexivity.
Defined.
